(** * Search, filtering and ranking engine of the task manager

    A shallow embedding of [src/utils/searchUtils.js] and of the search
    pipeline of [src/hooks/useElasticSearch.js], with the properties of the
    specification stated over it.

    Conventions of the embedding.
    - A JavaScript string is a Rocq [string], one [ascii] per UTF-16 code
      unit; the embedding therefore covers the strings whose code units are
      below 256 (Latin-1), on which [toLowerCase] is the map given below.
      A property that rests on how case is folded is stated for strings
      of basic Latin characters ([basicLatin]), where lower-casing and the
      case folding of the pattern language change the letters [A-Z] only.
    - A call that can throw returns a [completion].
    - Objects live in a store: records and arrays are read, allocated and
      (arrays only) overwritten through locations, so that aliasing between
      the caller's collection and the arrays of the pipeline is visible. *)

From Stdlib Require Import Ascii String QArith Sorted.
From stdpp Require Import gmap strings list.

Open Scope string_scope.
Open Scope nat_scope.

(** ** Strings *)

Module Str.

(** The code units of a string, in order ([s[0]], [s[1]], ...). *)
Definition chars (s : string) : list ascii := list_ascii_of_string s.

Definition of_chars (l : list ascii) : string := string_of_list_ascii l.

(** [String.prototype.toLowerCase] on one Latin-1 code unit: [A-Z] and the
    letters U+00C0..U+00DE except the multiplication sign U+00D7 move up by
    32; every other code unit below 256 is its own lower case. *)
Definition lowerChar (c : ascii) : ascii :=
  let n := nat_of_ascii c in
  if ((65 <=? n) && (n <=? 90))
     || ((192 <=? n) && (n <=? 222) && negb (n =? 215))
  then ascii_of_nat (n + 32) else c.

Fixpoint toLowerCase (s : string) : string :=
  match s with
  | EmptyString => EmptyString
  | String c r => String (lowerChar c) (toLowerCase r)
  end.

(** [a.startsWith(b)] *)
Fixpoint startsWith (a b : string) {struct b} : bool :=
  match b, a with
  | EmptyString, _ => true
  | String _ _, EmptyString => false
  | String y b', String x a' => Ascii.eqb x y && startsWith a' b'
  end.

(** [a.includes(b)]: [b] starts at some position of [a]. *)
Fixpoint includes (a b : string) : bool :=
  startsWith a b ||
  match a with
  | EmptyString => false
  | String _ a' => includes a' b
  end.

(** Truthiness of a string: only the empty string is falsy. *)
Definition truthy (s : string) : bool :=
  match s with EmptyString => false | String _ _ => true end.

End Str.

(** ** The tokenizer: [parseSearchQuery] *)

Module Tokenizer.

(** The double-quote character, code unit 34. *)
Definition quote : ascii := ascii_of_nat 34.
Definition space : ascii := " "%char.

(** The three variables of the loop of [parseSearchQuery]. *)
Record scan := Scan {
  tokens : list string;
  current : string;
  inQuotes : bool
}.

(** One iteration of the loop body, on the character [char = query[i]]. *)
Definition step (st : scan) (char : ascii) : scan :=
  if Ascii.eqb char quote then
    Scan (tokens st) (current st) (negb (inQuotes st))
  else if Ascii.eqb char space && negb (inQuotes st) then
    if Str.truthy (current st)
    then Scan (tokens st ++ [current st])%list EmptyString (inQuotes st)
    else st
  else
    Scan (tokens st) (current st ++ String char EmptyString) (inQuotes st).

(** The code after the loop: flush [current], then
    [tokens.filter(token => token.length > 0)]. *)
Definition finish (st : scan) : list string :=
  let tokens' :=
    if Str.truthy (current st) then (tokens st ++ [current st])%list
    else tokens st in
  List.filter (fun token => 0 <? String.length token) tokens'.

Definition parseSearchQuery (query : string) : list string :=
  finish (fold_left step (Str.chars query) (Scan [] EmptyString false)).

(** The algorithm as the specification words it: a scan that emits the
    tokens in order.  [flush acc] is the closing of a token, which emits
    nothing when the accumulator is empty. *)
Definition flush (acc : string) : list string :=
  if Str.truthy acc then [acc] else [].

Fixpoint spec_scan (inside : bool) (acc : string) (rest : list ascii)
  : list string :=
  match rest with
  | [] => flush acc
  | c :: rest' =>
      if Ascii.eqb c quote then spec_scan (negb inside) acc rest'
      else if Ascii.eqb c space && negb inside
      then (flush acc ++ spec_scan inside EmptyString rest')%list
      else spec_scan inside (acc ++ String c EmptyString) rest'
  end.

Definition spec_parseQuery (query : string) : list string :=
  spec_scan false EmptyString (Str.chars query).

(** A string holds no double-quote character. *)
Definition quote_free (s : string) : Prop := ~ In quote (Str.chars s).

End Tokenizer.

(** ** Completions: a call returns normally or throws *)

Inductive exn := SyntaxError | TypeError.

Inductive completion (A : Type) : Type :=
  | Normal (a : A)
  | Throw (e : exn).
Arguments Normal {A} a.
Arguments Throw {A} e.

#[export] Instance completion_ret : MRet completion := @Normal.
#[export] Instance completion_bind : MBind completion :=
  fun A B f m => match m with Normal a => f a | Throw e => Throw e end.

(** ** Values and records

    A record is an object used as a map from property names to values.
    Numbers are restricted to the integers, which is what the pipeline
    itself writes ([_searchScore]); [VObj] stands for any other object,
    known by its identity only. *)

Inductive value :=
  | VUndefined
  | VNull
  | VBool (b : bool)
  | VNum (n : Z)
  | VStr (s : string)
  | VObj (id : nat).

#[export] Instance value_eq_dec : EqDecision value.
Proof. solve_decision. Defined.

Abbreviation record := (gmap string value).

(** [item[field]] and [item.name].  A property that the record does not
    own reads as [undefined].  The members a plain object inherits from
    [Object.prototype] are functions or objects, never strings: for a
    searchable field the code only asks whether the value is a non-empty
    string, and the properties it reads by name ([completed], [priority],
    [dueDate], [title], [createdAt], [_searchScore]) are not inherited. *)
Definition get (item : record) (field : string) : value :=
  default VUndefined (item !! field).

(** [value && typeof value === 'string'] *)
Definition nonEmptyString (v : value) : option string :=
  match v with
  | VStr s => if Str.truthy s then Some s else None
  | _ => None
  end.

(** ** The host

    What the code takes from the JavaScript host and the embedding does
    not compute: the regular-expression engine on the patterns outside the
    fragment of [RegExpFragment], collation, dates, and the algorithm of
    [Array.prototype.sort].

    The language leaves to the engine which pairs a sort compares, in which
    order, and with which of the two elements as first argument; the
    result is fixed by the language only for a consistent comparator that
    returns.  [sortOrder cmp elems] is the outcome of the engine's
    algorithm on the elements [elems], given what each call of the
    comparator answers: the new order, or what a call threw. *)

Record Host := {
  (** [new RegExp(source, 'gi').test(text)] *)
  regexp_test : string -> string -> completion bool;
  (** the algorithm of [elems.sort(cmp)] *)
  sortOrder : (nat -> nat -> completion Z) -> list nat -> completion (list nat);
  (** [s.localeCompare(v)] for a string [s] *)
  localeCompare : string -> value -> Z;
  (** the time value of [new Date(v)], [None] for an invalid date *)
  dateTime : value -> option Z;
  (** [new Date(v).toDateString()] *)
  toDateString : value -> string
}.

(** ** Regular expressions: the fragment that is computed

    [wordMatch] builds the pattern [\b] + term + [\b] from the term as it
    is.  A term made of characters that are not syntax characters of the
    pattern language, and of dots, gives a sequence of one-character
    atoms between two word-boundary assertions; that fragment is computed
    here.  Any other term goes to the host's engine. *)

Module RegExpFragment.

Inductive atom :=
  | Lit (c : ascii)   (* a pattern character, matched case-insensitively *)
  | Dot.              (* [.]: any character but a line terminator *)

(** The syntax characters [^ $ \ . * + ? ( ) [ ] { } |]. *)
Definition syntaxChars : list ascii :=
  Str.chars "^$\.*+?()[]{}|".

Definition isSyntaxChar (c : ascii) : bool :=
  existsb (Ascii.eqb c) syntaxChars.

Definition atom_of (c : ascii) : option atom :=
  if Ascii.eqb c "."%char then Some Dot
  else if isSyntaxChar c then None
  else Some (Lit c).

Fixpoint compile (term : list ascii) : option (list atom) :=
  match term with
  | [] => Some []
  | c :: term' =>
      match atom_of c, compile term' with
      | Some a, Some atoms => Some (a :: atoms)
      | _, _ => None
      end
  end.

(** The word characters of [\b]: [A-Z a-z 0-9 _]. *)
Definition isWordChar (c : ascii) : bool :=
  let n := nat_of_ascii c in
  ((65 <=? n) && (n <=? 90)) || ((97 <=? n) && (n <=? 122))
  || ((48 <=? n) && (n <=? 57)) || (n =? 95).

Definition isWord (c : option ascii) : bool :=
  match c with Some c => isWordChar c | None => false end.

(** [\b] between the character before the position and the one after. *)
Definition boundary (before after : option ascii) : bool :=
  xorb (isWord before) (isWord after).

Definition isLineTerminator (c : ascii) : bool :=
  let n := nat_of_ascii c in (n =? 10) || (n =? 13).

(** Flag [i]: two code units below 256 have the same canonical form
    exactly when they have the same lower case. *)
Definition atomMatches (a : atom) (c : ascii) : bool :=
  match a with
  | Lit d => Ascii.eqb (Str.lowerChar c) (Str.lowerChar d)
  | Dot => negb (isLineTerminator c)
  end.

(** The atoms, then the closing [\b], at the position whose preceding
    character is [before] and whose remaining input is [rest]. *)
Fixpoint matchHere (atoms : list atom) (before : option ascii)
    (rest : list ascii) : bool :=
  match atoms with
  | [] => boundary before (head rest)
  | a :: atoms' =>
      match rest with
      | [] => false
      | c :: rest' => atomMatches a c && matchHere atoms' (Some c) rest'
      end
  end.

(** The search of [test] from [lastIndex = 0]: the first position at
    which the opening [\b] and the rest of the pattern match. *)
Fixpoint search (atoms : list atom) (before : option ascii)
    (rest : list ascii) : bool :=
  (boundary before (head rest) && matchHere atoms before rest)
  || match rest with
     | [] => false
     | c :: rest' => search atoms (Some c) rest'
     end.

Definition test (atoms : list atom) (text : string) : bool :=
  search atoms None (Str.chars text).

End RegExpFragment.

(** ** The field matchers *)

Section Matchers.
Variable host : Host.

Definition exactMatch (text term : string) : bool :=
  String.eqb (Str.toLowerCase text) (Str.toLowerCase term).

Definition substringMatch (text term : string) : bool :=
  Str.includes (Str.toLowerCase text) (Str.toLowerCase term).

(** [new RegExp(`\\b${term}\\b`, 'gi').test(text)] *)
Definition wordMatch (text term : string) : completion bool :=
  match RegExpFragment.compile (Str.chars term) with
  | Some atoms => Normal (RegExpFragment.test atoms text)
  | None => regexp_test host ("\b" ++ term ++ "\b") text
  end.

(** The loop of [fuzzyMatch]: [i] runs over the characters of
    [lowerText] while [termIndex < lowerTerm.length]. *)
Fixpoint fuzzyLoop (lowerText lowerTerm : list ascii)
    (matches termIndex : nat) : nat * nat :=
  match lowerText with
  | [] => (matches, termIndex)
  | c :: rest =>
      if termIndex <? length lowerTerm then
        if bool_decide (lowerTerm !! termIndex = Some c)
        then fuzzyLoop rest lowerTerm (S matches) (S termIndex)
        else fuzzyLoop rest lowerTerm matches termIndex
      else (matches, termIndex)
  end.

(** The score is a rational: [0.9] and [0.8] are nine and eight tenths,
    and the quotient of the two counts is exact.  The code compares a
    score with [0] and [0.5] only, which rounding to a double does not
    change for texts shorter than 2^52 characters.  The quotient is
    reached with a non-empty text only. *)
Definition fuzzyMatch (text term : string) : completion Q :=
  let lowerText := Str.toLowerCase text in
  let lowerTerm := Str.toLowerCase term in
  if String.eqb lowerText lowerTerm then Normal 1%Q
  else if Str.includes lowerText lowerTerm then Normal (9 # 10)%Q
  else
    b ← wordMatch text term;
    if b : bool then Normal (8 # 10)%Q
    else
      let '(matches, termIndex) :=
        fuzzyLoop (Str.chars lowerText) (Str.chars lowerTerm) 0 0 in
      if termIndex =? String.length lowerTerm
      then Normal (Z.of_nat matches # Pos.of_nat (String.length lowerText))%Q
      else Normal 0%Q.

Definition prefixMatch (text term : string) : bool :=
  Str.startsWith (Str.toLowerCase text) (Str.toLowerCase term).

(** *** The table of match functions and its lookup

    [{exact, substring, word, fuzzy, prefix}[matchType]] is a property
    read on an object literal: it finds the five own properties and, for
    any other name, whatever the object inherits from [Object.prototype]. *)

Inductive matchFn := FExact | FSubstring | FWord | FFuzzy | FPrefix.

Inductive member :=
  | Own (f : matchFn)
  | Inherited (name : string).

Definition ownTable : list (string * matchFn) :=
  [("exact", FExact); ("substring", FSubstring); ("word", FWord);
   ("fuzzy", FFuzzy); ("prefix", FPrefix)].

(** The property names of [Object.prototype]. *)
Definition objectPrototypeNames : list string :=
  ["constructor"; "__defineGetter__"; "__defineSetter__"; "hasOwnProperty";
   "__lookupGetter__"; "__lookupSetter__"; "isPrototypeOf";
   "propertyIsEnumerable"; "toString"; "valueOf"; "__proto__";
   "toLocaleString"].

Fixpoint assoc {A} (table : list (string * A)) (key : string) : option A :=
  match table with
  | [] => None
  | (k, v) :: table' => if String.eqb k key then Some v else assoc table' key
  end.

Definition tableLookup (matchType : string) : option member :=
  match assoc ownTable matchType with
  | Some f => Some (Own f)
  | None =>
      if existsb (String.eqb matchType) objectPrototypeNames
      then Some (Inherited matchType) else None
  end.

(** [table[matchType] || substringMatch]: every member found is a
    function or an object, hence truthy. *)
Definition matchFunction (matchType : string) : member :=
  default (Own FSubstring) (tableLookup matchType).

(** Truthiness of [m(value, term)] for an inherited member [m], called as
    a plain function ([this] is [undefined] in a module) on a string
    [value]: [Object(value)] is a wrapper object and [toString] returns
    the string [[object Undefined]], both truthy; [isPrototypeOf] returns
    [false] on a primitive; [__proto__] reads as the prototype object,
    which is not callable; the others convert [this] to an object first
    and throw. *)
Definition callInherited (name : string) : completion bool :=
  if String.eqb name "constructor" then Normal true
  else if String.eqb name "toString" then Normal true
  else if String.eqb name "isPrototypeOf" then Normal false
  else Throw TypeError.

(** Truthiness of [matchFunction(value, term)]. *)
Definition callMatch (m : member) (value term : string) : completion bool :=
  match m with
  | Own FExact => Normal (exactMatch value term)
  | Own FSubstring => Normal (substringMatch value term)
  | Own FWord => wordMatch value term
  | Own FFuzzy => score ← fuzzyMatch value term; Normal (negb (Qeq_bool score 0))
  | Own FPrefix => Normal (prefixMatch value term)
  | Inherited name => callInherited name
  end.

(** *** [multiFieldSearch] *)

(** A truthy result [{ match: true, field, score }]; [score] is present
    under [fuzzy] only. *)
Record matchInfo := MatchInfo {
  mi_field : string;
  mi_score : option Q
}.

(** The [for (const field of fields)] loop with its early returns; the
    result [None] is the final [return false].  In the branch
    [matchType === 'fuzzy'] the function looked up is [fuzzyMatch]. *)
Fixpoint fieldLoop (item : record) (term : string) (matchType : string)
    (fields : list string) : completion (option matchInfo) :=
  match fields with
  | [] => Normal None
  | field :: fields' =>
      match nonEmptyString (get item field) with
      | Some value =>
          if String.eqb matchType "fuzzy" then
            score ← fuzzyMatch value term;
            if Qlt_le_dec (1 # 2) score
            then Normal (Some (MatchInfo field (Some score)))
            else fieldLoop item term matchType fields'
          else
            b ← callMatch (matchFunction matchType) value term;
            if b : bool then Normal (Some (MatchInfo field None))
            else fieldLoop item term matchType fields'
      | None => fieldLoop item term matchType fields'
      end
  end.

Definition multiFieldSearch (item : record) (term : string)
    (fields : list string) (matchType : string)
  : completion (option matchInfo) :=
  if negb (Str.truthy term) || (length fields =? 0) then Normal None
  else fieldLoop item term matchType fields.

(** *** [scoreSearchResult] *)

(** One iteration of the loop over [searchFields], from the running
    [score] to the next one. *)
Definition scoreStep (item : record) (term lowerTerm : string)
    (score : Z) (field : string) : completion Z :=
  match nonEmptyString (get item field) with
  | None => Normal score                              (* [continue] *)
  | Some value =>
      let lowerValue := Str.toLowerCase value in
      if String.eqb lowerValue lowerTerm then Normal (score + 100)%Z
      else if Str.startsWith lowerValue lowerTerm then Normal (score + 75)%Z
      else if Str.includes lowerValue lowerTerm then Normal (score + 50)%Z
      else
        b ← wordMatch value term;
        Normal (if b : bool then score + 25 else score)%Z
  end.

Fixpoint scoreLoop (item : record) (term lowerTerm : string)
    (score : Z) (fields : list string) : completion Z :=
  match fields with
  | [] => Normal score
  | field :: fields' =>
      score' ← scoreStep item term lowerTerm score field;
      scoreLoop item term lowerTerm score' fields'
  end.

Definition scoreSearchResult (item : record) (term : string)
    (searchFields : list string) : completion Z :=
  if negb (Str.truthy term) then Normal 0%Z
  else scoreLoop item term (Str.toLowerCase term) 0%Z searchFields.

End Matchers.

(** *** What one iteration of the loop of [scoreSearchResult] adds

    The chain of [if]s of the loop body, read off the code as the amount
    that it adds to the score for one field value: [wordMatch] is called
    as the code calls it, on the value and the term as they are. *)

Section ScorerSteps.
Variable host : Host.

Definition valueAward (value term : string) : completion Z :=
  let lowerValue := Str.toLowerCase value in
  let lowerTerm := Str.toLowerCase term in
  if String.eqb lowerValue lowerTerm then Normal 100%Z
  else if Str.startsWith lowerValue lowerTerm then Normal 75%Z
  else if Str.includes lowerValue lowerTerm then Normal 50%Z
  else wholeWord ← wordMatch host value term;
       Normal (if wholeWord : bool then 25 else 0)%Z.

(** A field whose value is not a non-empty string is skipped. *)
Definition fieldAward (item : record) (term field : string) : completion Z :=
  match nonEmptyString (get item field) with
  | Some value => valueAward value term
  | None => Normal 0%Z
  end.

Definition sumZ (l : list Z) : Z := foldr Z.add 0%Z l.

End ScorerSteps.

(** A record with a [title] only. *)
Definition titled (title : string) : record := {[ "title" := VStr title ]}.

(** An engine that sorts by insertion: each element in turn is compared
    with the elements already placed, from the last one down, and it is the
    first argument of the comparator.  [before] is the part already sorted,
    last element first. *)
Fixpoint insertBefore (cmp : nat -> nat -> completion Z) (x : nat)
    (before : list nat) : completion (list nat) :=
  match before with
  | [] => Normal [x]
  | y :: before' =>
      c ← cmp x y;
      if (c <? 0)%Z
      then rest ← insertBefore cmp x before'; Normal (y :: rest)
      else Normal (x :: y :: before')
  end.

Fixpoint sortFrom (cmp : nat -> nat -> completion Z) (before : list nat)
    (elems : list nat) : completion (list nat) :=
  match elems with
  | [] => Normal (rev before)
  | x :: elems' =>
      before' ← insertBefore cmp x before; sortFrom cmp before' elems'
  end.

(** A host with that engine, which knows no pattern outside the computed
    fragment, no collation and no date. *)
Definition plainHost : Host :=
  {| regexp_test := fun _ _ => Throw SyntaxError;
     sortOrder := fun cmp elems => sortFrom cmp [] elems;
     localeCompare := fun _ _ => 0%Z;
     dateTime := fun _ => None;
     toDateString := fun _ => "Invalid Date" |}.

(** The containment order of the specification: the characters of the
    term occur, compared case-insensitively, as a subsequence of the text. *)
Definition spec_subsequence (term text : string) : Prop :=
  sublist (Str.chars (Str.toLowerCase term)) (Str.chars (Str.toLowerCase text)).

(** A term without any syntax character of the pattern language. *)
Definition plainTerm (term : string) : Prop :=
  Forall (fun c => RegExpFragment.isSyntaxChar c = false) (Str.chars term).

(** The strategy names of the specification. *)
Definition strategyNames : list string :=
  ["exact"; "substring"; "word"; "fuzzy"; "prefix"].

(** ** Matching and scoring as the specification words them

    The field matcher, the multi-field matcher and the scorer of sections
    4.2 to 4.4 of the specification, written from its sentences and not
    from the code: a term is a sequence of characters, looked for at the
    positions of the text, and nowhere a pattern. *)

Module Spec.

(** A case-normalized string, as the list of its characters. *)
Definition normalized (s : string) : list ascii :=
  Str.chars (Str.toLowerCase s).

(** The term is in the text at the position [i]. *)
Definition occursAt (text term : list ascii) (i : nat) : bool :=
  bool_decide (take (length term) (drop i text) = term).

(** The positions of a text: before each character, and at the end. *)
Definition positions (text : list ascii) : list nat :=
  seq 0 (S (length text)).

(** Containment, and starting with. *)
Definition contains (text term : list ascii) : bool :=
  existsb (occursAt text term) (positions text).

Definition startsWith (text term : list ascii) : bool := occursAt text term 0.

(** The characters of which words are made. *)
Definition wordCharacters : list ascii :=
  Str.chars
    "abcdefghijklmnopqrstuvwxyzABCDEFGHIJKLMNOPQRSTUVWXYZ0123456789_".

Definition wordChar (c : option ascii) : bool :=
  match c with
  | Some c => existsb (Ascii.eqb c) wordCharacters
  | None => false
  end.

(** The character just before a position; there is none at the start. *)
Definition charBefore (text : list ascii) (i : nat) : option ascii :=
  match i with 0 => None | S j => text !! j end.

(** A word boundary lies at the position [i]: of the characters before and
    after it, one is a word character and the other is not; the two ends
    of the text count as characters that are not. *)
Definition boundaryAt (text : list ascii) (i : nat) : bool :=
  xorb (wordChar (charBefore text i)) (wordChar (text !! i)).

(** The term appears in the text as a whole word, without regard to
    case: somewhere the text continues with the term, and a word boundary
    lies at both ends of that occurrence. *)
Definition wholeWord (text term : string) : bool :=
  existsb
    (fun i =>
       boundaryAt (Str.chars text) i
       && occursAt (normalized text) (normalized term) i
       && boundaryAt (Str.chars text) (i + length (normalized term)))
    (positions (Str.chars text)).

(** The greedy scan of the fuzzy strategy: the text is read from left to
    right, and a character that is the next one of the term consumes it.
    The result is the number of characters of the term consumed. *)
Fixpoint consumed (text term : list ascii) : nat :=
  match text with
  | [] => 0
  | c :: text' =>
      match term with
      | [] => 0
      | d :: term' =>
          if Ascii.eqb c d then S (consumed text' term')
          else consumed text' term
      end
  end.

(** The fuzzy score: 1 on equality, 0.9 on containment, 0.8 on a whole
    word; otherwise the characters matched over the length of the text
    when the scan consumes the whole term, and 0 when it does not. *)
Definition fuzzyScore (text term : string) : Q :=
  let t := normalized text in
  let w := normalized term in
  if bool_decide (t = w) then 1%Q
  else if contains t w then (9 # 10)%Q
  else if wholeWord text term then (8 # 10)%Q
  else if consumed t w =? length w
       then (Z.of_nat (consumed t w) # Pos.of_nat (length t))%Q
       else 0%Q.

Inductive strategy := Exact | Substring | Word | Prefix | Fuzzy.

(** The strategy that a match type names; a name that is none of the five
    falls back to [Substring]. *)
Definition strategyOf (matchType : string) : strategy :=
  if String.eqb matchType "exact" then Exact
  else if String.eqb matchType "word" then Word
  else if String.eqb matchType "prefix" then Prefix
  else if String.eqb matchType "fuzzy" then Fuzzy
  else Substring.

(** The field matcher; the fuzzy strategy accepts the scores above one
    half. *)
Definition matches (st : strategy) (text term : string) : bool :=
  match st with
  | Exact => bool_decide (normalized text = normalized term)
  | Substring => contains (normalized text) (normalized term)
  | Word => wholeWord text term
  | Prefix => startsWith (normalized text) (normalized term)
  | Fuzzy => if Qlt_le_dec (1 # 2) (fuzzyScore text term) then true else false
  end.

(** The token matches the record in at least one of the fields, whose
    value is then a non-empty string. *)
Definition recordMatches (item : record) (fields : list string)
    (matchType : string) (token : string) : Prop :=
  exists field value,
    In field fields
    /\ nonEmptyString (get item field) = Some value
    /\ matches (strategyOf matchType) value token = true.

(** The tier of one field value: the first that applies. *)
Definition tier (value term : string) : Z :=
  let v := normalized value in
  let t := normalized term in
  if bool_decide (v = t) then 100%Z
  else if startsWith v t then 75%Z
  else if contains v t then 50%Z
  else if wholeWord value term then 25%Z
  else 0%Z.

(** A field whose value is not a non-empty string awards nothing. *)
Definition award (item : record) (term field : string) : Z :=
  match nonEmptyString (get item field) with
  | Some value => tier value term
  | None => 0%Z
  end.

(** The awards of the fields are added up; an empty query scores 0. *)
Definition score (item : record) (term : string) (fields : list string) : Z :=
  if Str.truthy term then sumZ (map (award item term) fields) else 0%Z.

End Spec.

(** A string of basic Latin characters: every code unit is below 128.  On
    such a string lower-casing changes the letters [A-Z] only, and the
    case folding of the pattern language is the same. *)
Definition basicLatin (s : string) : bool :=
  forallb (fun c => nat_of_ascii c <? 128) (Str.chars s).

(** A term that the pattern language reads as the sequence of its
    characters: basic Latin, and without syntax character. *)
Definition literalTerm (term : string) : Prop :=
  plainTerm term /\ basicLatin term = true.

(** The strategies whose code builds a pattern from the term. *)
Definition usesPattern (matchType : string) : bool :=
  String.eqb matchType "word" || String.eqb matchType "fuzzy".

(** ** The store

    Records and arrays are objects: the caller's collection is a location
    of an array whose elements are locations of records.  A location never
    allocated reads as an empty object. *)

Record store := Store {
  records : list record;
  arrays : list (list nat)
}.

Definition recordAt (s : store) (r : nat) : record :=
  default ∅ (records s !! r).

Definition arrayAt (s : store) (a : nat) : list nat :=
  default [] (arrays s !! a).

(** A computation reads and updates the store and returns or throws. *)
Definition M (A : Type) : Type := store -> store * completion A.

#[export] Instance M_ret : MRet M := fun A a s => (s, Normal a).
#[export] Instance M_bind : MBind M := fun A B k m s =>
  match m s with
  | (s', Normal a) => k a s'
  | (s', Throw e) => (s', Throw e)
  end.

Definition lift {A} (c : completion A) : M A := fun s => (s, c).

Definition readRecord (r : nat) : M record :=
  fun s => (s, Normal (recordAt s r)).

Definition readArray (a : nat) : M (list nat) :=
  fun s => (s, Normal (arrayAt s a)).

(** A new object literal. *)
Definition allocRecord (props : record) : M nat :=
  fun s => (Store (records s ++ [props]) (arrays s),
            Normal (length (records s))).

(** A new array. *)
Definition allocArray (elems : list nat) : M nat :=
  fun s => (Store (records s) (arrays s ++ [elems]),
            Normal (length (arrays s))).

(** An update of an array in place. *)
Definition writeArray (a : nat) (elems : list nat) : M unit :=
  fun s => (Store (records s) (<[a := elems]> (arrays s)), Normal tt).

(** *** Array methods *)

Fixpoint filterM `{MBind T, MRet T} {A} (f : A -> T bool) (l : list A)
  : T (list A) :=
  match l with
  | [] => mret []
  | x :: l' =>
      b ← f x; rest ← filterM f l';
      mret (if b : bool then x :: rest else rest)
  end.

(** [every] stops at the first element that fails. *)
Fixpoint everyM `{MBind T, MRet T} {A} (f : A -> T bool) (l : list A)
  : T bool :=
  match l with
  | [] => mret true
  | x :: l' => b ← f x; if b : bool then everyM f l' else mret false
  end.

(** [Array.prototype.sort] with a comparator that always returns and is
    consistent, as [byScore] below (a difference of two integers): the
    language fixes the result, which is the stable sort of the elements,
    whatever pairs the engine compares.  This insertion sort computes it:
    [cmp a b <= 0] keeps [a] before [b]. *)
Fixpoint insertM (cmp : nat -> nat -> M Z) (x : nat) (sorted : list nat)
  : M (list nat) :=
  match sorted with
  | [] => mret [x]
  | y :: rest =>
      c ← cmp x y;
      if (c <=? 0)%Z then mret (x :: y :: rest)
      else rest' ← insertM cmp x rest; mret (y :: rest')
  end.

Fixpoint sortM (cmp : nat -> nat -> M Z) (l : list nat) : M (list nat) :=
  match l with
  | [] => mret []
  | x :: l' => sorted ← sortM cmp l'; insertM cmp x sorted
  end.

(** [[...a]] *)
Definition arraySpread (a : nat) : M nat :=
  elems ← readArray a; allocArray elems.

(** [a.filter(f)] *)
Definition arrayFilter (f : nat -> M bool) (a : nat) : M nat :=
  elems ← readArray a; kept ← filterM f elems; allocArray kept.

(** [a.map(f)] *)
Definition arrayMap (f : nat -> M nat) (a : nat) : M nat :=
  elems ← readArray a; images ← mapM f elems; allocArray images.

(** [a.sort(cmp)], in place, for such a comparator. *)
Definition arraySort (cmp : nat -> nat -> M Z) (a : nat) : M unit :=
  elems ← readArray a; sorted ← sortM cmp elems; writeArray a sorted.

(** [l.slice(0, k)] on the elements: a negative [k] counts from the end. *)
Definition slice0 (k : Z) (elems : list nat) : list nat :=
  if (k <? 0)%Z then take (Z.to_nat (Z.of_nat (length elems) + k)) elems
  else take (Z.to_nat k) elems.

(** [a.slice(0, k)] *)
Definition arraySlice0 (k : Z) (a : nat) : M nat :=
  elems ← readArray a; allocArray (slice0 k elems).

(** ** The search pipeline of [useElasticSearch] *)

(** A secondary filter [{ type, value }]. *)
Record filter := Filter {
  f_type : string;
  f_value : value
}.

Record statistics := Statistics {
  searched : bool;
  termsCount : nat;
  tokensUsed : option (list string)
}.

(** [results] is the location of the array that is returned. *)
Record searchResult := SearchResult {
  results : nat;
  resultCount : nat;
  searchTime : Q;
  stats : statistics
}.

Definition truthyValue (v : value) : bool :=
  match v with
  | VUndefined | VNull => false
  | VBool b => b
  | VNum n => negb (n =? 0)%Z
  | VStr s => Str.truthy s
  | VObj _ => true
  end.

(** [v === w] *)
Definition strictEq (v w : value) : bool := bool_decide (v = w).

Section Pipeline.
Variable host : Host.

(** [searchTokens.every(token => multiFieldSearch(item, token, ...))] *)
Definition matchesEveryToken (item : record) (searchTokens : list string)
    (searchFields : list string) (matchType : string) : completion bool :=
  everyM (fun token =>
            found ← multiFieldSearch host item token searchFields matchType;
            Normal (bool_decide (is_Some found)))
         searchTokens.

(** The text filter: [filtered.filter(item => ...)]. *)
Definition textStage (filtered : nat) (searchTokens : list string)
    (searchFields : list string) (matchType : string) : M nat :=
  arrayFilter (fun item =>
                 r ← readRecord item;
                 lift (matchesEveryToken r searchTokens searchFields matchType))
              filtered.

(** [{ ...item, _searchScore: scoreSearchResult(item, term, fields) }] *)
Definition scoreCopy (term : string) (searchFields : list string)
    (item : nat) : M nat :=
  r ← readRecord item;
  score ← lift (scoreSearchResult host r term searchFields);
  allocRecord (<["_searchScore" := VNum score]> r).

(** The [_searchScore] of a copy, a number. *)
Definition searchScore (r : record) : Z :=
  match get r "_searchScore" with VNum n => n | _ => 0%Z end.

(** [(a, b) => b._searchScore - a._searchScore] *)
Definition byScore (a b : nat) : M Z :=
  ra ← readRecord a; rb ← readRecord b;
  mret (searchScore rb - searchScore ra)%Z.

(** The ranking: map to scored copies, then sort them. *)
Definition rankStage (filtered : nat) (term : string)
    (searchFields : list string) : M nat :=
  filtered' ← arrayMap (scoreCopy term searchFields) filtered;
  _ ← arraySort byScore filtered';
  mret filtered'.

(** The callback of [appliedFilters.every]. *)
Definition passesFilter (item : record) (f : filter) : bool :=
  if String.eqb (f_type f) "status" && negb (strictEq (f_value f) VUndefined)
  then strictEq (get item "completed") (f_value f)
  else if String.eqb (f_type f) "priority" && truthyValue (f_value f)
  then strictEq (get item "priority") (f_value f)
  else if String.eqb (f_type f) "dueDate" && truthyValue (f_value f)
  then String.eqb (toDateString host (get item "dueDate"))
                  (toDateString host (f_value f))
  else true.

Definition filterStage (filtered : nat) (appliedFilters : list filter)
  : M nat :=
  arrayFilter (fun item =>
                 r ← readRecord item;
                 mret (forallb (passesFilter r) appliedFilters))
              filtered.

(** [(a, b) => a.title.localeCompare(b.title)]: a title that is not a
    string has no such method. *)
Definition byTitle (a b : nat) : M Z :=
  ra ← readRecord a; rb ← readRecord b;
  match get ra "title" with
  | VStr title => mret (localeCompare host title (get rb "title"))
  | _ => lift (Throw TypeError)
  end.

(** [(a, b) => new Date(b.createdAt) - new Date(a.createdAt)]: with an
    invalid date the difference is [NaN], which [sort] reads as [0]. *)
Definition byRecent (a b : nat) : M Z :=
  ra ← readRecord a; rb ← readRecord b;
  mret (match dateTime host (get rb "createdAt"),
              dateTime host (get ra "createdAt") with
        | Some tb, Some ta => tb - ta
        | _, _ => 0
        end)%Z.

(** [a.sort(cmp)], in place, for a comparator that can throw ([byTitle])
    or that is not consistent ([byRecent], when a date is invalid): the
    outcome is the one of the engine's algorithm.  The comparators only
    read the store, so that a call answers what it answers in the store of
    the sort; the array is written when the algorithm has returned. *)
Definition engineSort (cmp : nat -> nat -> M Z) (a : nat) : M unit :=
  fun s =>
    match sortOrder host (fun x y => (cmp x y s).2) (arrayAt s a) with
    | Normal sorted => writeArray a sorted s
    | Throw e => (s, Throw e)
    end.

Definition sortStage (filtered : nat) (sortBy : string)
    (searchFields : list string) : M unit :=
  if String.eqb sortBy "name" && existsb (String.eqb "title") searchFields
  then engineSort byTitle filtered
  else if String.eqb sortBy "recent" then engineSort byRecent filtered
  else mret tt.

(** [if (maxResults && filtered.length > maxResults)]; [None] is [null]. *)
Definition limitStage (filtered : nat) (maxResults : option Z) : M nat :=
  match maxResults with
  | None => mret filtered
  | Some k =>
      elems ← readArray filtered;
      if negb (k =? 0)%Z && (k <? Z.of_nat (length elems))%Z
      then arraySlice0 k filtered
      else mret filtered
  end.

(** From [let filtered = [...data]] to the end of the sorting. *)
Definition sortedMatches (data : nat) (debouncedSearchTerm : string)
    (appliedFilters : list filter) (searchFields : list string)
    (matchType : string) (rankResults : bool) (sortBy : string) : M nat :=
  filtered ← arraySpread data;
  let searchTokens := Tokenizer.parseSearchQuery debouncedSearchTerm in
  filtered ←
    (if Str.truthy debouncedSearchTerm && (0 <? length searchFields)
     then
       filtered ← textStage filtered searchTokens searchFields matchType;
       if rankResults
       then rankStage filtered debouncedSearchTerm searchFields
       else mret filtered
     else mret filtered);
  filtered ←
    (if 0 <? length appliedFilters
     then filterStage filtered appliedFilters
     else mret filtered);
  _ ← sortStage filtered sortBy searchFields;
  mret filtered.

(** The body of the [useMemo] that computes the results; [startTime] and
    [endTime] are the two readings of [performance.now()]. *)
Definition evaluate (startTime endTime : Q) (data : nat)
    (debouncedSearchTerm : string) (appliedFilters : list filter)
    (searchFields : list string) (matchType : string) (rankResults : bool)
    (sortBy : string) (maxResults : option Z) : M searchResult :=
  if negb (Str.truthy debouncedSearchTerm) && (length appliedFilters =? 0)
  then
    elems ← readArray data;
    mret (SearchResult data (length elems) 0%Q (Statistics false 0 None))
  else
    filtered ← sortedMatches data debouncedSearchTerm appliedFilters
                 searchFields matchType rankResults sortBy;
    filtered ← limitStage filtered maxResults;
    elems ← readArray filtered;
    let searchTokens := Tokenizer.parseSearchQuery debouncedSearchTerm in
    mret (SearchResult filtered (length elems) (endTime - startTime)%Q
            (Statistics true (length searchTokens) (Some searchTokens))).

End Pipeline.

(** *** What a computation leaves in place

    [extends s0 s]: every record and every array of [s0] is in [s], at the
    same location and with the same contents.  [fresh s0 a]: the array [a]
    was allocated after [s0].  [preserves s0 m Q]: run from a store that
    extends [s0], [m] ends in a store that extends [s0], whether it
    returns or throws, and a returned value satisfies [Q]. *)

Definition extends (s0 s : store) : Prop :=
  records s0 `prefix_of` records s /\ arrays s0 `prefix_of` arrays s.

Definition fresh (s0 : store) (a : nat) : Prop := length (arrays s0) <= a.

Definition preserves (s0 : store) {A} (m : M A) (Q : A -> Prop) : Prop :=
  forall s, extends s0 s ->
    extends s0 (m s).1 /\ forall a, (m s).2 = Normal a -> Q a.

(** ** What the match function of the code answers

    The outcome of the call that [multiFieldSearch] makes for one field
    value, as a proposition: the function that the code looks up for
    [matchType] returns a truthy value, or, under [fuzzy], a score above
    one half.  These are statements about the code's own functions. *)

Section MatchingSpec.
Variable host : Host.

(** The match function accepts the value. *)
Definition fieldMatches (matchType : string) (value token : string) : Prop :=
  if String.eqb matchType "fuzzy"
  then exists score, fuzzyMatch host value token = Normal score
                     /\ (1 # 2 < score)%Q
  else callMatch host (matchFunction matchType) value token = Normal true.

(** The match function accepts the value of at least one field. *)
Definition tokenMatches (item : record) (fields : list string)
    (matchType : string) (token : string) : Prop :=
  exists field value,
    In field fields
    /\ nonEmptyString (get item field) = Some value
    /\ fieldMatches matchType value token.

End MatchingSpec.

(** A term of the computed fragment of the pattern language. *)
Definition fragmentTerm (term : string) : Prop :=
  is_Some (RegExpFragment.compile (Str.chars term)).

(** The [resultCount] of an evaluation that returned. *)
Definition countOf (outcome : store * completion searchResult) : option nat :=
  match outcome.2 with
  | Normal r => Some (resultCount r)
  | Throw _ => None
  end.

(** The collection of the example of the specification, and a third
    record: the store holds the records and the caller's array. *)
Definition demoStore : store :=
  Store [titled "Buy milk"; titled "Fix bug"; titled "bug"] [[0; 1; 2]].

(** ** The search history *)

Module History.

(** [addToSearchHistory], called when every earlier update has been
    rendered, so that the [searchHistory] it tests is the [prev] it
    updates. *)
Definition addToSearchHistory (debouncedSearchTerm : string)
    (searchHistory : list string) : list string :=
  if Str.truthy debouncedSearchTerm
     && negb (existsb (String.eqb debouncedSearchTerm) searchHistory)
  then debouncedSearchTerm :: take 9 searchHistory
  else searchHistory.

Definition clearHistory (searchHistory : list string) : list string := [].

Inductive op :=
  | Add (debouncedSearchTerm : string)
  | Clear.

Definition apply (searchHistory : list string) (o : op) : list string :=
  match o with
  | Add term => addToSearchHistory term searchHistory
  | Clear => clearHistory searchHistory
  end.

Definition run (ops : list op) : list string := fold_left apply ops [].

(** The same run with every entry stamped with the index of the operation
    that inserted it; the stamps are not read by the operations. *)
Definition applyStamped (h : list (nat * string)) (now : nat) (o : op)
  : list (nat * string) :=
  match o with
  | Add term =>
      if Str.truthy term && negb (existsb (String.eqb term) (map snd h))
      then (now, term) :: take 9 h
      else h
  | Clear => []
  end.

Fixpoint runStampedFrom (now : nat) (ops : list op) (h : list (nat * string))
  : list (nat * string) :=
  match ops with
  | [] => h
  | o :: ops' => runStampedFrom (S now) ops' (applyStamped h now o)
  end.

Definition runStamped (ops : list op) : list (nat * string) :=
  runStampedFrom 0 ops [].

(** What every operation preserves: at most ten entries, none empty, no
    entry twice, stamps of past operations in decreasing order. *)
Definition historyInv (now : nat) (h : list (nat * string)) : Prop :=
  length h <= 10
  /\ Forall (fun e => Str.truthy (snd e) = true) h
  /\ NoDup (map snd h)
  /\ Forall (fun e => fst e < now) h
  /\ StronglySorted gt (map fst h).

End History.

(** ** Highlighting: [highlightSearchTerm] *)

Module Highlight.

(** The characters of [s] from the position [n] on. *)
Definition suffix (s : string) (n : nat) : string :=
  Str.of_chars (drop n (Str.chars s)).

(** [s.substring(start, finish)]: both positions are clamped to the
    length and taken in increasing order. *)
Definition substring (s : string) (start finish : nat) : string :=
  let a := Nat.min start (String.length s) in
  let b := Nat.min finish (String.length s) in
  Str.of_chars
    (take (Nat.max a b - Nat.min a b) (drop (Nat.min a b) (Str.chars s))).

(** The first position, counted from [pos], at which [t] starts in [s]. *)
Fixpoint indexFrom (s t : string) (pos : nat) : option nat :=
  if Str.startsWith s t then Some pos
  else match s with
       | EmptyString => None
       | String _ s' => indexFrom s' t (S pos)
       end.

(** [s.indexOf(t, position)]; [None] is [-1]. *)
Definition indexOf (s t : string) (position : nat) : option nat :=
  let p := Nat.min position (String.length s) in
  indexFrom (suffix s p) t p.

(** A part of the result: a string, or [{ text, highlighted: true }]. *)
Inductive part :=
  | Plain (text : string)
  | Highlighted (text : string).

Definition partText (p : part) : string :=
  match p with Plain t => t | Highlighted t => t end.

(** The [while (index !== -1)] loop, from the values of [parts],
    [lastIndex] and [index] before an iteration; [None] when the fuel does
    not reach the exit. *)
Fixpoint highlightLoop (fuel : nat) (text lowerText lowerTerm : string)
    (parts : list part) (lastIndex : nat) (index : option nat)
  : option (list part * nat) :=
  match index with
  | None => Some (parts, lastIndex)
  | Some index =>
      match fuel with
      | 0 => None
      | S fuel' =>
          let parts1 :=
            if lastIndex <? index
            then (parts ++ [Plain (substring text lastIndex index)])%list
            else parts in
          let parts2 :=
            (parts1
             ++ [Highlighted
                   (substring text index (index + String.length lowerTerm))]
            )%list in
          let lastIndex' := index + String.length lowerTerm in
          highlightLoop fuel' text lowerText lowerTerm parts2 lastIndex'
            (indexOf lowerText lowerTerm lastIndex')
      end
  end.

(** Each iteration moves [lastIndex] forward in [lowerText], so that one
    more iteration than [lowerText] has characters is enough fuel. *)
Definition highlightSearchTerm (text term : string) : option (list part) :=
  if negb (Str.truthy text) || negb (Str.truthy term) then Some [Plain text]
  else
    let lowerText := Str.toLowerCase text in
    let lowerTerm := Str.toLowerCase term in
    match highlightLoop (S (String.length lowerText)) text lowerText lowerTerm
            [] 0 (indexOf lowerText lowerTerm 0) with
    | Some (parts, lastIndex) =>
        Some (if lastIndex <? String.length text
              then (parts
                    ++ [Plain (substring text lastIndex (String.length text))]
                   )%list
              else parts)
    | None => None
    end.

(** The texts of the parts, put together. *)
Definition joined (parts : list part) : string :=
  String.concat EmptyString (map partText parts).

End Highlight.

(** What a part of a highlighting is: a plain part is not empty, and a
    highlighted one is the term up to case. *)
Definition goodPart (term : string) (p : Highlight.part) : Prop :=
  match p with
  | Highlight.Plain t => Str.truthy t = true
  | Highlight.Highlighted t => exactMatch t term = true
  end.

(** ** Vocabulary of the pipeline properties *)

(** The engine's sort rearranges: an order that it returns holds the
    elements of the array, each as many times as the array does. *)
Definition sortPermutes (host : Host) : Prop :=
  forall cmp elems sorted,
    sortOrder host cmp elems = Normal sorted -> Permutation sorted elems.

(** The sorting stage sorts nothing: the order is not [recent], and not
    [name] with [title] among the search fields. *)
Definition keepsOrder (sortBy : string) (fields : list string) : bool :=
  negb (String.eqb sortBy "name" && existsb (String.eqb "title") fields)
  && negb (String.eqb sortBy "recent").

(** What a result [x] of an evaluation is to the record [orig] of the
    collection: with ranking, a record that holds the properties of the
    original and its score; without, the original itself. *)
Definition resultOf (host : Host) (rankResults : bool) (s s' : store)
    (term : string) (fields : list string) (orig x : nat) : Prop :=
  if rankResults
  then exists score,
         scoreSearchResult host (recordAt s orig) term fields = Normal score
         /\ recordAt s' x = <["_searchScore" := VNum score]> (recordAt s orig)
  else x = orig.

(** Every token of the term matches the record at [orig], by the field
    matcher of the specification. *)
Definition keptBy (s : store) (term : string) (fields : list string)
    (matchType : string) (orig : nat) : Prop :=
  forall token, In token (Tokenizer.parseSearchQuery term) ->
                Spec.recordMatches (recordAt s orig) fields matchType token.

(** The record at [orig] passes every secondary filter. *)
Definition passesAll (host : Host) (s : store) (filters : list filter)
    (orig : nat) : Prop :=
  forallb (passesFilter host (recordAt s orig)) filters = true.

(** The searchable string values of the records of the collection are
    made of basic Latin characters. *)
Definition basicLatinFields (s : store) (data : nat) (fields : list string)
  : Prop :=
  forall item field value,
    In item (arrayAt s data) -> In field fields ->
    nonEmptyString (get (recordAt s item) field) = Some value ->
    basicLatin value = true.

(** A computation that leaves the store as it is. *)
Definition readonly {A} (m : M A) : Prop := forall s, (m s).1 = s.

(** Every element of the array is the location of a record of the store. *)
Definition wellFormed (s : store) (a : nat) : Prop :=
  Forall (fun item => item < length (records s)) (arrayAt s a).

(** [x] does not come after [y] in a ranking: its score is not smaller. *)
Definition ranksBefore (s : store) (x y : nat) : Prop :=
  (searchScore (recordAt s y) <= searchScore (recordAt s x))%Z.

(** The record at [copy] is the record at [orig] with its score for the
    term added, and it was allocated after the store [s]. *)
Definition scoredCopyOf (host : Host) (s s' : store) (term : string)
    (fields : list string) (candidates : list nat) (copy : nat) : Prop :=
  length (records s) <= copy
  /\ exists orig score,
       In orig candidates
       /\ scoreSearchResult host (recordAt s orig) term fields = Normal score
       /\ recordAt s' copy
          = <["_searchScore" := VNum score]> (recordAt s orig).

(** ** Vocabulary of the further properties *)

(** A word of a query: not empty, without space and without quote. *)
Definition plainWord (w : string) : Prop :=
  Str.truthy w = true
  /\ ~ In Tokenizer.space (Str.chars w)
  /\ ~ In Tokenizer.quote (Str.chars w).

(** The string without its spaces. *)
Definition withoutSpaces (s : string) : string :=
  Str.of_chars
    (List.filter (fun c => negb (Ascii.eqb c Tokenizer.space)) (Str.chars s)).

(** [multiFieldSearch] returns a match object. *)
Definition findsMatch (host : Host) (item : record) (term : string)
    (fields : list string) (matchType : string) : Prop :=
  exists info,
    multiFieldSearch host item term fields matchType = Normal (Some info).

(** ** Filter management and suggestions of [useElasticSearch] *)

(** [setAppliedFilters((prev) => [...prev, filter])] *)
Definition addFilter (f : filter) (prev : list filter) : list filter :=
  (prev ++ [f])%list.

(** [prev.filter((_, i) => i !== filterIndex)], from the index [i]. *)
Fixpoint dropIndex {A} (filterIndex i : nat) (prev : list A) : list A :=
  match prev with
  | [] => []
  | x :: rest =>
      if negb (i =? filterIndex) then x :: dropIndex filterIndex (S i) rest
      else dropIndex filterIndex (S i) rest
  end.

Definition removeFilter (filterIndex : nat) (prev : list filter)
  : list filter :=
  dropIndex filterIndex 0 prev.

Definition clearFilters (prev : list filter) : list filter := [].

(** [uniqueMatches.add(v)]: a set keeps its elements in insertion order. *)
Definition setAdd (v : string) (uniqueMatches : list string) : list string :=
  if existsb (String.eqb v) uniqueMatches then uniqueMatches
  else (uniqueMatches ++ [v])%list.

Definition maxSuggestions : nat := 5.

(** [for (const item of data)], with its [break]. *)
Fixpoint suggestItems (searchTerm field : string) (data : list record)
    (uniqueMatches : list string) : list string :=
  match data with
  | [] => uniqueMatches
  | item :: rest =>
      if maxSuggestions <=? length uniqueMatches then uniqueMatches
      else
        suggestItems searchTerm field rest
          (match nonEmptyString (get item field) with
           | Some fieldValue =>
               if Str.includes (Str.toLowerCase fieldValue)
                               (Str.toLowerCase searchTerm)
               then setAdd fieldValue uniqueMatches
               else uniqueMatches
           | None => uniqueMatches
           end)
  end.

(** [for (const field of searchFields)], with its [break]. *)
Fixpoint suggestFields (searchTerm : string) (data : list record)
    (searchFields : list string) (uniqueMatches : list string)
  : list string :=
  match searchFields with
  | [] => uniqueMatches
  | field :: rest =>
      let uniqueMatches' := suggestItems searchTerm field data uniqueMatches in
      if maxSuggestions <=? length uniqueMatches' then uniqueMatches'
      else suggestFields searchTerm data rest uniqueMatches'
  end.

(** The [useMemo] of the suggestions; [data] is read, record by record. *)
Definition suggestions (s : store) (searchTerm : string) (data : nat)
    (searchFields : list string) : list string :=
  if negb (Str.truthy searchTerm) || (String.length searchTerm <? 2) then []
  else take maxSuggestions
         (suggestFields searchTerm (map (recordAt s) (arrayAt s data))
            searchFields []).

(** A value of a searchable field of a record of the collection that
    contains the term. *)
Definition suggestible (s : store) (searchTerm : string) (data : nat)
    (searchFields : list string) (v : string) : Prop :=
  exists item field,
    In item (arrayAt s data) /\ In field searchFields
    /\ nonEmptyString (get (recordAt s item) field) = Some v
    /\ substringMatch v searchTerm = true.

(** What the loops keep about the set, for the values [good] that a loop
    may add. *)
Definition grows (good : string -> Prop) (set result : list string) : Prop :=
  (forall x, In x set -> In x result)
  /\ (forall x, In x result -> In x set \/ good x)
  /\ (NoDup set -> NoDup result)
  /\ (length set <= maxSuggestions -> length result <= maxSuggestions)
  /\ length set <= length result.

(** A value of [field] in a record of [data] that contains the term. *)
Definition fieldValue (searchTerm field : string) (data : list record)
    (v : string) : Prop :=
  exists item, In item data
               /\ nonEmptyString (get item field) = Some v
               /\ substringMatch v searchTerm = true.

(** * Properties *)

(** ** Tokenizer *)

Section TokenizerFacts.
Import Tokenizer.

Lemma truthy_length (s : string) :
  Str.truthy s = (0 <? String.length s).
Proof. destruct s; reflexivity. Qed.

Lemma filter_truthy_id (l : list string) :
  Forall (fun t => Str.truthy t = true) l ->
  List.filter (fun token => 0 <? String.length token) l = l.
Proof.
  induction 1 as [|t l Ht _ IH]; simpl; [reflexivity|].
  rewrite <- truthy_length, Ht. now f_equal.
Qed.

Lemma flush_truthy (acc : string) :
  Forall (fun t => Str.truthy t = true) (flush acc).
Proof.
  unfold flush. destruct (Str.truthy acc) eqn:E; repeat constructor; exact E.
Qed.

Lemma finish_flush (st : scan) :
  Forall (fun t => Str.truthy t = true) (tokens st) ->
  finish st = (tokens st ++ flush (current st))%list.
Proof.
  intros Hall. unfold finish, flush.
  destruct (Str.truthy (current st)) eqn:E.
  - apply filter_truthy_id. apply Forall_app. split; [exact Hall|].
    repeat constructor; exact E.
  - rewrite app_nil_r. now apply filter_truthy_id.
Qed.

(** The loop with its pushes onto [tokens] emits what the scan of the
    specification emits, after the tokens already pushed. *)
Lemma loop_spec_scan (l : list ascii) : forall st,
  Forall (fun t => Str.truthy t = true) (tokens st) ->
  finish (fold_left step l st)
  = (tokens st ++ spec_scan (inQuotes st) (current st) l)%list.
Proof.
  induction l as [|c l IH]; intros st Hall; simpl.
  - now apply finish_flush.
  - unfold step at 2.
    destruct (Ascii.eqb c quote); [now rewrite IH|].
    destruct (Ascii.eqb c space && negb (inQuotes st)).
    + unfold flush. destruct (Str.truthy (current st)) eqn:E.
      * rewrite IH; simpl; [now rewrite <- app_assoc|].
        apply Forall_app. split; [exact Hall|]. repeat constructor; exact E.
      * rewrite IH by exact Hall. destruct st as [tk [|] inq]; [reflexivity|].
        discriminate E.
    + now rewrite IH.
Qed.

Lemma spec_scan_truthy (l : list ascii) : forall inside acc,
  Forall (fun t => Str.truthy t = true) (spec_scan inside acc l).
Proof.
  induction l as [|c l IH]; intros inside acc; simpl.
  - apply flush_truthy.
  - destruct (Ascii.eqb c quote); [apply IH|].
    destruct (Ascii.eqb c space && negb inside); [|apply IH].
    apply Forall_app. split; [apply flush_truthy | apply IH].
Qed.

Lemma chars_append (a b : string) :
  Str.chars (a ++ b) = (Str.chars a ++ Str.chars b)%list.
Proof. induction a as [|c a IH]; simpl; [reflexivity|]. now rewrite <- IH. Qed.

Lemma spec_scan_quote_free (l : list ascii) : forall inside acc,
  quote_free acc ->
  Forall quote_free (spec_scan inside acc l).
Proof.
  induction l as [|c l IH]; intros inside acc Hacc; simpl.
  - unfold flush. destruct (Str.truthy acc); repeat constructor; exact Hacc.
  - destruct (Ascii.eqb_spec c quote) as [->|Hc]; [now apply IH|].
    destruct (Ascii.eqb c space && negb inside).
    + apply Forall_app. split.
      * unfold flush. destruct (Str.truthy acc); repeat constructor; exact Hacc.
      * apply IH. intros [].
    + apply IH. unfold quote_free. rewrite chars_append. simpl.
      intros Hin. apply in_app_or in Hin as [Hin|[Hin|[]]]; [now apply Hacc|].
      now apply Hc.
Qed.

Lemma parseSearchQuery_spec (query : string) :
  parseSearchQuery query = spec_parseQuery query.
Proof.
  unfold parseSearchQuery, spec_parseQuery.
  rewrite loop_spec_scan; [reflexivity | constructor].
Qed.

(** C3. The tokenizer is the left-to-right scan of the specification: a
    double quote flips the inside-quotes flag and is never emitted, a space
    outside quotes closes the current token when it is not empty, any other
    character is appended, the last accumulator is flushed, and no token of
    the output is empty; the three examples evaluate as stated. *)
Theorem C3_tokenizer_algorithm :
  (forall query : string,
      parseSearchQuery query = spec_parseQuery query
      /\ Forall (fun token => token <> EmptyString /\ quote_free token)
                (parseSearchQuery query))
  /\ parseSearchQuery
       ("urgent " ++ String quote "fix bug" ++ String quote " now")
     = ["urgent"; "fix bug"; "now"]
  /\ parseSearchQuery EmptyString = []
  /\ parseSearchQuery "  a  " = ["a"].
Proof.
  split; [|repeat split; reflexivity].
  intros query. split; [apply parseSearchQuery_spec|].
  rewrite parseSearchQuery_spec. unfold spec_parseQuery.
  pose proof (spec_scan_truthy (Str.chars query) false EmptyString) as Ht.
  pose proof (spec_scan_quote_free (Str.chars query) false EmptyString) as Hq.
  specialize (Hq (fun H => H)).
  rewrite Forall_forall in *. intros t Hin. split; [|now apply Hq].
  intros ->. specialize (Ht _ Hin). discriminate.
Qed.

End TokenizerFacts.

(** ** Scorer *)

Section ScorerFacts.
Variable host : Host.

Lemma scoreStep_award (item : record) (term : string) (score : Z)
    (field : string) :
  scoreStep host item term (Str.toLowerCase term) score field
  = (award ← fieldAward host item term field; Normal (score + award)%Z).
Proof.
  unfold scoreStep, fieldAward, valueAward.
  destruct (nonEmptyString (get item field)) as [value|]; simpl.
  2: { now rewrite Z.add_0_r. }
  destruct (String.eqb _ _); [reflexivity|].
  destruct (Str.startsWith _ _); [reflexivity|].
  destruct (Str.includes _ _); [reflexivity|].
  destruct (wordMatch host value term) as [[|]|e]; simpl;
    [reflexivity | now rewrite Z.add_0_r | reflexivity].
Qed.

(** The running score of the loop is the sum of the awards so far. *)
Lemma scoreLoop_sum (item : record) (term : string) (fields : list string) :
  forall score,
  scoreLoop host item term (Str.toLowerCase term) score fields
  = (awards ← mapM (fieldAward host item term) fields;
     Normal (score + sumZ awards)%Z).
Proof.
  induction fields as [|field fields IH]; intros score; simpl.
  - now rewrite Z.add_0_r.
  - rewrite scoreStep_award.
    destruct (fieldAward host item term field) as [award|e]; simpl;
      [|reflexivity].
    rewrite IH.
    destruct (mapM (fieldAward host item term) fields) as [awards|e]; simpl;
      [|reflexivity].
    now rewrite Z.add_assoc.
Qed.

(** On a term of the computed fragment the word test returns. *)
Lemma wordMatch_fragment (atoms : list RegExpFragment.atom)
    (text term : string) :
  RegExpFragment.compile (Str.chars term) = Some atoms ->
  wordMatch host text term = Normal (RegExpFragment.test atoms text).
Proof. intros H. unfold wordMatch. now rewrite H. Qed.

End ScorerFacts.

(** C5, as the code has it: an exact title scores 100, a title that
    starts with the query 75, and a title that contains the query as a
    word in its middle 50, the contains tier coming before the whole-word
    tier. *)
Theorem C5_scorer_values (host : Host) :
  scoreSearchResult host (titled "task") "task" ["title"] = Normal 100%Z
  /\ scoreSearchResult host (titled "tasked") "task" ["title"] = Normal 75%Z
  /\ scoreSearchResult host (titled "my task today") "task" ["title"]
     = Normal 50%Z.
Proof. repeat split; reflexivity. Qed.

(** The third value of C5 is not 25. *)
Lemma C5_counterexample :
  ~ (forall host : Host,
       scoreSearchResult host (titled "task") "task" ["title"] = Normal 100%Z
       /\ scoreSearchResult host (titled "tasked") "task" ["title"]
          = Normal 75%Z
       /\ scoreSearchResult host (titled "my task today") "task" ["title"]
          = Normal 25%Z).
Proof.
  intros H. destruct (H plainHost) as (_ & _ & H3).
  vm_compute in H3. discriminate H3.
Qed.

(** ** Strings and the computed fragment of the pattern language *)

Section StringFacts.

Lemma length_chars (s : string) : length (Str.chars s) = String.length s.
Proof. induction s; simpl; congruence. Qed.

Lemma chars_toLowerCase (s : string) :
  Str.chars (Str.toLowerCase s) = map Str.lowerChar (Str.chars s).
Proof. induction s; simpl; congruence. Qed.

Lemma startsWith_sublist (a b : string) :
  Str.startsWith a b = true -> sublist (Str.chars b) (Str.chars a).
Proof.
  revert a. induction b as [|y b IH]; intros a H; simpl.
  - apply sublist_nil_l.
  - destruct a as [|x a]; simpl in H; [discriminate|].
    apply andb_prop in H as [Hxy H].
    apply Ascii.eqb_eq in Hxy as ->. simpl. apply sublist_skip. now apply IH.
Qed.

Lemma includes_sublist (a b : string) :
  Str.includes a b = true -> sublist (Str.chars b) (Str.chars a).
Proof.
  induction a as [|x a IH]; simpl; intros H.
  - rewrite orb_false_r in H. now apply (startsWith_sublist EmptyString).
  - apply orb_prop in H as [H|H].
    + now apply (startsWith_sublist (String x a)).
    + apply sublist_cons. now apply IH.
Qed.

Lemma compile_plain (term : list ascii) :
  Forall (fun c => RegExpFragment.isSyntaxChar c = false) term ->
  RegExpFragment.compile term = Some (map RegExpFragment.Lit term).
Proof.
  induction 1 as [|c term Hc _ IH]; simpl; [reflexivity|].
  rewrite IH. unfold RegExpFragment.atom_of. rewrite Hc.
  destruct (Ascii.eqb_spec c "."%char) as [->|_]; [discriminate Hc|reflexivity].
Qed.

(** A sequence of literals matches at a position only where the lower-cased
    text continues with the lower-cased term. *)
Lemma matchHere_startsWith (term : list ascii) :
  forall (text : string) before,
  RegExpFragment.matchHere (map RegExpFragment.Lit term) before
    (Str.chars text) = true ->
  Str.startsWith (Str.toLowerCase text)
    (Str.toLowerCase (Str.of_chars term)) = true.
Proof.
  induction term as [|d term IH]; intros text before H; simpl in *.
  - reflexivity.
  - destruct text as [|c text]; simpl in *; [discriminate|].
    apply andb_prop in H as [Hc H]. rewrite Hc. simpl. now apply (IH _ (Some c)).
Qed.

Lemma search_includes (term : list ascii) :
  forall (text : string) before,
  RegExpFragment.search (map RegExpFragment.Lit term) before
    (Str.chars text) = true ->
  Str.includes (Str.toLowerCase text)
    (Str.toLowerCase (Str.of_chars term)) = true.
Proof.
  induction text as [|c text IH]; intros before H; simpl in H.
  - rewrite orb_false_r in H. apply andb_prop in H as [_ H].
    apply (matchHere_startsWith term EmptyString) in H.
    simpl in *. now rewrite H.
  - apply orb_prop in H as [H|H].
    + apply andb_prop in H as [_ H].
      apply (matchHere_startsWith term (String c text)) in H.
      simpl in *. now rewrite H.
    + apply IH in H. simpl. rewrite H. apply orb_true_r.
Qed.

Lemma of_chars_chars (s : string) : Str.of_chars (Str.chars s) = s.
Proof. apply string_of_list_ascii_of_string. Qed.

End StringFacts.

(** ** Fuzzy matching *)

Section FuzzyFacts.
Variable host : Host.

(** On a plain term a whole-word match is a containment, so the word
    branch of [fuzzyMatch] is never the one that returns. *)
Lemma wordMatch_plain_includes (text term : string) :
  plainTerm term ->
  exists b, wordMatch host text term = Normal b
            /\ (b = true ->
                Str.includes (Str.toLowerCase text) (Str.toLowerCase term)
                = true).
Proof.
  intros Hp. unfold wordMatch. rewrite (compile_plain _ Hp).
  eexists. split; [reflexivity|]. intros H.
  apply search_includes in H. now rewrite of_chars_chars in H.
Qed.

(** The greedy scan consumes, in order, characters of the term that occur
    in the text. *)
Lemma fuzzyLoop_sublist (lowerTerm : list ascii) (lowerText : list ascii) :
  forall matches termIndex,
  termIndex <= length lowerTerm ->
  let '(_, termIndex') := fuzzyLoop lowerText lowerTerm matches termIndex in
  termIndex <= termIndex' <= length lowerTerm
  /\ sublist (drop termIndex (take termIndex' lowerTerm)) lowerText.
Proof.
  induction lowerText as [|c rest IH]; intros matches i Hi; simpl.
  - split; [lia|]. rewrite drop_ge; [constructor|]. rewrite length_take. lia.
  - destruct (Nat.ltb_spec i (length lowerTerm)) as [Hlt|Hge].
    + destruct (bool_decide_reflect (lowerTerm !! i = Some c)) as [Hc|Hc].
      * specialize (IH (S matches) (S i) Hlt).
        destruct (fuzzyLoop rest lowerTerm (S matches) (S i)) as [m' i'].
        destruct IH as [Hle IH]. split; [lia|].
        rewrite (drop_S _ c i).
        -- now apply sublist_skip.
        -- rewrite lookup_take_lt by lia. exact Hc.
      * specialize (IH matches i Hi).
        destruct (fuzzyLoop rest lowerTerm matches i) as [m' i'].
        destruct IH as [Hle IH]. split; [lia|]. now apply sublist_cons.
    + split; [lia|]. rewrite drop_ge; [apply sublist_nil_l|].
      rewrite length_take. lia.
Qed.

End FuzzyFacts.

(** C4, on the code: with the term [.] and the text [a] the score is 0.8,
    because the term is used as a pattern and its dot matches the word [a],
    while the character [.] does not occur in the text. *)
Theorem C4_fuzzy_pattern_term (host : Host) :
  fuzzyMatch host "a" "." = Normal (8 # 10)%Q
  /\ (0 < 8 # 10)%Q
  /\ ~ spec_subsequence "." "a".
Proof.
  split; [reflexivity|]. split; [reflexivity|].
  unfold spec_subsequence. simpl. intros H.
  inversion H as [| |x l1 l2 H']; subst. inversion H'.
Qed.

(** ** The table of match functions *)

Section TableFacts.
Variable host : Host.

Lemma existsb_eqb_false (name : string) (names : list string) :
  ~ In name names -> existsb (String.eqb name) names = false.
Proof.
  induction names as [|n names IH]; simpl; intros H; [reflexivity|].
  destruct (String.eqb_spec name n) as [->|_]; [exfalso; auto|].
  apply IH. auto.
Qed.

Lemma assoc_none {A} (table : list (string * A)) (key : string) :
  ~ In key (map fst table) -> assoc table key = None.
Proof.
  induction table as [|[k v] table IH]; simpl; intros H; [reflexivity|].
  destruct (String.eqb_spec k key) as [->|_]; [exfalso; auto|].
  apply IH. auto.
Qed.

Lemma matchFunction_unknown (matchType : string) :
  ~ In matchType strategyNames ->
  ~ In matchType objectPrototypeNames ->
  matchFunction matchType = Own FSubstring.
Proof.
  intros Hs Ho. unfold matchFunction, tableLookup.
  rewrite (existsb_eqb_false _ _ Ho), assoc_none; [reflexivity|exact Hs].
Qed.

(** A name that is neither a strategy nor a member of [Object.prototype]
    selects the substring strategy. *)
Lemma multiFieldSearch_unknown (item : record) (term : string)
    (fields : list string) (matchType : string) :
  ~ In matchType strategyNames ->
  ~ In matchType objectPrototypeNames ->
  multiFieldSearch host item term fields matchType
  = multiFieldSearch host item term fields "substring".
Proof.
  intros Hs Ho. unfold multiFieldSearch.
  destruct (negb (Str.truthy term) || (length fields =? 0)); [reflexivity|].
  assert (Hf : String.eqb matchType "fuzzy" = false).
  { destruct (String.eqb_spec matchType "fuzzy") as [->|_]; [|reflexivity].
    exfalso. apply Hs. unfold strategyNames. simpl. tauto. }
  induction fields as [|field fields IH]; simpl; [reflexivity|].
  rewrite Hf, (matchFunction_unknown _ Hs Ho), IH. reflexivity.
Qed.

End TableFacts.

(** C7, on the code: the name [toString] is none of the five strategies,
    yet with it a record matches a term that none of its fields contains,
    where [substring] rejects it; with the name [valueOf] the call throws. *)
Theorem C7_inherited_member (host : Host) :
  ~ In "toString" strategyNames
  /\ multiFieldSearch host (titled "abc") "zzz" ["title"] "toString"
     = Normal (Some (MatchInfo "title" None))
  /\ multiFieldSearch host (titled "abc") "zzz" ["title"] "substring"
     = Normal None
  /\ multiFieldSearch host (titled "abc") "zzz" ["title"] "valueOf"
     = Throw TypeError.
Proof.
  split; [|repeat split; reflexivity].
  unfold strategyNames. simpl. intros H.
  repeat destruct H as [H|H]; try discriminate H. exact H.
Qed.

(** ** Search history *)

Section HistoryFacts.
Import History.

Lemma map_snd_applyStamped (h : list (nat * string)) (now : nat) (o : op) :
  map snd (applyStamped h now o) = apply (map snd h) o.
Proof.
  destruct o as [term|]; simpl; [|reflexivity].
  unfold addToSearchHistory.
  destruct (Str.truthy term && _); simpl; [|reflexivity].
  f_equal. clear. generalize 9. induction h as [|e h IH]; intros [|n];
    simpl; try reflexivity. now rewrite IH.
Qed.

(** Erasing the stamps gives the history of the code. *)
Lemma runStampedFrom_erase (ops : list op) : forall now h,
  map snd (runStampedFrom now ops h) = fold_left apply ops (map snd h).
Proof.
  induction ops as [|o ops IH]; intros now h; simpl; [reflexivity|].
  now rewrite IH, map_snd_applyStamped.
Qed.

Lemma existsb_eqb_In (term : string) (l : list string) :
  existsb (String.eqb term) l = true <-> In term l.
Proof.
  rewrite existsb_exists. split.
  - intros [x [Hin Heq]]. apply String.eqb_eq in Heq. now subst.
  - intros Hin. exists term. split; [exact Hin | apply String.eqb_refl].
Qed.

Lemma In_take {A} (x : A) (n : nat) (l : list A) :
  In x (take n l) -> In x l.
Proof.
  rewrite <- !list_elem_of_In. intros H. eapply subseteq_take; exact H.
Qed.

Lemma StronglySorted_take {A} (R : A -> A -> Prop) (l : list A) (n : nat) :
  StronglySorted R l -> StronglySorted R (take n l).
Proof.
  intros H. revert n. induction H as [|x l Hs IH Hx]; intros [|n]; simpl;
    try constructor; [apply IH|].
  rewrite List.Forall_forall in *. intros y Hy. apply Hx.
  now apply In_take in Hy.
Qed.

Lemma historyInv_step (now : nat) (h : list (nat * string)) (o : op) :
  historyInv now h -> historyInv (S now) (applyStamped h now o).
Proof.
  intros (Hlen & Hne & Hnd & Hlt & Hs).
  assert (Hweak : Forall (fun e => fst e < S now) h).
  { eapply Forall_impl; [exact Hlt|]. simpl. intros; lia. }
  destruct o as [term|]; simpl.
  2: { repeat split; simpl; try constructor; lia. }
  destruct (Str.truthy term) eqn:Ht; simpl.
  2: { repeat split; assumption. }
  destruct (existsb (String.eqb term) (map snd h)) eqn:Hex; simpl.
  { repeat split; assumption. }
  assert (Hnotin : ~ In term (map snd h)).
  { intros Hin. apply existsb_eqb_In in Hin. congruence. }
  repeat split; simpl.
  - rewrite length_take. lia.
  - constructor; [exact Ht|]. rewrite List.Forall_forall in *.
    intros e He. apply Hne. now apply In_take in He.
  - constructor.
    + rewrite list_elem_of_In, in_map_iff. intros [e [He Hin]].
      apply Hnotin. apply in_map_iff. exists e. split; [exact He|].
      now apply In_take in Hin.
    + rewrite <- firstn_map. rewrite <- (take_drop 9 (map snd h)) in Hnd.
      now apply NoDup_app in Hnd as [Hnd _].
  - constructor; [simpl; lia|]. rewrite List.Forall_forall in *.
    intros e He. apply Hweak. now apply In_take in He.
  - constructor.
    + rewrite <- firstn_map. now apply StronglySorted_take.
    + rewrite List.Forall_forall in *. intros t Hin.
      apply in_map_iff in Hin as [e [<- Hin]]. apply In_take in Hin.
      specialize (Hlt e Hin). lia.
Qed.

Lemma historyInv_run (ops : list op) : forall now h,
  historyInv now h ->
  historyInv (now + length ops) (runStampedFrom now ops h).
Proof.
  induction ops as [|o ops IH]; intros now h Hinv; simpl.
  - now rewrite Nat.add_0_r.
  - replace (now + S (length ops)) with (S now + length ops) by lia.
    apply IH. now apply historyInv_step.
Qed.

(** C10. From the empty history, after any sequence of additions and
    clearings: at most ten entries, none of them empty, in decreasing
    order of the operation that inserted them (most recent first), and an
    addition of the empty term or of a term of the history changes
    nothing. *)
Theorem C10_history_invariant (ops : list op) :
  length (run ops) <= 10
  /\ Forall (fun entry => entry <> EmptyString) (run ops)
  /\ (map snd (runStamped ops) = run ops
      /\ StronglySorted gt (map fst (runStamped ops)))
  /\ addToSearchHistory EmptyString (run ops) = run ops
  /\ Forall (fun term => addToSearchHistory term (run ops) = run ops)
            (run ops).
Proof.
  assert (Herase : map snd (runStamped ops) = run ops).
  { unfold runStamped, run. now rewrite runStampedFrom_erase. }
  assert (Hinv : historyInv (0 + length ops) (runStamped ops)).
  { apply historyInv_run. repeat split; simpl; try constructor; lia. }
  destruct Hinv as (Hlen & Hne & _ & _ & Hs).
  rewrite <- Herase. repeat split.
  - now rewrite length_map.
  - rewrite List.Forall_forall in *. intros entry Hin ->.
    apply in_map_iff in Hin as [e [He Hin]]. specialize (Hne e Hin).
    rewrite He in Hne. discriminate.
  - exact Hs.
  - rewrite List.Forall_forall. intros term Hin. unfold addToSearchHistory.
    apply existsb_eqb_In in Hin. rewrite Hin. simpl.
    now rewrite andb_false_r.
Qed.

End HistoryFacts.

(** ** The store is only extended *)

Section Frame.
Variable host : Host.
Variable s0 : store.

Lemma extends_refl (s : store) : extends s s.
Proof. split; reflexivity. Qed.

Lemma preserves_ret {A} (a : A) (Q : A -> Prop) :
  Q a -> preserves s0 (mret a) Q.
Proof. intros HQ s Hs. simpl. split; [exact Hs|]. now intros a' [= <-]. Qed.

Lemma preserves_bind {A B} (m : M A) (k : A -> M B) (P : A -> Prop)
    (Q : B -> Prop) :
  preserves s0 m P ->
  (forall a, P a -> preserves s0 (k a) Q) ->
  preserves s0 (m ≫= k) Q.
Proof.
  intros Hm Hk s Hs. unfold mbind, M_bind.
  destruct (Hm s Hs) as [He Hp]. destruct (m s) as [s1 [a|e]]; simpl in *.
  - apply (Hk a (Hp a eq_refl) s1 He).
  - split; [exact He | discriminate].
Qed.

Lemma preserves_weaken {A} (m : M A) (P Q : A -> Prop) :
  preserves s0 m P -> (forall a, P a -> Q a) -> preserves s0 m Q.
Proof.
  intros Hm HPQ s Hs. destruct (Hm s Hs) as [He Hp]. split; [exact He|].
  intros a Ha. apply HPQ, Hp, Ha.
Qed.

Lemma preserves_lift {A} (c : completion A) :
  preserves s0 (lift c) (fun _ => True).
Proof. intros s Hs. simpl. auto. Qed.

Lemma preserves_readRecord (r : nat) :
  preserves s0 (readRecord r) (fun _ => True).
Proof. intros s Hs. simpl. auto. Qed.

Lemma preserves_readArray (a : nat) :
  preserves s0 (readArray a) (fun _ => True).
Proof. intros s Hs. simpl. auto. Qed.

Lemma preserves_allocRecord (props : record) :
  preserves s0 (allocRecord props) (fun _ => True).
Proof.
  intros s [Hr Ha]. simpl. split; [|auto]. split; simpl; [|exact Ha].
  now apply prefix_app_r.
Qed.

Lemma preserves_allocArray (elems : list nat) :
  preserves s0 (allocArray elems) (fresh s0).
Proof.
  intros s [Hr Ha]. simpl. split.
  - split; simpl; [exact Hr|]. now apply prefix_app_r.
  - intros a [= <-]. unfold fresh. now apply prefix_length.
Qed.

(** Overwriting an array allocated after [s0] leaves [s0] in place. *)
Lemma preserves_writeArray (a : nat) (elems : list nat) :
  fresh s0 a -> preserves s0 (writeArray a elems) (fun _ => True).
Proof.
  intros Hf s [Hr [k Hk]]. simpl. split; [|auto]. split; simpl; [exact Hr|].
  rewrite Hk. rewrite insert_app_r_alt by exact Hf. now apply prefix_app_r.
Qed.

Lemma preserves_filterM {A} (f : A -> M bool) (l : list A) :
  (forall x, preserves s0 (f x) (fun _ => True)) ->
  preserves s0 (filterM f l) (fun _ => True).
Proof.
  intros Hf. induction l as [|x l IH]; simpl.
  - now apply preserves_ret.
  - eapply preserves_bind; [apply Hf|]. intros b _.
    eapply preserves_bind; [apply IH|]. intros rest _.
    now apply preserves_ret.
Qed.

Lemma preserves_mapM {A B} (f : A -> M B) (l : list A) :
  (forall x, preserves s0 (f x) (fun _ => True)) ->
  preserves s0 (mapM f l) (fun _ => True).
Proof.
  intros Hf. induction l as [|x l IH]; simpl.
  - now apply preserves_ret.
  - eapply preserves_bind; [apply Hf|]. intros b _.
    eapply preserves_bind; [apply IH|]. intros rest _.
    now apply preserves_ret.
Qed.

Lemma preserves_insertM (cmp : nat -> nat -> M Z) (x : nat) (l : list nat) :
  (forall a b, preserves s0 (cmp a b) (fun _ => True)) ->
  preserves s0 (insertM cmp x l) (fun _ => True).
Proof.
  intros Hc. induction l as [|y l IH]; simpl.
  - now apply preserves_ret.
  - eapply preserves_bind; [apply Hc|]. intros c _.
    destruct (c <=? 0)%Z; [now apply preserves_ret|].
    eapply preserves_bind; [apply IH|]. intros rest _. now apply preserves_ret.
Qed.

Lemma preserves_sortM (cmp : nat -> nat -> M Z) (l : list nat) :
  (forall a b, preserves s0 (cmp a b) (fun _ => True)) ->
  preserves s0 (sortM cmp l) (fun _ => True).
Proof.
  intros Hc. induction l as [|x l IH]; simpl.
  - now apply preserves_ret.
  - eapply preserves_bind; [apply IH|]. intros sorted _.
    now apply preserves_insertM.
Qed.

Lemma preserves_arraySpread (a : nat) :
  preserves s0 (arraySpread a) (fresh s0).
Proof.
  eapply preserves_bind; [apply preserves_readArray|]. intros elems _.
  apply preserves_allocArray.
Qed.

Lemma preserves_arrayFilter (f : nat -> M bool) (a : nat) :
  (forall x, preserves s0 (f x) (fun _ => True)) ->
  preserves s0 (arrayFilter f a) (fresh s0).
Proof.
  intros Hf. eapply preserves_bind; [apply preserves_readArray|].
  intros elems _. eapply preserves_bind; [now apply preserves_filterM|].
  intros kept _. apply preserves_allocArray.
Qed.

Lemma preserves_arrayMap (f : nat -> M nat) (a : nat) :
  (forall x, preserves s0 (f x) (fun _ => True)) ->
  preserves s0 (arrayMap f a) (fresh s0).
Proof.
  intros Hf. eapply preserves_bind; [apply preserves_readArray|].
  intros elems _. eapply preserves_bind; [now apply preserves_mapM|].
  intros images _. apply preserves_allocArray.
Qed.

(** Sorting in place is harmless on an array allocated after [s0]. *)
Lemma preserves_arraySort (cmp : nat -> nat -> M Z) (a : nat) :
  (forall x y, preserves s0 (cmp x y) (fun _ => True)) ->
  fresh s0 a ->
  preserves s0 (arraySort cmp a) (fun _ => True).
Proof.
  intros Hc Hf. eapply preserves_bind; [apply preserves_readArray|].
  intros elems _. eapply preserves_bind; [now apply preserves_sortM|].
  intros sorted _. now apply preserves_writeArray.
Qed.

(** So is the engine's sort: it writes the array, or nothing. *)
Lemma preserves_engineSort (cmp : nat -> nat -> M Z) (a : nat) :
  fresh s0 a ->
  preserves s0 (engineSort host cmp a) (fun _ => True).
Proof.
  intros Hf s Hs. unfold engineSort.
  destruct (sortOrder host _ _) as [sorted|e]; [|split; [exact Hs|discriminate]].
  exact (preserves_writeArray a sorted Hf s Hs).
Qed.

Lemma preserves_arraySlice0 (k : Z) (a : nat) :
  preserves s0 (arraySlice0 k a) (fresh s0).
Proof.
  eapply preserves_bind; [apply preserves_readArray|]. intros elems _.
  apply preserves_allocArray.
Qed.

Ltac reads :=
  repeat first
    [ apply preserves_ret; exact I
    | apply preserves_lift
    | eapply preserves_bind;
      [first [apply preserves_readRecord | apply preserves_lift]|];
      intros ? _ ].

Lemma preserves_byScore (a b : nat) :
  preserves s0 (byScore a b) (fun _ => True).
Proof. unfold byScore. reads. Qed.

Lemma preserves_textStage (filtered : nat) (tokens fields : list string)
    (matchType : string) :
  preserves s0 (textStage host filtered tokens fields matchType) (fresh s0).
Proof. apply preserves_arrayFilter. intros x. reads. Qed.

Lemma preserves_scoreCopy (term : string) (fields : list string) (item : nat) :
  preserves s0 (scoreCopy host term fields item) (fun _ => True).
Proof. unfold scoreCopy. reads. apply preserves_allocRecord. Qed.

Lemma preserves_rankStage (filtered : nat) (term : string)
    (fields : list string) :
  preserves s0 (rankStage host filtered term fields) (fresh s0).
Proof.
  eapply preserves_bind.
  { apply preserves_arrayMap. intros x. apply preserves_scoreCopy. }
  intros filtered' Hf. eapply preserves_bind.
  { apply preserves_arraySort; [apply preserves_byScore | exact Hf]. }
  intros _ _. now apply preserves_ret.
Qed.

Lemma preserves_filterStage (filtered : nat) (filters : list filter) :
  preserves s0 (filterStage host filtered filters) (fresh s0).
Proof. apply preserves_arrayFilter. intros x. reads. Qed.

Lemma preserves_sortStage (filtered : nat) (sortBy : string)
    (fields : list string) :
  fresh s0 filtered ->
  preserves s0 (sortStage host filtered sortBy fields) (fun _ => True).
Proof.
  intros Hf. unfold sortStage.
  destruct (String.eqb sortBy "name" && _).
  { now apply preserves_engineSort. }
  destruct (String.eqb sortBy "recent").
  { now apply preserves_engineSort. }
  now apply preserves_ret.
Qed.

Lemma preserves_sortedMatches (data : nat) (term : string)
    (filters : list filter) (fields : list string) (matchType : string)
    (rankResults : bool) (sortBy : string) :
  preserves s0
    (sortedMatches host data term filters fields matchType rankResults sortBy)
    (fresh s0).
Proof.
  unfold sortedMatches.
  eapply preserves_bind; [apply preserves_arraySpread|]. intros a Ha.
  eapply preserves_bind with (P := fresh s0).
  { destruct (Str.truthy term && _); [|now apply preserves_ret].
    eapply preserves_bind; [apply preserves_textStage|]. intros b Hb.
    destruct rankResults; [apply preserves_rankStage|now apply preserves_ret]. }
  intros b Hb. eapply preserves_bind with (P := fresh s0).
  { destruct (0 <? length filters);
      [apply preserves_filterStage | now apply preserves_ret]. }
  intros c Hc. eapply preserves_bind; [now apply preserves_sortStage|].
  intros _ _. now apply preserves_ret.
Qed.

Lemma preserves_limitStage (filtered : nat) (maxResults : option Z) :
  preserves s0 (limitStage filtered maxResults) (fun _ => True).
Proof.
  destruct maxResults as [k|]; simpl; [|now apply preserves_ret].
  eapply preserves_bind; [apply preserves_readArray|]. intros elems _.
  destruct (negb (k =? 0)%Z && _); [|now apply preserves_ret].
  eapply preserves_weaken; [apply preserves_arraySlice0|]. auto.
Qed.

Lemma preserves_evaluate (startTime endTime : Q) (data : nat) (term : string)
    (filters : list filter) (fields : list string) (matchType : string)
    (rankResults : bool) (sortBy : string) (maxResults : option Z) :
  preserves s0
    (evaluate host startTime endTime data term filters fields matchType
       rankResults sortBy maxResults)
    (fun _ => True).
Proof.
  unfold evaluate. destruct (negb (Str.truthy term) && _).
  { reads. eapply preserves_bind; [apply preserves_readArray|].
    intros ? _. now apply preserves_ret. }
  eapply preserves_bind; [apply preserves_sortedMatches|]. intros a _.
  eapply preserves_bind; [apply preserves_limitStage|]. intros b _.
  eapply preserves_bind; [apply preserves_readArray|]. intros ? _.
  now apply preserves_ret.
Qed.

End Frame.

(** C9. Whatever its arguments, and whether it returns or throws, an
    evaluation ends in a store in which every record and every array of
    the initial store is where it was and as it was: no record of the
    caller is modified and the caller's collection is not reordered.  The
    [_searchScore] is written by [scoreCopy] alone, into a record that it
    allocates: the properties of the original, with the score added. *)
Theorem C9_no_mutation (host : Host) (startTime endTime : Q) (data : nat)
    (term : string) (filters : list filter) (fields : list string)
    (matchType : string) (rankResults : bool) (sortBy : string)
    (maxResults : option Z) (s : store) :
  extends s
    (evaluate host startTime endTime data term filters fields matchType
       rankResults sortBy maxResults s).1
  /\ forall (item : nat) (s1 : store),
       scoreCopy host term fields item s1
       = match scoreSearchResult host (recordAt s1 item) term fields with
         | Normal score =>
             (Store (records s1
                     ++ [<["_searchScore" := VNum score]> (recordAt s1 item)])
                    (arrays s1),
              Normal (length (records s1)))
         | Throw e => (s1, Throw e)
         end.
Proof.
  split.
  - apply (preserves_evaluate host s), extends_refl.
  - intros item s1. unfold scoreCopy, mbind, M_bind, readRecord, lift. simpl.
    now destruct (scoreSearchResult host (recordAt s1 item) term fields).
Qed.

(** C8. With an empty term and no filter the evaluation returns the
    caller's array itself, in an unchanged store: all the records, in their
    order; the count is the length of the collection, the time is 0 and
    [searched] is false. *)
Theorem C8_short_circuit (host : Host) (startTime endTime : Q) (data : nat)
    (fields : list string) (matchType : string) (rankResults : bool)
    (sortBy : string) (maxResults : option Z) (s : store) :
  evaluate host startTime endTime data EmptyString [] fields matchType
    rankResults sortBy maxResults s
  = (s, Normal {| results := data;
                  resultCount := length (arrayAt s data);
                  searchTime := 0%Q;
                  stats := {| searched := false; termsCount := 0;
                              tokensUsed := None |} |}).
Proof. reflexivity. Qed.

(** ** The result limit *)

Section LimitFacts.
Variable host : Host.

Lemma arrayAt_alloc (s : store) (elems : list nat) :
  arrayAt (Store (records s) (arrays s ++ [elems])) (length (arrays s))
  = elems.
Proof. unfold arrayAt. simpl. now rewrite list_lookup_middle. Qed.

Lemma slice0_take (k : Z) (elems : list nat) :
  (0 <= k)%Z -> slice0 k elems = take (Z.to_nat k) elems.
Proof.
  intros Hk. unfold slice0. destruct (Z.ltb_spec k 0); [lia | reflexivity].
Qed.

Lemma limitStage_Some (k : Z) (a : nat) (s : store) :
  (1 <= k)%Z ->
  limitStage a (Some k) s
  = if (k <? Z.of_nat (length (arrayAt s a)))%Z
    then (Store (records s) (arrays s ++ [take (Z.to_nat k) (arrayAt s a)]),
          Normal (length (arrays s)))
    else (s, Normal a).
Proof.
  intros Hk. unfold limitStage, mbind, M_bind, readArray.
  destruct (Z.eqb_spec k 0) as [|_]; [lia|]. simpl.
  destruct (k <? _)%Z; [|reflexivity].
  unfold arraySlice0, mbind, M_bind, readArray, allocArray.
  now rewrite slice0_take by lia.
Qed.

(** C6, as the code has it.  When the evaluation is not the short circuit
    (the term is not empty or there is a filter) and the limit is at least
    1, the limited evaluation returns exactly when the unlimited one does,
    and throws what it throws; it returns the first [k] results of the
    unlimited one, in the same order and over the same records, and its
    count is the minimum of [k] and the unlimited count.  This holds
    whatever the engine's sort does, the truncation coming after it.  In
    the short circuit the limit is not applied. *)
Theorem C6_limit_prefix (startTime endTime : Q) (data : nat) (term : string)
    (filters : list filter) (fields : list string) (matchType : string)
    (rankResults : bool) (sortBy : string) (k : Z) (s : store) :
  (1 <= k)%Z ->
  Str.truthy term = true \/ filters <> [] ->
  (forall s1 r1,
     evaluate host startTime endTime data term filters fields matchType
       rankResults sortBy None s = (s1, Normal r1) ->
     exists s2 r2,
       evaluate host startTime endTime data term filters fields matchType
         rankResults sortBy (Some k) s = (s2, Normal r2)
       /\ records s2 = records s1
       /\ arrayAt s2 (results r2) = take (Z.to_nat k) (arrayAt s1 (results r1))
       /\ resultCount r2 = Nat.min (Z.to_nat k) (resultCount r1)
       /\ resultCount r1 = length (arrayAt s1 (results r1))
       /\ resultCount r2 = length (arrayAt s2 (results r2)))
  /\ (forall s1 e,
        evaluate host startTime endTime data term filters fields matchType
          rankResults sortBy None s = (s1, Throw e) ->
        evaluate host startTime endTime data term filters fields matchType
          rankResults sortBy (Some k) s = (s1, Throw e))
  /\ (forall maxResults,
        evaluate host startTime endTime data EmptyString [] fields matchType
          rankResults sortBy maxResults s
        = evaluate host startTime endTime data EmptyString [] fields
            matchType rankResults sortBy None s).
Proof.
  intros Hk Hns.
  assert (Hcond : negb (Str.truthy term) && (length filters =? 0) = false).
  { destruct Hns as [->|Hf]; [reflexivity|].
    destruct filters; [congruence|]. apply andb_false_r. }
  split; [|split; [|reflexivity]].
  - intros s1 r1 Hev.
    unfold evaluate in *. rewrite Hcond in *. unfold mbind, M_bind in *.
    destruct (sortedMatches host data term filters fields matchType rankResults
                sortBy s) as [s' [a|e]]; [|discriminate Hev].
    simpl in Hev. injection Hev as <- <-.
    rewrite (limitStage_Some k a s' Hk).
    destruct (Z.ltb_spec k (Z.of_nat (length (arrayAt s' a)))) as [Hlt|Hge].
    + simpl. eexists _, _. split; [reflexivity|]. simpl.
      rewrite arrayAt_alloc.
      repeat split; try reflexivity. rewrite length_take. lia.
    + simpl. eexists _, _. split; [reflexivity|]. simpl.
      rewrite take_ge by lia. repeat split; try reflexivity. lia.
  - intros s1 e Hev.
    unfold evaluate in *. rewrite Hcond in *. unfold mbind, M_bind in *.
    destruct (sortedMatches host data term filters fields matchType rankResults
                sortBy s) as [s' [a|e']]; [discriminate Hev | exact Hev].
Qed.

End LimitFacts.

(** The limit 1 on the three records of the example that hold [bug]. *)
Lemma C6_limit_prefix_witness :
  exists s2 r2,
    evaluate plainHost 0 1 0 "bug" [] ["title"] "substring" true "relevance"
      (Some 1%Z) demoStore = (s2, Normal r2)
    /\ arrayAt s2 (results r2) = [4]
    /\ resultCount r2 = 1.
Proof.
  destruct (C6_limit_prefix plainHost 0 1 0 "bug" [] ["title"] "substring"
              true "relevance" 1 demoStore) as (Hret & _ & _).
  - lia.
  - left. reflexivity.
  - destruct (Hret (evaluate plainHost 0 1 0 "bug" [] ["title"] "substring"
                      true "relevance" None demoStore).1
                   (SearchResult 3 2 (1 - 0)
                      (Statistics true 1 (Some ["bug"]))))
      as (s2 & r2 & H1 & _ & H2 & H3 & _).
    + vm_compute. reflexivity.
    + exists s2, r2. split; [exact H1|]. split; [exact H2 | exact H3].
Defined.

(** C6 fails in the short circuit, where three records are returned under
    the limit 1, and for the limit 0, which is not applied. *)
Lemma C6_counterexample :
  (countOf (evaluate plainHost 0 1 0 EmptyString [] ["title"] "substring" true
              "relevance" None demoStore) = Some 3
   /\ countOf (evaluate plainHost 0 1 0 EmptyString [] ["title"] "substring"
                 true "relevance" (Some 1%Z) demoStore) = Some 3
   /\ 3 <> Nat.min 1 3)
  /\ (countOf (evaluate plainHost 0 1 0 "bug" [] ["title"] "substring" true
                 "relevance" None demoStore) = Some 2
      /\ countOf (evaluate plainHost 0 1 0 "bug" [] ["title"] "substring"
                    true "relevance" (Some 0%Z) demoStore) = Some 2
      /\ 2 <> Nat.min 0 2).
Proof.
  repeat split; try (vm_compute; reflexivity); simpl; discriminate.
Qed.

(** ** The text filter *)

Section MatchingFacts.
Variable host : Host.

(** A callback that only reads the store filters as a pure function. *)
Lemma filterM_readonly {A} (f : A -> M bool) (g : A -> completion bool)
    (l : list A) (s : store) :
  (forall x, f x s = (s, g x)) ->
  filterM f l s = (s, filterM g l).
Proof.
  intros Hf. induction l as [|x l IH]; simpl; [reflexivity|].
  unfold mbind, M_bind, completion_bind in *. rewrite Hf.
  destruct (g x) as [b|e]; [|reflexivity].
  rewrite IH. now destruct (filterM g l).
Qed.

Lemma filterM_spec {A} (g : A -> completion bool) (l : list A) :
  forall kept,
  filterM g l = Normal kept ->
  sublist kept l /\ forall x, In x kept <-> In x l /\ g x = Normal true.
Proof.
  induction l as [|y l IH]; simpl; intros kept H.
  - injection H as <-. split; [constructor|]. intros x. simpl. tauto.
  - unfold mbind, completion_bind in H.
    destruct (g y) as [b|e] eqn:Hy; [|discriminate].
    destruct (filterM g l) as [rest|e]; [|discriminate].
    destruct (IH rest eq_refl) as [Hsub Hin]. injection H as <-.
    destruct b.
    + split; [now apply sublist_skip|]. intros x. simpl. rewrite Hin.
      split; [intros [<-|[H1 H2]]; auto | intros [[<-|H1] H2]; auto].
    + split; [now apply sublist_cons|]. intros x. rewrite Hin. simpl.
      split; [intros [H1 H2]; auto | intros [[<-|H1] H2]; auto].
      congruence.
Qed.

Lemma textStage_eq (filtered : nat) (tokens fields : list string)
    (matchType : string) (s : store) :
  textStage host filtered tokens fields matchType s
  = match filterM (fun item => matchesEveryToken host (recordAt s item)
                                 tokens fields matchType)
                  (arrayAt s filtered) with
    | Normal kept => (Store (records s) (arrays s ++ [kept]),
                      Normal (length (arrays s)))
    | Throw e => (s, Throw e)
    end.
Proof.
  unfold textStage, arrayFilter, mbind at 1, M_bind, readArray.
  unfold mbind at 1. unfold M_bind.
  rewrite (filterM_readonly _
             (fun item => matchesEveryToken host (recordAt s item) tokens
                            fields matchType)); [|reflexivity].
  now destruct (filterM _ _).
Qed.

(** The loop over the fields finds a field exactly when one matches. *)
Lemma fieldLoop_spec (item : record) (term matchType : string)
    (fields : list string) :
  forall found,
  fieldLoop host item term matchType fields = Normal found ->
  (is_Some found <-> tokenMatches host item fields matchType term).
Proof.
  unfold tokenMatches.
  induction fields as [|field fields IH]; simpl; intros found H.
  - injection H as <-. split; [intros [? [=]] | intros (? & ? & [] & _)].
  - destruct (nonEmptyString (get item field)) as [value|] eqn:Hv.
    2: { rewrite (IH found H). split.
         - intros (f & v & Hin & Hf). exists f, v. auto.
         - intros (f & v & [<-|Hin] & Hf & Hm); [congruence|].
           exists f, v. auto. }
    unfold fieldMatches in *.
    destruct (String.eqb matchType "fuzzy") eqn:Hfz.
    + unfold mbind, completion_bind in H.
      destruct (fuzzyMatch host value term) as [score|e] eqn:Hs;
        [|discriminate].
      destruct (Qlt_le_dec (1 # 2) score) as [Hlt|Hle].
      * injection H as <-. split; [|eauto]. intros _.
        exists field, value. repeat split; eauto.
      * rewrite (IH found H). split.
        -- intros (f & v & Hin & Hf). exists f, v. auto.
        -- intros (f & v & [<-|Hin] & Hf & Hm); [|exists f, v; auto].
           exfalso. assert (v = value) as -> by congruence.
           destruct Hm as (score' & Hs' & Hlt).
           assert (score' = score) as -> by congruence.
           now apply Qle_not_lt in Hle.
    + unfold mbind, completion_bind in H.
      destruct (callMatch host (matchFunction matchType) value term)
        as [[|]|e] eqn:Hc; [| |discriminate].
      * injection H as <-. split; [|eauto]. intros _.
        exists field, value. repeat split; eauto.
      * rewrite (IH found H). split.
        -- intros (f & v & Hin & Hf). exists f, v. auto.
        -- intros (f & v & [<-|Hin] & Hf & Hm); [|exists f, v; auto].
           exfalso. assert (v = value) as -> by congruence. congruence.
Qed.

End MatchingFacts.

(** ** The match functions return on the computed fragment *)

Section ReturnFacts.
Variable host : Host.

Lemma fuzzyMatch_returns (value term : string) :
  fragmentTerm term -> exists score, fuzzyMatch host value term = Normal score.
Proof.
  intros [atoms Ha]. unfold fuzzyMatch.
  destruct (String.eqb _ _); [eauto|].
  destruct (Str.includes _ _); [eauto|].
  rewrite (wordMatch_fragment host atoms) by exact Ha. simpl.
  destruct (RegExpFragment.test atoms value); [eauto|].
  destruct (fuzzyLoop _ _ 0 0) as [m i]. destruct (i =? _); eauto.
Qed.

Lemma callMatch_returns (f : matchFn) (value term : string) :
  fragmentTerm term -> exists b, callMatch host (Own f) value term = Normal b.
Proof.
  intros Hf. destruct f; simpl; eauto.
  - destruct Hf as [atoms Ha].
    rewrite (wordMatch_fragment host atoms) by exact Ha. eauto.
  - destruct (fuzzyMatch_returns value term Hf) as [score ->]. simpl. eauto.
Qed.

Lemma matchFunction_strategy (matchType : string) :
  In matchType strategyNames -> exists f, matchFunction matchType = Own f.
Proof.
  unfold strategyNames. intros H.
  repeat (destruct H as [<-|H]; [eexists; reflexivity|]). destruct H.
Qed.

Lemma fieldLoop_returns (item : record) (term matchType : string)
    (fields : list string) :
  In matchType strategyNames -> fragmentTerm term ->
  exists found, fieldLoop host item term matchType fields = Normal found.
Proof.
  intros Hm Hf. destruct (matchFunction_strategy _ Hm) as [f Hfn].
  induction fields as [|field fields [found IH]]; simpl; [eauto|].
  destruct (nonEmptyString (get item field)) as [value|]; [|eauto].
  destruct (String.eqb matchType "fuzzy").
  - destruct (fuzzyMatch_returns value term Hf) as [score ->]. simpl.
    destruct (Qlt_le_dec (1 # 2) score); eauto.
  - rewrite Hfn. destruct (callMatch_returns f value term Hf) as [b ->].
    simpl. destruct b; eauto.
Qed.

Lemma filterM_returns {A} (g : A -> completion bool) (l : list A) :
  (forall x, exists b, g x = Normal b) ->
  exists kept, filterM g l = Normal kept.
Proof.
  intros Hg. induction l as [|x l [rest IH]]; simpl; [eauto|].
  destruct (Hg x) as [b ->]. simpl. rewrite IH. simpl. eauto.
Qed.

(** With ranking, secondary filters, re-sorting and limit switched off,
    the evaluation is the text filter on a copy of the collection. *)
Lemma evaluate_text_only (startTime endTime : Q) (data : nat) (term : string)
    (fields : list string) (matchType : string) (s : store) :
  Str.truthy term = true -> fields <> [] ->
  evaluate host startTime endTime data term [] fields matchType false
    "relevance" None s
  = match textStage host (length (arrays s)) (Tokenizer.parseSearchQuery term)
            fields matchType
            (Store (records s) (arrays s ++ [arrayAt s data])) with
    | (s', Normal out) =>
        (s', Normal (SearchResult out (length (arrayAt s' out))
                       (endTime - startTime)
                       (Statistics true
                          (length (Tokenizer.parseSearchQuery term))
                          (Some (Tokenizer.parseSearchQuery term)))))
    | (s', Throw e) => (s', Throw e)
    end.
Proof.
  intros Ht Hf. unfold evaluate, sortedMatches. rewrite Ht.
  destruct fields as [|f fields']; [congruence|]. simpl.
  unfold mbind, M_bind, arraySpread, readArray, allocArray. simpl.
  unfold mbind, M_bind.
  now destruct (textStage _ _ _ _ _ _) as [s' [out|e]].
Qed.

End ReturnFacts.

(** * Further properties of the code *)

(** ** More on strings *)

Section MoreStringFacts.

Lemma chars_inj (a b : string) : Str.chars a = Str.chars b -> a = b.
Proof.
  intros H. rewrite <- (of_chars_chars a), <- (of_chars_chars b).
  now rewrite H.
Qed.

Lemma chars_of_chars (l : list ascii) : Str.chars (Str.of_chars l) = l.
Proof. apply list_ascii_of_string_of_list_ascii. Qed.

Lemma append_cons (x : ascii) (a b : string) :
  (String x a ++ b)%string = String x (a ++ b).
Proof. reflexivity. Qed.

Lemma append_empty_l (b : string) : (EmptyString ++ b)%string = b.
Proof. reflexivity. Qed.

Lemma append_assoc (a b c : string) : ((a ++ b) ++ c = a ++ (b ++ c))%string.
Proof.
  induction a as [|x a IH]; [reflexivity|].
  rewrite !append_cons. now rewrite IH.
Qed.

Lemma append_empty_r (a : string) : (a ++ EmptyString)%string = a.
Proof.
  induction a as [|x a IH]; [reflexivity|]. rewrite append_cons. now rewrite IH.
Qed.

Lemma toLowerCase_append (a b : string) :
  Str.toLowerCase (a ++ b) = (Str.toLowerCase a ++ Str.toLowerCase b)%string.
Proof.
  induction a as [|x a IH]; [reflexivity|].
  rewrite append_cons. simpl. rewrite append_cons. now rewrite IH.
Qed.

Lemma length_toLowerCase (a : string) :
  String.length (Str.toLowerCase a) = String.length a.
Proof. induction a as [|x a IH]; simpl; congruence. Qed.

(** [a.startsWith(b)] holds exactly when [a] is [b] followed by a rest. *)
Lemma startsWith_iff (a b : string) :
  Str.startsWith a b = true <-> exists post, a = (b ++ post)%string.
Proof.
  revert a. induction b as [|y b IH]; intros a; simpl.
  - split; [intros _; now exists a | reflexivity].
  - destruct a as [|x a].
    + split; [discriminate | intros [post H]; discriminate].
    + rewrite andb_true_iff, Ascii.eqb_eq, IH. split.
      * intros [-> [post ->]]. now exists post.
      * intros [post H]. rewrite append_cons in H. injection H as -> ->.
        split; [reflexivity | now exists post].
Qed.

(** [a.includes(b)] holds exactly when [b] occurs in [a]. *)
Lemma includes_iff (a b : string) :
  Str.includes a b = true
  <-> exists pre post, a = (pre ++ b ++ post)%string.
Proof.
  induction a as [|x a IH]; simpl.
  - rewrite orb_false_r, startsWith_iff. split.
    + intros [post H]. now exists EmptyString, post.
    + intros [pre [post H]]. destruct pre; [now exists post|discriminate].
  - rewrite orb_true_iff, startsWith_iff, IH. split.
    + intros [[post H]|[pre [post H]]].
      * now exists EmptyString, post.
      * exists (String x pre), post. rewrite append_cons. now rewrite H.
    + intros [pre [post H]]. destruct pre as [|y pre].
      * left. now exists post.
      * right. rewrite append_cons in H. injection H as -> ->.
        now exists pre, post.
Qed.

End MoreStringFacts.

(** ** More on the tokenizer *)

Section MoreTokenizerFacts.
Import Tokenizer.

(** The characters of a word are accumulated one by one. *)
Lemma spec_scan_word (w : string) :
  ~ In space (Str.chars w) -> ~ In quote (Str.chars w) ->
  forall inside acc rest,
  spec_scan inside acc (Str.chars w ++ rest)%list
  = spec_scan inside (acc ++ w) rest.
Proof.
  induction w as [|c w IH]; intros Hs Hq inside acc rest; simpl.
  - now rewrite append_empty_r.
  - simpl in Hs, Hq.
    destruct (Ascii.eqb_spec c quote) as [->|_]; [exfalso; auto|].
    destruct (Ascii.eqb_spec c space) as [->|_]; [exfalso; auto|]. simpl.
    rewrite IH by auto. now rewrite append_assoc, append_cons.
Qed.

Lemma spec_scan_words (words : list string) :
  Forall plainWord words ->
  spec_scan false EmptyString (Str.chars (String.concat " " words)) = words.
Proof.
  induction 1 as [|w ws (Ht & Hs & Hq) Hws IH]; [reflexivity|].
  destruct ws as [|w2 ws].
  - simpl. rewrite <- (app_nil_r (Str.chars w)).
    rewrite spec_scan_word by assumption. simpl. rewrite append_empty_l.
    unfold flush. now rewrite Ht.
  - change (String.concat " " (w :: w2 :: ws))
      with (w ++ " " ++ String.concat " " (w2 :: ws))%string.
    rewrite chars_append, spec_scan_word by assumption.
    change (Str.chars (" " ++ String.concat " " (w2 :: ws)))
      with (space :: Str.chars (String.concat " " (w2 :: ws))).
    simpl spec_scan at 1. change (Ascii.eqb space quote) with false.
    change (Ascii.eqb space space) with true. simpl.
    rewrite append_empty_l. unfold flush at 1. rewrite Ht. simpl. f_equal.
    exact IH.
Qed.

(** X1. Words joined by single spaces are tokenized back into the words. *)
Theorem tokenizer_words_round_trip (words : list string) :
  Forall plainWord words ->
  parseSearchQuery (String.concat " " words) = words.
Proof.
  intros H. rewrite parseSearchQuery_spec. now apply spec_scan_words.
Qed.

Lemma concat_empty_cons (x : string) (l : list string) :
  String.concat EmptyString (x :: l) = (x ++ String.concat EmptyString l)%string.
Proof. destruct l; simpl; [now rewrite append_empty_r | reflexivity]. Qed.

Lemma concat_empty_flush (acc : string) (l : list string) :
  String.concat EmptyString (flush acc ++ l)%list
  = (acc ++ String.concat EmptyString l)%string.
Proof.
  unfold flush. destruct acc; simpl Str.truthy; cbv iota.
  - reflexivity.
  - simpl app. apply concat_empty_cons.
Qed.

Lemma spec_scan_quote_free_query (rest : list ascii) :
  ~ In quote rest ->
  forall acc,
  ~ In space (Str.chars acc) ->
  Forall (fun token => ~ In space (Str.chars token))
         (spec_scan false acc rest)
  /\ Str.chars (String.concat EmptyString (spec_scan false acc rest))
     = (Str.chars acc
        ++ List.filter (fun c => negb (Ascii.eqb c space)) rest)%list.
Proof.
  induction rest as [|c rest IH]; intros Hq acc Hacc.
  - simpl. split.
    + unfold flush. destruct (Str.truthy acc); repeat constructor; exact Hacc.
    + rewrite <- (app_nil_r (flush acc)), concat_empty_flush. simpl.
      now rewrite append_empty_r, app_nil_r.
  - simpl in Hq. simpl spec_scan.
    destruct (Ascii.eqb_spec c quote) as [->|_]; [exfalso; auto|].
    destruct (Ascii.eqb_spec c space) as [->|Hc]; simpl.
    + destruct (IH (fun H => Hq (or_intror H)) EmptyString (fun H => H))
        as [IH1 IH2].
      split.
      * apply Forall_app. split; [|exact IH1].
        unfold flush. destruct (Str.truthy acc); repeat constructor; exact Hacc.
      * rewrite concat_empty_flush, chars_append, IH2. reflexivity.
    + assert (Hacc' : ~ In space (Str.chars (acc ++ String c EmptyString))).
      { rewrite chars_append. simpl. intros H.
        apply in_app_or in H as [H|[H|[]]]; [auto | now apply Hc]. }
      destruct (IH (fun H => Hq (or_intror H)) _ Hacc') as [IH1 IH2].
      split; [exact IH1|].
      rewrite IH2, chars_append. simpl.
      destruct (Ascii.eqb_spec c space) as [->|_]; [contradiction|].
      simpl. now rewrite <- app_assoc.
Qed.

(** X2. Of a query without quotes, no token holds a space, and the tokens
    put together are the query without its spaces. *)
Theorem tokenizer_quote_free_query (query : string) :
  quote_free query ->
  Forall (fun token => ~ In space (Str.chars token)) (parseSearchQuery query)
  /\ String.concat EmptyString (parseSearchQuery query) = withoutSpaces query.
Proof.
  intros Hq. rewrite parseSearchQuery_spec. unfold spec_parseQuery.
  destruct (spec_scan_quote_free_query (Str.chars query) Hq EmptyString
              (fun H => H)) as [H1 H2].
  split; [exact H1|]. apply chars_inj. rewrite H2. unfold withoutSpaces.
  now rewrite chars_of_chars.
Qed.

End MoreTokenizerFacts.

Lemma tokenizer_words_round_trip_witness :
  Tokenizer.parseSearchQuery (String.concat " " ["fix"; "the"; "bug"])
  = ["fix"; "the"; "bug"].
Proof.
  apply (tokenizer_words_round_trip ["fix"; "the"; "bug"]).
  repeat constructor; simpl; intros H;
    repeat (destruct H as [H|H]; [discriminate H|]); exact H.
Defined.

Lemma tokenizer_quote_free_query_witness :
  Forall (fun token => ~ In Tokenizer.space (Str.chars token))
         (Tokenizer.parseSearchQuery "  fix  bug ")
  /\ String.concat EmptyString (Tokenizer.parseSearchQuery "  fix  bug ")
     = withoutSpaces "  fix  bug ".
Proof.
  apply (tokenizer_quote_free_query "  fix  bug ").
  unfold Tokenizer.quote_free. simpl. intros H.
  repeat (destruct H as [H|H]; [discriminate H|]). exact H.
Defined.

(** ** More on the field matchers *)

Section MoreMatcherFacts.
Variable host : Host.

Lemma exact_prefix_substring (text term : string) :
  (exactMatch text term = true -> prefixMatch text term = true)
  /\ (prefixMatch text term = true -> substringMatch text term = true).
Proof.
  unfold exactMatch, prefixMatch, substringMatch. split.
  - intros H. apply String.eqb_eq in H. rewrite H.
    apply startsWith_iff. exists EmptyString. now rewrite append_empty_r.
  - intros H. destruct (Str.toLowerCase text); simpl; now rewrite H.
Qed.

(** X3. An exact match is a prefix match, and a prefix match is a
    substring match. *)
Theorem matcher_chain (text term : string) :
  (exactMatch text term = true -> prefixMatch text term = true)
  /\ (prefixMatch text term = true -> substringMatch text term = true).
Proof.
  unfold exactMatch, prefixMatch, substringMatch. split.
  - intros H. apply String.eqb_eq in H. rewrite H.
    apply startsWith_iff. exists EmptyString. now rewrite append_empty_r.
  - intros H. apply startsWith_iff in H as [post H].
    apply includes_iff. exists EmptyString, post. exact H.
Qed.

Lemma isWordChar_lowerChar (c : ascii) :
  RegExpFragment.isWordChar (Str.lowerChar c) = RegExpFragment.isWordChar c.
Proof. destruct c as [[] [] [] [] [] [] [] []]; reflexivity. Qed.

Lemma isLineTerminator_lowerChar (c : ascii) :
  RegExpFragment.isLineTerminator (Str.lowerChar c)
  = RegExpFragment.isLineTerminator c.
Proof. destruct c as [[] [] [] [] [] [] [] []]; reflexivity. Qed.

Lemma atomMatches_lower (a : RegExpFragment.atom) (c d : ascii) :
  Str.lowerChar c = Str.lowerChar d ->
  RegExpFragment.atomMatches a c = RegExpFragment.atomMatches a d.
Proof.
  intros H. destruct a as [e|]; simpl; [now rewrite H|].
  now rewrite <- (isLineTerminator_lowerChar c), H, isLineTerminator_lowerChar.
Qed.

Lemma isWord_lower (c d : option ascii) :
  option_map Str.lowerChar c = option_map Str.lowerChar d ->
  RegExpFragment.isWord c = RegExpFragment.isWord d.
Proof.
  destruct c as [c|], d as [d|]; simpl; try discriminate; [|reflexivity].
  intros [= H].
  now rewrite <- (isWordChar_lowerChar c), H, isWordChar_lowerChar.
Qed.

Lemma head_map_lower (l1 l2 : list ascii) :
  map Str.lowerChar l1 = map Str.lowerChar l2 ->
  option_map Str.lowerChar (head l1) = option_map Str.lowerChar (head l2).
Proof. destruct l1, l2; simpl; congruence. Qed.

Lemma matchHere_lower (atoms : list RegExpFragment.atom) :
  forall before1 before2 rest1 rest2,
  RegExpFragment.isWord before1 = RegExpFragment.isWord before2 ->
  map Str.lowerChar rest1 = map Str.lowerChar rest2 ->
  RegExpFragment.matchHere atoms before1 rest1
  = RegExpFragment.matchHere atoms before2 rest2.
Proof.
  induction atoms as [|a atoms IH]; intros b1 b2 r1 r2 Hb Hr; simpl.
  - unfold RegExpFragment.boundary.
    now rewrite Hb, (isWord_lower _ _ (head_map_lower _ _ Hr)).
  - destruct r1 as [|c r1], r2 as [|d r2]; try discriminate; [reflexivity|].
    simpl in Hr. injection Hr as Hc Hr.
    rewrite (atomMatches_lower a c d Hc). f_equal. apply IH; [|exact Hr].
    apply (isWord_lower (Some c) (Some d)). simpl. now rewrite Hc.
Qed.

Lemma search_lower (atoms : list RegExpFragment.atom) :
  forall rest1 rest2 before1 before2,
  RegExpFragment.isWord before1 = RegExpFragment.isWord before2 ->
  map Str.lowerChar rest1 = map Str.lowerChar rest2 ->
  RegExpFragment.search atoms before1 rest1
  = RegExpFragment.search atoms before2 rest2.
Proof.
  induction rest1 as [|c r1 IH]; intros [|d r2] b1 b2 Hb Hr;
    try discriminate; simpl.
  - unfold RegExpFragment.boundary. rewrite Hb.
    now rewrite (matchHere_lower atoms b1 b2 [] [] Hb eq_refl).
  - simpl in Hr. injection Hr as Hc Hr.
    assert (Hw : RegExpFragment.isWord (Some c) = RegExpFragment.isWord (Some d)).
    { apply isWord_lower. simpl. now rewrite Hc. }
    unfold RegExpFragment.boundary. simpl RegExpFragment.isWord at 2 4.
    simpl in Hw. rewrite Hb, Hw.
    rewrite (matchHere_lower atoms b1 b2 (c :: r1) (d :: r2) Hb).
    2: { simpl. now rewrite Hc, Hr. }
    f_equal. now apply IH.
Qed.

(** X4. On texts of basic Latin characters the word test and the fuzzy
    score do not depend on the case of the text: two such texts with the
    same lower case give the same result, for a term of the computed
    fragment of the pattern language. *)
Theorem matching_ignores_case (text1 text2 term : string) :
  basicLatin text1 = true ->
  basicLatin text2 = true ->
  fragmentTerm term ->
  Str.toLowerCase text1 = Str.toLowerCase text2 ->
  wordMatch host text1 term = wordMatch host text2 term
  /\ fuzzyMatch host text1 term = fuzzyMatch host text2 term.
Proof.
  intros _ _ [atoms Ha] Hl.
  assert (Hw : wordMatch host text1 term = wordMatch host text2 term).
  { rewrite !(wordMatch_fragment host atoms) by exact Ha. f_equal.
    unfold RegExpFragment.test. apply search_lower; [reflexivity|].
    now rewrite <- !chars_toLowerCase, Hl. }
  split; [exact Hw|]. unfold fuzzyMatch. now rewrite Hl, Hw.
Qed.

(** The scan counts at most one match per character of the text. *)
Lemma fuzzyLoop_count (lowerTerm lowerText : list ascii) :
  forall matches termIndex,
  matches <= (fuzzyLoop lowerText lowerTerm matches termIndex).1
  /\ (fuzzyLoop lowerText lowerTerm matches termIndex).1
     <= matches + length lowerText.
Proof.
  induction lowerText as [|c rest IH]; intros m i; simpl; [lia|].
  destruct (i <? length lowerTerm); simpl; [|lia].
  destruct (bool_decide _).
  - specialize (IH (S m) (S i)). lia.
  - specialize (IH m i). lia.
Qed.

(** X5. A fuzzy score that is returned lies between 0 and 1, and it is at
    least nine tenths when the text contains the term. *)
Theorem fuzzy_score_range (text term : string) (score : Q) :
  fuzzyMatch host text term = Normal score ->
  (0 <= score <= 1)%Q
  /\ (substringMatch text term = true -> (9 # 10 <= score)%Q).
Proof.
  unfold fuzzyMatch, substringMatch. intros H.
  destruct (String.eqb_spec (Str.toLowerCase text) (Str.toLowerCase term))
    as [He|_].
  { injection H as <-. repeat split; intros; discriminate. }
  destruct (Str.includes _ _).
  { injection H as <-. repeat split; intros; discriminate. }
  split; [|discriminate].
  destruct (wordMatch host text term) as [[|]|e]; simpl in H; [| |discriminate].
  { injection H as <-. split; discriminate. }
  pose proof (fuzzyLoop_count (Str.chars (Str.toLowerCase term))
                (Str.chars (Str.toLowerCase text)) 0 0) as Hc.
  destruct (fuzzyLoop _ _ 0 0) as [m i]. simpl in Hc.
  rewrite length_chars in Hc.
  destruct (i =? _); injection H as <-; [|split; discriminate].
  unfold Qle. cbn [Qnum Qden].
  destruct (String.length (Str.toLowerCase text)) as [|n].
  - assert (m = 0) as -> by lia. split; discriminate.
  - rewrite <- Pos.of_nat_succ, Zpos_P_of_succ_nat. split; lia.
Qed.

End MoreMatcherFacts.

Lemma matcher_chain_witness :
  exactMatch "Task" "tASK" = true
  /\ prefixMatch "Task" "tASK" = true
  /\ substringMatch "Task" "tASK" = true.
Proof.
  pose proof (matcher_chain "Task" "tASK") as [H1 H2].
  assert (He : exactMatch "Task" "tASK" = true) by reflexivity.
  split; [exact He|]. split; [exact (H1 He) | exact (H2 (H1 He))].
Defined.

Lemma matching_ignores_case_witness :
  wordMatch plainHost "My TASK list" "task"
  = wordMatch plainHost "my Task LIST" "task"
  /\ fuzzyMatch plainHost "My TASK list" "task"
     = fuzzyMatch plainHost "my Task LIST" "task".
Proof.
  apply (matching_ignores_case plainHost "My TASK list" "my Task LIST" "task").
  - reflexivity.
  - reflexivity.
  - eexists. reflexivity.
  - reflexivity.
Defined.

Lemma fuzzy_score_range_witness :
  (0 <= 3 # 5 <= 1)%Q
  /\ (substringMatch "abcde" "ace" = true -> (9 # 10 <= 3 # 5)%Q).
Proof.
  apply (fuzzy_score_range plainHost "abcde" "ace" (3 # 5)). reflexivity.
Defined.

(** ** More on [multiFieldSearch] *)

Section MoreMultiFieldFacts.
Variable host : Host.

Lemma fieldLoop_first (item : record) (term matchType : string)
    (fields : list string) :
  forall info,
  fieldLoop host item term matchType fields = Normal (Some info) ->
  exists before after value,
    fields = (before ++ mi_field info :: after)%list
    /\ nonEmptyString (get item (mi_field info)) = Some value
    /\ fieldMatches host matchType value term
    /\ (forall f v, In f before -> nonEmptyString (get item f) = Some v ->
                    ~ fieldMatches host matchType v term)
    /\ (String.eqb matchType "fuzzy" = true ->
        exists score, mi_score info = Some score
                      /\ fuzzyMatch host value term = Normal score)
    /\ (String.eqb matchType "fuzzy" = false -> mi_score info = None).
Proof.
  induction fields as [|field fields IH]; simpl; intros info H;
    [discriminate|].
  assert (Hskip : forall before after value,
    (forall v, nonEmptyString (get item field) = Some v ->
               ~ fieldMatches host matchType v term) ->
    fields = (before ++ mi_field info :: after)%list
    /\ nonEmptyString (get item (mi_field info)) = Some value
    /\ fieldMatches host matchType value term
    /\ (forall f v, In f before -> nonEmptyString (get item f) = Some v ->
                    ~ fieldMatches host matchType v term)
    /\ (String.eqb matchType "fuzzy" = true ->
        exists score, mi_score info = Some score
                      /\ fuzzyMatch host value term = Normal score)
    /\ (String.eqb matchType "fuzzy" = false -> mi_score info = None) ->
    exists before after value,
      field :: fields = (before ++ mi_field info :: after)%list
      /\ nonEmptyString (get item (mi_field info)) = Some value
      /\ fieldMatches host matchType value term
      /\ (forall f v, In f before -> nonEmptyString (get item f) = Some v ->
                      ~ fieldMatches host matchType v term)
      /\ (String.eqb matchType "fuzzy" = true ->
          exists score, mi_score info = Some score
                        /\ fuzzyMatch host value term = Normal score)
      /\ (String.eqb matchType "fuzzy" = false -> mi_score info = None)).
  { intros before after value Hno (-> & Hv & Hm & Hb & Hs).
    exists (field :: before), after, value.
    split; [reflexivity|]. split; [exact Hv|]. split; [exact Hm|].
    split; [|exact Hs].
    intros f v [<-|Hin] Hfv; [now apply Hno | now apply (Hb f v)]. }
  destruct (nonEmptyString (get item field)) as [value|] eqn:Hv.
  2: { destruct (IH info H) as (before & after & value & Hrest).
       apply (Hskip before after value); [discriminate | exact Hrest]. }
  unfold fieldMatches in *.
  destruct (String.eqb matchType "fuzzy") eqn:Hfz.
  - unfold mbind, completion_bind in H.
    destruct (fuzzyMatch host value term) as [score|e] eqn:Hsc; [|discriminate].
    destruct (Qlt_le_dec (1 # 2) score) as [Hlt|Hle].
    + injection H as <-. exists [], fields, value. simpl.
      repeat split; eauto; try discriminate; try (intros f v []).
    + destruct (IH info H) as (before & after & value' & Hrest).
      apply (Hskip before after value'); [|exact Hrest].
      intros v [= <-] (score' & Hs' & Hlt).
      assert (score' = score) as -> by congruence.
      now apply Qle_not_lt in Hle.
  - unfold mbind, completion_bind in H.
    destruct (callMatch host (matchFunction matchType) value term)
      as [[|]|e] eqn:Hc; [| |discriminate].
    + injection H as <-. exists [], fields, value. simpl.
      repeat split; eauto; try discriminate; try (intros f v []).
    + destruct (IH info H) as (before & after & value' & Hrest).
      apply (Hskip before after value'); [|exact Hrest].
      intros v [= <-]. congruence.
Qed.

(** X6. A match object names the first field, in the order of [fields],
    whose value is a non-empty string that matches the term; it carries the
    fuzzy score of that value under [fuzzy] and no score otherwise. *)
Theorem multiFieldSearch_first_match (item : record) (term : string)
    (fields : list string) (matchType : string) (info : matchInfo) :
  multiFieldSearch host item term fields matchType = Normal (Some info) ->
  exists before after value,
    fields = (before ++ mi_field info :: after)%list
    /\ nonEmptyString (get item (mi_field info)) = Some value
    /\ fieldMatches host matchType value term
    /\ (forall f v, In f before -> nonEmptyString (get item f) = Some v ->
                    ~ fieldMatches host matchType v term)
    /\ (String.eqb matchType "fuzzy" = true ->
        exists score, mi_score info = Some score
                      /\ fuzzyMatch host value term = Normal score)
    /\ (String.eqb matchType "fuzzy" = false -> mi_score info = None).
Proof.
  unfold multiFieldSearch.
  destruct (negb (Str.truthy term) || (length fields =? 0)); [discriminate|].
  apply fieldLoop_first.
Qed.

Lemma findsMatch_tokenMatches (item : record) (term : string)
    (fields : list string) (matchType : string) :
  findsMatch host item term fields matchType ->
  Str.truthy term = true /\ tokenMatches host item fields matchType term.
Proof.
  intros [info H]. unfold multiFieldSearch in H.
  destruct (Str.truthy term); [|discriminate]. simpl in H.
  destruct (length fields =? 0); [discriminate|]. split; [reflexivity|].
  apply (fieldLoop_spec host item term matchType fields _ H). eauto.
Qed.

Lemma tokenMatches_findsMatch (item : record) (term : string)
    (fields : list string) (matchType : string) :
  Str.truthy term = true ->
  tokenMatches host item fields matchType term ->
  (exists found, fieldLoop host item term matchType fields = Normal found) ->
  findsMatch host item term fields matchType.
Proof.
  intros Ht Hm [found Hf]. unfold findsMatch, multiFieldSearch. rewrite Ht.
  destruct fields as [|f fields'].
  { destruct Hm as (? & ? & [] & _). }
  change (negb true || (length (f :: fields') =? 0)) with false. cbv iota.
  rewrite Hf.
  destruct (proj2 (fieldLoop_spec host item term matchType _ _ Hf) Hm)
    as [info Hi].
  rewrite Hi. eauto.
Qed.

Lemma tokenMatches_impl (item : record) (term : string)
    (fields : list string) (matchType1 matchType2 : string) :
  (forall value, fieldMatches host matchType1 value term ->
                 fieldMatches host matchType2 value term) ->
  tokenMatches host item fields matchType1 term ->
  tokenMatches host item fields matchType2 term.
Proof.
  intros Himp (f & v & Hin & Hv & Hm). exists f, v. auto.
Qed.

Lemma fieldLoop_returns_bool (item : record) (term matchType : string)
    (fields : list string) :
  In matchType ["exact"; "substring"; "prefix"] ->
  exists found, fieldLoop host item term matchType fields = Normal found.
Proof.
  intros Hm.
  assert (Hc : String.eqb matchType "fuzzy" = false
               /\ forall value, exists b,
                    callMatch host (matchFunction matchType) value term
                    = Normal b).
  { simpl in Hm. destruct Hm as [<-|[<-|[<-|[]]]]; (split; [reflexivity|]);
      intros value; eexists; reflexivity. }
  destruct Hc as [Hfz Hc].
  induction fields as [|field fields [found IH]]; simpl; [eauto|].
  destruct (nonEmptyString (get item field)) as [value|]; [|eauto].
  rewrite Hfz. destruct (Hc value) as [b ->]. simpl. destruct b; eauto.
Qed.

(** X7. The strategies are ordered: a record that [multiFieldSearch] finds
    under [exact] is found under [prefix], one found under [prefix] is
    found under [substring], and, for a term of the computed fragment of the
    pattern language, one found under [substring] is found under [fuzzy]. *)
Theorem strategy_inclusion (item : record) (term : string)
    (fields : list string) :
  (findsMatch host item term fields "exact" ->
   findsMatch host item term fields "prefix")
  /\ (findsMatch host item term fields "prefix" ->
      findsMatch host item term fields "substring")
  /\ (fragmentTerm term ->
      findsMatch host item term fields "substring" ->
      findsMatch host item term fields "fuzzy").
Proof.
  repeat split.
  - intros H. apply findsMatch_tokenMatches in H as [Ht Hm].
    apply tokenMatches_findsMatch; [exact Ht| |].
    + revert Hm. apply tokenMatches_impl. intros value Hv.
      unfold fieldMatches in *. simpl in *. injection Hv as Hv.
      now rewrite (proj1 (exact_prefix_substring value term) Hv).
    + apply fieldLoop_returns_bool. simpl. auto.
  - intros H. apply findsMatch_tokenMatches in H as [Ht Hm].
    apply tokenMatches_findsMatch; [exact Ht| |].
    + revert Hm. apply tokenMatches_impl. intros value Hv.
      unfold fieldMatches in *. simpl in *. injection Hv as Hv.
      now rewrite (proj2 (exact_prefix_substring value term) Hv).
    + apply fieldLoop_returns_bool. simpl. auto.
  - intros Hf H. apply findsMatch_tokenMatches in H as [Ht Hm].
    apply tokenMatches_findsMatch; [exact Ht| |].
    + revert Hm. apply tokenMatches_impl. intros value Hv.
      unfold fieldMatches in *. simpl in *. injection Hv as Hv.
      unfold substringMatch in Hv. unfold fuzzyMatch.
      destruct (String.eqb _ _); [exists 1%Q; split; reflexivity|].
      rewrite Hv. exists (9 # 10)%Q. split; reflexivity.
    + apply fieldLoop_returns; [|exact Hf]. unfold strategyNames. simpl. auto.
Qed.

End MoreMultiFieldFacts.

Lemma multiFieldSearch_first_match_witness :
  exists before after value,
    ["description"; "title"; "notes"]
    = (before ++ "title" :: after)%list
    /\ nonEmptyString (get (titled "Fix bug") "title") = Some value
    /\ fieldMatches plainHost "substring" value "bug".
Proof.
  destruct (multiFieldSearch_first_match plainHost (titled "Fix bug") "bug"
              ["description"; "title"; "notes"] "substring"
              (MatchInfo "title" None) eq_refl)
    as (before & after & value & H1 & H2 & H3 & _).
  exists before, after, value. auto.
Defined.

Lemma strategy_inclusion_witness :
  findsMatch plainHost (titled "Task") "task" ["title"] "exact"
  /\ findsMatch plainHost (titled "Task") "task" ["title"] "prefix"
  /\ findsMatch plainHost (titled "Task") "task" ["title"] "substring"
  /\ findsMatch plainHost (titled "Task") "task" ["title"] "fuzzy".
Proof.
  destruct (strategy_inclusion plainHost (titled "Task") "task" ["title"])
    as (H1 & H2 & H3).
  assert (He : findsMatch plainHost (titled "Task") "task" ["title"] "exact").
  { eexists. reflexivity. }
  assert (Hf : fragmentTerm "task") by (eexists; reflexivity).
  repeat split; auto.
Defined.

(** ** More on the scorer *)

Section MoreScorerFacts.
Variable host : Host.

Lemma fieldAward_range (item : record) (term field : string) (award : Z) :
  fieldAward host item term field = Normal award -> (0 <= award <= 100)%Z.
Proof.
  unfold fieldAward, valueAward.
  destruct (nonEmptyString _); [|intros [= <-]; lia].
  destruct (String.eqb _ _); [intros [= <-]; lia|].
  destruct (Str.startsWith _ _); [intros [= <-]; lia|].
  destruct (Str.includes _ _); [intros [= <-]; lia|].
  destruct (wordMatch host s term) as [[|]|e]; simpl; intros [= <-]; lia.
Qed.

Lemma awards_range (item : record) (term : string) (fields : list string) :
  forall awards,
  mapM (fieldAward host item term) fields = Normal awards ->
  (0 <= sumZ awards <= 100 * Z.of_nat (length fields))%Z.
Proof.
  induction fields as [|field fields IH]; simpl; intros awards H.
  - injection H as <-. simpl. lia.
  - unfold mbind, completion_bind in H.
    destruct (fieldAward host item term field) as [a|e] eqn:Ha; [|discriminate].
    destruct (mapM _ fields) as [rest|e]; [|discriminate].
    injection H as <-. specialize (IH rest eq_refl).
    pose proof (fieldAward_range item term field a Ha). simpl. lia.
Qed.

(** X8. A score that is returned is between 0 and 100 times the number of
    fields. *)
Theorem score_bounds (item : record) (term : string) (fields : list string)
    (score : Z) :
  scoreSearchResult host item term fields = Normal score ->
  (0 <= score <= 100 * Z.of_nat (length fields))%Z.
Proof.
  unfold scoreSearchResult. destruct (Str.truthy term); simpl.
  - rewrite scoreLoop_sum.
    destruct (mapM _ fields) as [awards|e] eqn:Hm; simpl; [|discriminate].
    intros [= <-]. rewrite Z.add_0_l. exact (awards_range item term fields _ Hm).
  - intros [= <-]. lia.
Qed.

Lemma fieldAward_plain (item : record) (term field : string) :
  plainTerm term ->
  exists award,
    fieldAward host item term field = Normal award
    /\ In award [0; 50; 75; 100]%Z
    /\ ((0 < award)%Z <->
        exists value, nonEmptyString (get item field) = Some value
                      /\ substringMatch value term = true).
Proof.
  intros Hp. unfold fieldAward, valueAward, substringMatch.
  destruct (nonEmptyString (get item field)) as [value|].
  2: { exists 0%Z. repeat split; simpl; auto; [lia|]. intros (? & [=] & _). }
  destruct (String.eqb_spec (Str.toLowerCase value) (Str.toLowerCase term))
    as [He|_].
  { exists 100%Z. repeat split; simpl; auto 10. intros _. exists value.
    split; [reflexivity|]. rewrite He. apply includes_iff.
    exists EmptyString, EmptyString. now rewrite append_empty_r. }
  destruct (Str.startsWith _ _) eqn:Hs.
  { exists 75%Z. repeat split; simpl; auto 10. intros _. exists value.
    split; [reflexivity|]. apply startsWith_iff in Hs as [post Hs].
    apply includes_iff. now exists EmptyString, post. }
  destruct (Str.includes _ _) eqn:Hi.
  { exists 50%Z. repeat split; simpl; auto 10. intros _. now exists value. }
  destruct (wordMatch_plain_includes host value term Hp) as [b [-> Hb]].
  destruct b; [specialize (Hb eq_refl); congruence|].
  exists 0%Z. repeat split; simpl; auto; [lia|].
  intros (v & [= <-] & Hv). congruence.
Qed.

Lemma awards_plain_sum (awards : list Z) :
  Forall (fun a => In a [0; 50; 75; 100]%Z) awards ->
  (0 <= sumZ awards)%Z /\ ((0 < sumZ awards)%Z -> (50 <= sumZ awards)%Z).
Proof.
  induction 1 as [|a l Ha _ IH]; simpl; [lia|]. simpl in Ha. lia.
Qed.

(** X9. For a non-empty query of basic Latin characters without pattern
    syntax characters the score is returned; it is positive exactly when
    some field of the record contains the whole query, and then it is at
    least 50: the whole-word tier never awards. *)
Theorem score_positive_iff (item : record) (term : string)
    (fields : list string) :
  literalTerm term ->
  Str.truthy term = true ->
  exists score,
    scoreSearchResult host item term fields = Normal score
    /\ ((0 < score)%Z <-> tokenMatches host item fields "substring" term)
    /\ ((0 < score)%Z -> (50 <= score)%Z).
Proof.
  intros [Hp _] Ht. unfold scoreSearchResult. rewrite Ht. simpl.
  rewrite scoreLoop_sum.
  assert (H : exists awards,
    mapM (fieldAward host item term) fields = Normal awards
    /\ Forall (fun a => In a [0; 50; 75; 100]%Z) awards
    /\ ((0 < sumZ awards)%Z <-> tokenMatches host item fields "substring" term)).
  { unfold tokenMatches, fieldMatches. simpl.
    induction fields as [|field fields (awards & Hm & Hall & Hiff)]; simpl.
    - exists []. repeat split; [constructor|simpl; lia|].
      intros (? & ? & [] & _).
    - destruct (fieldAward_plain item term field Hp) as (a & Ha & Hin & Hpos).
      exists (a :: awards). rewrite Ha. simpl. rewrite Hm. simpl.
      split; [reflexivity|]. split; [now constructor|].
      assert (Hnn : (0 <= a)%Z /\ (0 <= sumZ awards)%Z).
      { split; [simpl in Hin; lia | apply (awards_plain_sum awards Hall)]. }
      split.
      + intros Hsum.
        assert (Hc : (0 < a)%Z \/ (0 < sumZ awards)%Z) by lia.
        destruct Hc as [Hc|Hc].
        * apply Hpos in Hc as (v & Hv & Hs). exists field, v.
          repeat split; auto. now rewrite Hs.
        * apply Hiff in Hc as (f & v & Hf & Hv & Hs). exists f, v. auto.
      + intros (f & v & [<-|Hf] & Hv & Hs).
        * assert ((0 < a)%Z); [|lia]. apply Hpos. exists v.
          split; [exact Hv | congruence].
        * assert ((0 < sumZ awards)%Z); [|lia]. apply Hiff. exists f, v. auto. }
  destruct H as (awards & -> & Hall & Hiff). simpl.
  exists (sumZ awards). rewrite Z.add_0_l. split; [reflexivity|].
  split; [exact Hiff | apply (awards_plain_sum awards Hall)].
Qed.

End MoreScorerFacts.

Lemma score_bounds_witness :
  (0 <= 150 <= 100 * Z.of_nat 2)%Z.
Proof.
  apply (score_bounds plainHost
           (<["description" := VStr "the task list"]> (titled "task"))
           "task" ["title"; "description"] 150).
  reflexivity.
Defined.

Lemma score_positive_iff_witness :
  exists score,
    scoreSearchResult plainHost (titled "my task today") "task" ["title"]
    = Normal score
    /\ ((0 < score)%Z <->
        tokenMatches plainHost (titled "my task today") ["title"] "substring"
          "task")
    /\ ((0 < score)%Z -> (50 <= score)%Z).
Proof.
  apply (score_positive_iff plainHost (titled "my task today") "task"
           ["title"]); [|reflexivity].
  split; [|reflexivity]. unfold plainTerm. simpl. repeat constructor.
Defined.

(** X10. A match type that is neither one of the five strategies nor a
    property of [Object.prototype] selects the substring strategy. *)
Theorem unknown_matchType_is_substring (host : Host) (item : record)
    (term : string) (fields : list string) (matchType : string) :
  ~ In matchType strategyNames ->
  ~ In matchType objectPrototypeNames ->
  multiFieldSearch host item term fields matchType
  = multiFieldSearch host item term fields "substring".
Proof.
  intros Hs Ho. unfold multiFieldSearch.
  destruct (negb (Str.truthy term) || (length fields =? 0)); [reflexivity|].
  assert (Hf : String.eqb matchType "fuzzy" = false).
  { destruct (String.eqb_spec matchType "fuzzy") as [->|_]; [|reflexivity].
    exfalso. apply Hs. unfold strategyNames. simpl. tauto. }
  assert (Hm : matchFunction matchType = Own FSubstring).
  { unfold matchFunction, tableLookup.
    rewrite (existsb_eqb_false _ _ Ho), assoc_none; [reflexivity|exact Hs]. }
  induction fields as [|field fields IH]; simpl; [reflexivity|].
  rewrite Hf, Hm, IH. reflexivity.
Qed.

Lemma unknown_matchType_is_substring_witness :
  multiFieldSearch plainHost (titled "Fix bug") "BUG" ["title"] "regex"
  = multiFieldSearch plainHost (titled "Fix bug") "BUG" ["title"] "substring".
Proof.
  apply (unknown_matchType_is_substring plainHost (titled "Fix bug") "BUG"
           ["title"] "regex").
  - unfold strategyNames. simpl. intros H.
    repeat (destruct H as [H|H]; [discriminate H|]). exact H.
  - unfold objectPrototypeNames. simpl. intros H.
    repeat (destruct H as [H|H]; [discriminate H|]). exact H.
Defined.

(** X11. For a term of basic Latin characters without pattern syntax
    characters, a positive fuzzy score means that the characters of the
    term occur in the text, in their order, compared without case. *)
Theorem fuzzy_plain_term_subsequence (host : Host) (text term : string)
    (score : Q) :
  literalTerm term ->
  fuzzyMatch host text term = Normal score ->
  (0 < score)%Q ->
  spec_subsequence term text.
Proof.
  intros [Hp _] Hf Hpos. unfold fuzzyMatch in Hf. unfold spec_subsequence.
  destruct (String.eqb_spec (Str.toLowerCase text) (Str.toLowerCase term))
    as [->|_]; [reflexivity|].
  destruct (Str.includes (Str.toLowerCase text) (Str.toLowerCase term)) eqn:Hi;
    [now apply includes_sublist|].
  destruct (wordMatch_plain_includes host text term Hp) as [b [Hw Hb]].
  rewrite Hw in Hf. simpl in Hf.
  destruct b; [specialize (Hb eq_refl); congruence|].
  pose proof (fuzzyLoop_sublist (Str.chars (Str.toLowerCase term))
                (Str.chars (Str.toLowerCase text)) 0 0 (Nat.le_0_l _)) as Hl.
  destruct (fuzzyLoop _ _ 0 0) as [m i'].
  destruct (Nat.eqb_spec i' (String.length (Str.toLowerCase term))) as [E|_].
  - destruct Hl as [_ Hl]. rewrite drop_0, E, <- length_chars, firstn_all in Hl.
    exact Hl.
  - injection Hf as <-. now apply Qlt_irrefl in Hpos.
Qed.

Lemma fuzzy_plain_term_subsequence_witness :
  spec_subsequence "ACE" "abcde".
Proof.
  apply (fuzzy_plain_term_subsequence plainHost "abcde" "ACE" (3 # 5)).
  - split; [|reflexivity]. unfold plainTerm. simpl. repeat constructor.
  - reflexivity.
  - reflexivity.
Defined.

(** ** More on the search history *)

Section MoreHistoryFacts.
Import History.

Lemma apply_entries (h : list string) (o : op) (entry : string) :
  In entry (apply h o) -> In entry h \/ o = Add entry.
Proof.
  destruct o as [term|]; simpl; [|intros []].
  unfold addToSearchHistory. destruct (_ && _); [|auto].
  intros [<-|H]; [now right | left; now apply In_take in H].
Qed.

Lemma fold_apply_entries (ops : list op) : forall h entry,
  In entry (fold_left apply ops h) -> In entry h \/ In (Add entry) ops.
Proof.
  induction ops as [|o ops IH]; simpl; intros h entry H; [auto|].
  apply IH in H as [H|H]; [|auto].
  apply apply_entries in H as [H | ->]; auto.
Qed.

(** X12. After any sequence of additions and clearings the history holds
    no term twice, and every entry is a term that was added. *)
Theorem history_distinct_added (ops : list op) :
  NoDup (run ops)
  /\ Forall (fun entry => In (Add entry) ops) (run ops).
Proof.
  split.
  - assert (Hinv : historyInv (0 + length ops) (runStamped ops)).
    { apply historyInv_run. repeat split; simpl; try constructor; lia. }
    destruct Hinv as (_ & _ & Hnd & _).
    unfold runStamped in Hnd. rewrite runStampedFrom_erase in Hnd. exact Hnd.
  - rewrite List.Forall_forall. intros entry H.
    apply fold_apply_entries in H as [[]|H]. exact H.
Qed.

(** X13. Adding a non-empty term that the history does not hold puts it
    first, keeps the nine most recent entries in their order after it, and
    so drops the oldest entry of a full history. *)
Theorem history_add_fresh (term : string) (h : list string) :
  Str.truthy term = true ->
  ~ In term h ->
  addToSearchHistory term h = term :: take 9 h
  /\ (length h <= 9 -> addToSearchHistory term h = term :: h)
  /\ (length h = 10 -> addToSearchHistory term h = term :: removelast h).
Proof.
  intros Ht Hn. unfold addToSearchHistory. rewrite Ht.
  destruct (existsb (String.eqb term) h) eqn:He.
  { apply existsb_eqb_In in He. contradiction. }
  simpl. split; [reflexivity|]. split.
  - intros Hl. now rewrite take_ge by lia.
  - intros Hl. f_equal. rewrite removelast_firstn_len. now rewrite Hl.
Qed.

End MoreHistoryFacts.

Lemma history_add_fresh_witness :
  History.addToSearchHistory "k"
    ["j"; "i"; "h"; "g"; "f"; "e"; "d"; "c"; "b"; "a"]
  = ["k"; "j"; "i"; "h"; "g"; "f"; "e"; "d"; "c"; "b"].
Proof.
  destruct (history_add_fresh "k"
              ["j"; "i"; "h"; "g"; "f"; "e"; "d"; "c"; "b"; "a"])
    as (_ & _ & H).
  - reflexivity.
  - simpl. intros H. repeat (destruct H as [H|H]; [discriminate H|]). exact H.
  - exact (H eq_refl).
Defined.

(** ** Filter management *)

Section FilterFacts.

Lemma dropIndex_past {A} (prev : list A) : forall filterIndex i,
  filterIndex < i -> dropIndex filterIndex i prev = prev.
Proof.
  induction prev as [|x rest IH]; intros k i Hi; simpl; [reflexivity|].
  destruct (Nat.eqb_spec i k) as [E|_]; [lia|]. simpl. f_equal.
  apply IH. lia.
Qed.

Lemma dropIndex_spec {A} (prev : list A) : forall filterIndex i,
  i <= filterIndex ->
  dropIndex filterIndex i prev
  = (take (filterIndex - i) prev ++ drop (S (filterIndex - i)) prev)%list.
Proof.
  induction prev as [|x rest IH]; intros k i Hi; simpl.
  - now destruct (k - i).
  - destruct (Nat.eqb_spec i k) as [->|Hne]; simpl.
    + rewrite Nat.sub_diag. simpl. rewrite drop_0. apply dropIndex_past. lia.
    + rewrite (IH k (S i)) by lia.
      replace (k - i) with (S (k - S i)) by lia. reflexivity.
Qed.

(** X14. [removeFilter] removes the filter at the index and nothing else;
    an index past the end removes nothing, and removing the filter that
    [addFilter] has just appended gives the list back. *)
Theorem removeFilter_at_index (filterIndex : nat) (prev : list filter)
    (f : filter) :
  removeFilter filterIndex prev
  = (take filterIndex prev ++ drop (S filterIndex) prev)%list
  /\ (length prev <= filterIndex -> removeFilter filterIndex prev = prev)
  /\ removeFilter (length prev) (addFilter f prev) = prev.
Proof.
  assert (H : forall k l, removeFilter k l = (take k l ++ drop (S k) l)%list).
  { intros k l. unfold removeFilter. rewrite dropIndex_spec by lia.
    now rewrite Nat.sub_0_r. }
  split; [apply H|]. split.
  - intros Hl. rewrite H, take_ge, drop_ge by lia. apply app_nil_r.
  - rewrite H. unfold addFilter.
    rewrite take_app_length, drop_ge; [apply app_nil_r|].
    rewrite length_app. simpl. lia.
Qed.

End FilterFacts.

Lemma removeFilter_at_index_witness :
  removeFilter 5 [Filter "status" (VBool true)] = [Filter "status" (VBool true)].
Proof.
  destruct (removeFilter_at_index 5 [Filter "status" (VBool true)]
              (Filter "priority" (VStr "high"))) as (_ & H & _).
  apply H. simpl. lia.
Defined.

(** ** Suggestions *)

Section SuggestionFacts.

Lemma setAdd_facts (v : string) (set : list string) :
  (forall x, In x (setAdd v set) <-> In x set \/ x = v)
  /\ (NoDup set -> NoDup (setAdd v set))
  /\ length set <= length (setAdd v set) <= S (length set).
Proof.
  unfold setAdd. destruct (existsb (String.eqb v) set) eqn:He.
  - apply existsb_eqb_In in He. repeat split; auto; try lia.
    intros [H | ->]; auto.
  - assert (Hn : ~ In v set).
    { intros H. apply existsb_eqb_In in H. congruence. }
    repeat split.
    + intros H. apply in_app_or in H as [H|[<-|[]]]; auto.
    + intros [H | ->]; apply in_or_app; simpl; auto.
    + intros Hnd. apply NoDup_app. repeat split; [exact Hnd| |].
      * intros x Hx Hx'. apply list_elem_of_In in Hx, Hx'.
        destruct Hx' as [<-|[]]. contradiction.
      * apply NoDup_singleton.
    + rewrite length_app. simpl. lia.
    + rewrite length_app. simpl. lia.
Qed.

Lemma grows_refl (good : string -> Prop) (set : list string) :
  grows good set set.
Proof. repeat split; auto. Qed.

Lemma grows_trans (good : string -> Prop) (a b c : list string) :
  grows good a b -> grows good b c -> grows good a c.
Proof.
  intros (A1 & A2 & A3 & A4 & A5) (B1 & B2 & B3 & B4 & B5).
  repeat split; auto; [|lia].
  intros x Hx. apply B2 in Hx as [Hx|Hx]; auto.
Qed.

Lemma grows_weaken (good good' : string -> Prop) (a b : list string) :
  (forall x, good x -> good' x) -> grows good a b -> grows good' a b.
Proof.
  intros Hg (A1 & A2 & A3 & A4 & A5). repeat split; auto.
  intros x Hx. apply A2 in Hx as [Hx|Hx]; auto.
Qed.

Lemma suggestItems_grows (searchTerm field : string) (data : list record) :
  forall set,
  grows (fieldValue searchTerm field data) set
        (suggestItems searchTerm field data set)
  /\ (length (suggestItems searchTerm field data set) < maxSuggestions ->
      forall v, fieldValue searchTerm field data v ->
                In v (suggestItems searchTerm field data set)).
Proof.
  induction data as [|item rest IH]; intros set; cbn -[Nat.leb].
  - split; [apply grows_refl|]. intros _ v (? & [] & _).
  - destruct (Nat.leb_spec maxSuggestions (length set)) as [Hfull|Hroom].
    { split; [apply grows_refl | lia]. }
    set (set' := match nonEmptyString (get item field) with
                 | Some fieldValue =>
                     if Str.includes (Str.toLowerCase fieldValue)
                                     (Str.toLowerCase searchTerm)
                     then setAdd fieldValue set else set
                 | None => set
                 end).
    assert (Hstep : grows (fieldValue searchTerm field (item :: rest)) set set'
                    /\ forall v, nonEmptyString (get item field) = Some v ->
                                 substringMatch v searchTerm = true ->
                                 In v set').
    { subst set'. unfold substringMatch.
      destruct (nonEmptyString (get item field)) as [fv|] eqn:Hv.
      2: { split; [apply grows_refl | discriminate]. }
      destruct (Str.includes _ _) eqn:Hi.
      2: { split; [apply grows_refl|]. intros v [= <-]. congruence. }
      destruct (setAdd_facts fv set) as (H1 & H2 & H3).
      split.
      - split; [|split; [|split; [|split]]].
        + intros x Hx. apply H1. auto.
        + intros x Hx. apply H1 in Hx as [Hx | ->]; [now left|]. right.
          exists item. split; [now left|]. split; [exact Hv | exact Hi].
        + exact H2.
        + intros _. unfold maxSuggestions in *. lia.
        + lia.
      - intros v [= <-] _. apply H1. auto. }
    destruct Hstep as [Hg Hhead]. destruct (IH set') as [IHg IHc].
    split.
    + eapply grows_trans; [exact Hg|].
      eapply grows_weaken; [|exact IHg].
      intros x (it & Hin & Hx). exists it. simpl. auto.
    + intros Hlt v (it & [<-|Hin] & Hv & Hs).
      * destruct IHg as (G1 & _). apply G1. now apply Hhead.
      * apply IHc; [exact Hlt|]. exists it. auto.
Qed.

Lemma suggestFields_grows (searchTerm : string) (data : list record)
    (fields : list string) :
  forall set,
  grows (fun v => exists field, In field fields
                                /\ fieldValue searchTerm field data v)
        set (suggestFields searchTerm data fields set)
  /\ (length (suggestFields searchTerm data fields set) < maxSuggestions ->
      forall field v, In field fields -> fieldValue searchTerm field data v ->
                      In v (suggestFields searchTerm data fields set)).
Proof.
  induction fields as [|field rest IH]; intros set; cbn -[Nat.leb].
  - split; [apply grows_refl|]. intros _ ? ? [].
  - destruct (suggestItems_grows searchTerm field data set) as [Hg Hc].
    assert (Hg' : grows (fun v => exists f, In f (field :: rest)
                                   /\ fieldValue searchTerm f data v)
                    set (suggestItems searchTerm field data set)).
    { eapply grows_weaken; [|exact Hg]. intros x Hx. exists field.
      simpl. auto. }
    destruct (Nat.leb_spec maxSuggestions
                (length (suggestItems searchTerm field data set)))
      as [Hfull|Hroom].
    { split; [exact Hg' | lia]. }
    destruct (IH (suggestItems searchTerm field data set)) as [IHg IHc].
    split.
    + eapply grows_trans; [exact Hg'|].
      eapply grows_weaken; [|exact IHg].
      intros x (f & Hf & Hx). exists f. simpl. auto.
    + intros Hlt f v [<-|Hf] Hv.
      * destruct IHg as (G1 & _). apply G1. apply Hc; [exact Hroom|exact Hv].
      * now apply (IHc Hlt f v).
Qed.

(** X15. The suggestions are at most five distinct values, each the
    non-empty string value of a searchable field of a record of the
    collection that contains the term without regard to case; there is
    none for a term of fewer than two characters, and when fewer than five
    are returned every such value is among them. *)
Theorem suggestions_sound_complete (s : store) (searchTerm : string)
    (data : nat) (searchFields : list string) :
  length (suggestions s searchTerm data searchFields) <= 5
  /\ NoDup (suggestions s searchTerm data searchFields)
  /\ Forall (suggestible s searchTerm data searchFields)
            (suggestions s searchTerm data searchFields)
  /\ (String.length searchTerm < 2 ->
      suggestions s searchTerm data searchFields = [])
  /\ (2 <= String.length searchTerm ->
      length (suggestions s searchTerm data searchFields) < 5 ->
      forall v, suggestible s searchTerm data searchFields v ->
                In v (suggestions s searchTerm data searchFields)).
Proof.
  unfold suggestions.
  destruct (Nat.ltb_spec (String.length searchTerm) 2) as [Hshort|Hlong].
  { rewrite orb_true_r. repeat split; simpl; try constructor; try lia. }
  assert (Ht : Str.truthy searchTerm = true).
  { destruct searchTerm; [simpl in Hlong; lia | reflexivity]. }
  rewrite Ht. simpl.
  destruct (suggestFields_grows searchTerm
              (map (recordAt s) (arrayAt s data)) searchFields [])
    as [(_ & G2 & G3 & G4 & _) Hc].
  specialize (G4 (Nat.le_0_l _)). unfold maxSuggestions in *.
  rewrite take_ge by exact G4. repeat split.
  - exact G4.
  - apply G3. constructor.
  - rewrite List.Forall_forall. intros v Hv.
    apply G2 in Hv as [[]|(field & Hf & item & Hin & Hv & Hs)].
    apply in_map_iff in Hin as (loc & <- & Hloc).
    exists loc, field. auto.
  - lia.
  - intros _ Hlt v (loc & field & Hloc & Hf & Hv & Hs).
    apply (Hc Hlt field v Hf). exists (recordAt s loc).
    split; [|auto]. apply in_map_iff. eauto.
Qed.

End SuggestionFacts.

Lemma suggestions_sound_complete_witness :
  suggestions demoStore "b" 0 ["title"] = []
  /\ In "Fix bug" (suggestions demoStore "bug" 0 ["title"]).
Proof.
  destruct (suggestions_sound_complete demoStore "b" 0 ["title"])
    as (_ & _ & _ & Hshort & _).
  destruct (suggestions_sound_complete demoStore "bug" 0 ["title"])
    as (_ & _ & _ & _ & Hall).
  split.
  - apply Hshort. simpl. lia.
  - apply Hall; [simpl; lia | vm_compute; lia |].
    exists 1, "title". repeat split; simpl; auto.
Defined.

(** ** Highlighting *)

Section HighlightFacts.
Import Highlight.

Lemma suffix_cons (c : ascii) (s : string) (n : nat) :
  suffix (String c s) (S n) = suffix s n.
Proof. reflexivity. Qed.

Lemma suffix_0 (s : string) : suffix s 0 = s.
Proof. unfold suffix. rewrite drop_0. apply of_chars_chars. Qed.

Lemma startsWith_length (a b : string) :
  Str.startsWith a b = true -> String.length b <= String.length a.
Proof.
  revert a. induction b as [|y b IH]; intros a H; simpl; [lia|].
  destruct a as [|x a]; simpl in H; [discriminate|].
  apply andb_prop in H as [_ H]. apply IH in H. simpl. lia.
Qed.

Lemma indexFrom_Some (s t : string) : forall pos i,
  indexFrom s t pos = Some i ->
  pos <= i
  /\ (i - pos) + String.length t <= String.length s
  /\ Str.startsWith (suffix s (i - pos)) t = true.
Proof.
  induction s as [|c s IH]; intros pos i; simpl.
  - destruct (Str.startsWith EmptyString t) eqn:Hs; [|discriminate].
    intros [= <-]. rewrite Nat.sub_diag. split; [lia|].
    apply startsWith_length in Hs as Hl. simpl in Hl. split; [simpl; lia|].
    exact Hs.
  - destruct (Str.startsWith (String c s) t) eqn:Hs.
    + intros [= <-]. rewrite Nat.sub_diag. split; [lia|].
      apply startsWith_length in Hs as Hl. simpl in Hl.
      split; [simpl; lia|]. now rewrite suffix_0.
    + intros H. apply IH in H as (H1 & H2 & H3).
      replace (i - pos) with (S (i - S pos)) by lia.
      rewrite suffix_cons. repeat split; [lia | lia | exact H3].
Qed.

(** [indexFrom] and [includes] look for the same thing. *)
Lemma indexFrom_None (s t : string) : forall pos,
  indexFrom s t pos = None <-> Str.includes s t = false.
Proof.
  induction s as [|c s IH]; intros pos; simpl.
  - destruct (Str.startsWith EmptyString t); simpl; split;
      intros; congruence.
  - destruct (Str.startsWith (String c s) t); simpl.
    + split; intros; congruence.
    + apply IH.
Qed.

Lemma length_suffix (s : string) (n : nat) :
  String.length (suffix s n) = String.length s - n.
Proof.
  unfold suffix. rewrite <- length_chars, chars_of_chars, length_drop.
  now rewrite length_chars.
Qed.

Lemma suffix_suffix (s : string) (n m : nat) :
  suffix (suffix s n) m = suffix s (n + m).
Proof. unfold suffix. now rewrite chars_of_chars, drop_drop. Qed.

Lemma indexOf_Some (s t : string) (position i : nat) :
  position <= String.length s ->
  indexOf s t position = Some i ->
  position <= i
  /\ i + String.length t <= String.length s
  /\ Str.startsWith (suffix s i) t = true.
Proof.
  intros Hp. unfold indexOf. rewrite Nat.min_l by exact Hp. intros H.
  apply indexFrom_Some in H as (H1 & H2 & H3).
  rewrite length_suffix in H2. rewrite suffix_suffix in H3.
  replace (position + (i - position)) with i in H3 by lia.
  repeat split; [lia | lia | exact H3].
Qed.

Lemma chars_substring (s : string) (a b : nat) :
  a <= b -> b <= String.length s ->
  Str.chars (substring s a b) = take (b - a) (drop a (Str.chars s)).
Proof.
  intros Hab Hb. unfold substring. rewrite chars_of_chars.
  rewrite (Nat.min_l a), (Nat.min_l b) by lia.
  now rewrite Nat.min_l, Nat.max_r by lia.
Qed.

Lemma concat_empty_snoc (l : list string) (x : string) :
  String.concat EmptyString (l ++ [x])%list
  = (String.concat EmptyString l ++ x)%string.
Proof.
  induction l as [|y l IH].
  - simpl. reflexivity.
  - change ((y :: l) ++ [x])%list with (y :: (l ++ [x]))%list.
    rewrite !concat_empty_cons, IH. now rewrite append_assoc.
Qed.

Lemma chars_joined_snoc (parts : list part) (p : part) :
  Str.chars (joined (parts ++ [p])%list)
  = (Str.chars (joined parts) ++ Str.chars (partText p))%list.
Proof.
  unfold joined. rewrite map_app. simpl map.
  now rewrite concat_empty_snoc, chars_append.
Qed.

Lemma truthy_chars (s : string) :
  Str.truthy s = true <-> 0 < length (Str.chars s).
Proof. destruct s; simpl; split; intros; try lia; congruence. Qed.

(** A substring of the text at a position where the lower-cased text
    continues with the lower-cased term is the term up to case. *)
Lemma substring_matches (text term : string) (i : nat) :
  i + String.length (Str.toLowerCase term) <= String.length text ->
  Str.startsWith (suffix (Str.toLowerCase text) i) (Str.toLowerCase term)
  = true ->
  exactMatch
    (substring text i (i + String.length (Str.toLowerCase term))) term
  = true.
Proof.
  intros Hlen Hs. unfold exactMatch. apply String.eqb_eq. apply chars_inj.
  rewrite chars_toLowerCase, chars_substring by lia.
  replace (i + String.length (Str.toLowerCase term) - i)
    with (String.length (Str.toLowerCase term)) by lia.
  rewrite <- firstn_map, <- skipn_map, <- chars_toLowerCase.
  apply startsWith_iff in Hs as [post Hs].
  apply (f_equal Str.chars) in Hs. unfold suffix in Hs.
  rewrite chars_of_chars, chars_append in Hs. rewrite Hs.
  apply take_app_length'. now rewrite length_chars.
Qed.

(** The loop: with enough fuel it exits; it only appends parts, the parts
    put together are the text up to [lastIndex], and every part is good. *)
Lemma highlightLoop_spec (text term : string) :
  Str.truthy term = true ->
  forall fuel parts lastIndex index,
  lastIndex <= String.length text ->
  String.length text - lastIndex < fuel ->
  (forall i, index = Some i ->
     lastIndex <= i
     /\ i + String.length (Str.toLowerCase term) <= String.length text
     /\ Str.startsWith (suffix (Str.toLowerCase text) i)
          (Str.toLowerCase term) = true) ->
  Str.chars (joined parts) = take lastIndex (Str.chars text) ->
  Forall (goodPart term) parts ->
  exists more lastIndex',
    highlightLoop fuel text (Str.toLowerCase text) (Str.toLowerCase term)
      parts lastIndex index
    = Some ((parts ++ more)%list, lastIndex')
    /\ lastIndex' <= String.length text
    /\ Str.chars (joined (parts ++ more)%list)
       = take lastIndex' (Str.chars text)
    /\ Forall (goodPart term) (parts ++ more)%list
    /\ (forall i, index = Some i -> exists t, In (Highlighted t) more)
    /\ (index = None -> more = []).
Proof.
  intros Ht.
  assert (Hn : 1 <= String.length (Str.toLowerCase term)).
  { rewrite length_toLowerCase. destruct term; [discriminate|simpl; lia]. }
  induction fuel as [|fuel IH]; intros parts lastIndex index Hl Hf Hi Hj Hg;
    [lia|].
  destruct index as [i|]; simpl.
  2: { exists [], lastIndex. rewrite app_nil_r.
       repeat split; auto. discriminate. }
  destruct (Hi i eq_refl) as (Hli & Hin & Hs).
  set (n := String.length (Str.toLowerCase term)) in *.
  set (parts1 := if lastIndex <? i
                 then (parts ++ [Plain (substring text lastIndex i)])%list
                 else parts).
  assert (H1 : exists gap, parts1 = (parts ++ gap)%list
                /\ Str.chars (joined parts1) = take i (Str.chars text)
                /\ Forall (goodPart term) parts1).
  { subst parts1. destruct (Nat.ltb_spec lastIndex i) as [Hlt|Hge].
    - exists [Plain (substring text lastIndex i)]. split; [reflexivity|]. split.
      + rewrite chars_joined_snoc, Hj. simpl partText.
        rewrite chars_substring by lia. rewrite take_take_drop. f_equal. lia.
      + apply Forall_app. split; [exact Hg|]. constructor; [|constructor].
        simpl. apply truthy_chars. rewrite chars_substring by lia.
        rewrite length_take, length_drop, length_chars. lia.
    - exists []. rewrite app_nil_r. split; [reflexivity|].
      assert (lastIndex = i) as <- by lia. auto. }
  destruct H1 as (gap & Hgap & Hj1 & Hg1).
  destruct (IH (parts1 ++ [Highlighted (substring text i (i + n))])%list
              (i + n)
              (indexOf (Str.toLowerCase text) (Str.toLowerCase term) (i + n)))
    as (more & last' & Hrun & Hlast & Hjoin & Hgood & _).
  - exact Hin.
  - lia.
  - intros j Hj'. apply indexOf_Some in Hj' as (J1 & J2 & J3).
    + rewrite (length_toLowerCase text) in J2. fold n in J2.
      repeat split; [lia | exact J2 | exact J3].
    + rewrite length_toLowerCase. exact Hin.
  - rewrite chars_joined_snoc, Hj1. simpl partText.
    rewrite chars_substring by lia. rewrite take_take_drop. f_equal. lia.
  - apply Forall_app. split; [exact Hg1|]. constructor; [|constructor].
    simpl. now apply substring_matches.
  - exists (gap ++ Highlighted (substring text i (i + n)) :: more)%list, last'.
    assert (E : ((parts1 ++ [Highlighted (substring text i (i + n))]) ++ more
                 = parts ++ gap ++ Highlighted (substring text i (i + n))
                            :: more)%list).
    { rewrite Hgap, <- !app_assoc. reflexivity. }
    rewrite E in Hrun, Hjoin, Hgood.
    split; [exact Hrun|]. split; [exact Hlast|]. split; [exact Hjoin|].
    split; [exact Hgood|]. split; [|discriminate].
    intros _ _. eexists. apply in_or_app. right. now left.
Qed.

(** X16. The highlighting of a text is returned.  The parts put together
    are the text; for a non-empty term, a part is highlighted exactly when
    the text contains the term; and of a non-empty text of basic Latin
    characters no plain part is empty and every highlighted part is the
    term up to case. *)
Theorem highlight_round_trip (text term : string) :
  exists parts,
    highlightSearchTerm text term = Some parts
    /\ joined parts = text
    /\ (basicLatin text = true -> Str.truthy text = true ->
        Forall (goodPart term) parts)
    /\ (Str.truthy text = true -> Str.truthy term = true ->
        ((exists t, In (Highlighted t) parts)
         <-> substringMatch text term = true)).
Proof.
  unfold highlightSearchTerm. rewrite length_toLowerCase.
  destruct (Str.truthy text) eqn:Htext; simpl.
  2: { exists [Plain text]. repeat split; try discriminate. }
  destruct (Str.truthy term) eqn:Hterm; simpl.
  2: { exists [Plain text]. repeat split; try discriminate.
       intros _ _. repeat constructor. exact Htext. }
  destruct (highlightLoop_spec text term Hterm (S (String.length text)) [] 0
              (indexOf (Str.toLowerCase text) (Str.toLowerCase term) 0))
    as (more & last & Hrun & Hlast & Hjoin & Hgood & Hsome & Hnone).
  - lia.
  - lia.
  - intros i Hi. apply indexOf_Some in Hi as (J1 & J2 & J3); [|lia].
    rewrite (length_toLowerCase text) in J2. auto.
  - reflexivity.
  - constructor.
  - simpl in Hrun, Hjoin, Hgood. rewrite Hrun.
    assert (Hidx : indexOf (Str.toLowerCase text) (Str.toLowerCase term) 0
                   = None
                   <-> substringMatch text term = false).
    { unfold indexOf, substringMatch. simpl Nat.min. rewrite suffix_0.
      apply indexFrom_None. }
    assert (Hhl : (exists t, In (Highlighted t) more)
                  <-> substringMatch text term = true).
    { destruct (indexOf _ _ 0) as [i|] eqn:Hi.
      - split; [|intros _; now apply (Hsome i)].
        intros _. destruct (substringMatch text term); [reflexivity|].
        pose proof (proj2 Hidx eq_refl) as Hc. discriminate Hc.
      - rewrite (Hnone eq_refl). split; [intros [t []]|].
        intros H. rewrite (proj1 Hidx eq_refl) in H. discriminate. }
    destruct (Nat.ltb_spec last (String.length text)) as [Hlt|Hge].
    + eexists. split; [reflexivity|]. split; [|split].
      * apply chars_inj. rewrite chars_joined_snoc, Hjoin. simpl partText.
        rewrite chars_substring by lia.
        rewrite take_ge with (n := String.length text - last).
        2: { rewrite length_drop, length_chars. lia. }
        apply take_drop.
      * intros _ _. apply Forall_app. split; [exact Hgood|].
        constructor; [|constructor]. simpl. apply truthy_chars.
        rewrite chars_substring by lia.
        rewrite length_take, length_drop, length_chars. lia.
      * intros _ _. rewrite <- Hhl. split.
        -- intros [t Hin]. apply in_app_or in Hin as [Hin|[Hin|[]]];
             [eauto | discriminate].
        -- intros [t Hin]. exists t. apply in_or_app. now left.
    + eexists. split; [reflexivity|]. split; [|split].
      * apply chars_inj. rewrite Hjoin. apply take_ge.
        rewrite length_chars. lia.
      * intros _ _. exact Hgood.
      * intros _ _. exact Hhl.
Qed.

End HighlightFacts.

Lemma highlight_round_trip_witness :
  exists parts,
    Highlight.highlightSearchTerm "Fix the Bug, bugbug!" "bug" = Some parts
    /\ Highlight.joined parts = "Fix the Bug, bugbug!"
    /\ Forall (goodPart "bug") parts
    /\ exists t, In (Highlight.Highlighted t) parts.
Proof.
  destruct (highlight_round_trip "Fix the Bug, bugbug!" "bug")
    as (parts & H1 & H2 & H3 & H4).
  exists parts. split; [exact H1|]. split; [exact H2|].
  split; [exact (H3 eq_refl eq_refl)|]. now apply (H4 eq_refl eq_refl).
Defined.

(** ** The stages of the pipeline, one by one *)

Section StageFacts.
Variable host : Host.

Lemma sublist_In {A} (l1 l2 : list A) (x : A) :
  sublist l1 l2 -> In x l1 -> In x l2.
Proof.
  intros Hs Hx. apply list_elem_of_In. apply list_elem_of_In in Hx.
  eapply elem_of_sublist; eassumption.
Qed.

Lemma sublist_Forall' {A} (P : A -> Prop) (l1 l2 : list A) :
  sublist l1 l2 -> Forall P l2 -> Forall P l1.
Proof.
  intros Hs Hf. rewrite List.Forall_forall in *. intros x Hx.
  apply Hf. eapply sublist_In; eassumption.
Qed.

Lemma StronglySorted_sublist' {A} (R : A -> A -> Prop) (l1 l2 : list A) :
  sublist l1 l2 -> StronglySorted R l2 -> StronglySorted R l1.
Proof.
  induction 1 as [|x l1 l2 Hs IH|x l1 l2 Hs IH]; intros Hsorted.
  - constructor.
  - apply StronglySorted_inv in Hsorted as [H1 H2]. constructor; [auto|].
    eapply sublist_Forall'; eassumption.
  - apply StronglySorted_inv in Hsorted as [H1 H2]. auto.
Qed.

Lemma arrayAt_write (s : store) (a : nat) (elems : list nat) :
  a < length (arrays s) ->
  arrayAt (Store (records s) (<[a := elems]> (arrays s))) a = elems.
Proof.
  intros Ha. unfold arrayAt. simpl. now rewrite list_lookup_insert_eq.
Qed.

(** *** The comparators only read the store *)

Lemma readonly_byScore (a b : nat) : readonly (byScore a b).
Proof. intros s. reflexivity. Qed.

Lemma readonly_byTitle (a b : nat) : readonly (byTitle host a b).
Proof.
  intros s. unfold byTitle, mbind, M_bind, readRecord. simpl.
  now destruct (get (recordAt s a) "title").
Qed.

Lemma readonly_byRecent (a b : nat) : readonly (byRecent host a b).
Proof. intros s. reflexivity. Qed.

(** *** The stages that keep a part of the array *)

Lemma filterM_pure {A} (p : A -> bool) (l : list A) :
  filterM (fun x => Normal (p x)) l = Normal (List.filter p l).
Proof.
  induction l as [|x l IH]; simpl; [reflexivity|].
  unfold mbind, completion_bind in *. rewrite IH. now destruct (p x).
Qed.

(** The secondary filters never throw; they allocate the array of the
    records that pass every filter. *)
Lemma filterStage_eq (a : nat) (filters : list filter) (s : store) :
  filterStage host a filters s
  = (Store (records s)
       (arrays s
        ++ [List.filter
              (fun item => forallb (passesFilter host (recordAt s item)) filters)
              (arrayAt s a)]),
     Normal (length (arrays s))).
Proof.
  unfold filterStage, arrayFilter, mbind at 1, M_bind, readArray.
  unfold mbind at 1. unfold M_bind.
  rewrite (filterM_readonly _
             (fun item =>
                Normal (forallb (passesFilter host (recordAt s item)) filters)));
    [|reflexivity].
  now rewrite filterM_pure.
Qed.

Lemma filter_sublist {A} (p : A -> bool) (l : list A) :
  sublist (List.filter p l) l.
Proof.
  induction l as [|x l IH]; simpl; [constructor|].
  destruct (p x); [now apply sublist_skip | now apply sublist_cons].
Qed.

Lemma limitStage_sub (a : nat) (maxResults : option Z) (s s' : store)
    (b : nat) :
  a < length (arrays s) ->
  limitStage a maxResults s = (s', Normal b) ->
  records s' = records s
  /\ b < length (arrays s')
  /\ sublist (arrayAt s' b) (arrayAt s a).
Proof.
  intros Ha. unfold limitStage. destruct maxResults as [k|].
  2: { intros [= <- <-]. repeat split; [exact Ha | reflexivity]. }
  unfold mbind, M_bind, readArray.
  destruct (negb (k =? 0)%Z && _).
  - unfold arraySlice0, mbind, M_bind, readArray, allocArray.
    intros [= <- <-]. rewrite arrayAt_alloc. simpl.
    split; [reflexivity|]. split; [rewrite length_app; simpl; lia|].
    unfold slice0. destruct (k <? 0)%Z; apply sublist_take.
  - intros [= <- <-]. repeat split; [exact Ha | reflexivity].
Qed.

(** The engine's sort that returns has written its order into the array,
    and nothing else. *)
Lemma engineSort_spec (cmp : nat -> nat -> M Z) (a : nat) (s s' : store) :
  a < length (arrays s) ->
  engineSort host cmp a s = (s', Normal tt) ->
  records s' = records s
  /\ length (arrays s') = length (arrays s)
  /\ (forall b, b <> a -> arrayAt s' b = arrayAt s b)
  /\ sortOrder host (fun x y => (cmp x y s).2) (arrayAt s a)
     = Normal (arrayAt s' a).
Proof.
  intros Ha. unfold engineSort.
  destruct (sortOrder host _ _) as [sorted|e]; [|discriminate].
  unfold writeArray. intros [= <-]. simpl. rewrite length_insert.
  split; [reflexivity|]. split; [reflexivity|]. split.
  - intros b Hb. unfold arrayAt. simpl. now rewrite list_lookup_insert_ne.
  - now rewrite arrayAt_write by exact Ha.
Qed.

Lemma sortStage_keepsOrder (a : nat) (sortBy : string) (fields : list string)
    (s : store) :
  keepsOrder sortBy fields = true ->
  sortStage host a sortBy fields s = (s, Normal tt).
Proof.
  unfold keepsOrder, sortStage. intros H.
  apply andb_prop in H as [H1 H2].
  destruct (String.eqb sortBy "name" && _); [discriminate|].
  now destruct (String.eqb sortBy "recent").
Qed.

Lemma sortStage_perm (a : nat) (sortBy : string) (fields : list string)
    (s s' : store) :
  sortPermutes host ->
  a < length (arrays s) ->
  sortStage host a sortBy fields s = (s', Normal tt) ->
  records s' = records s
  /\ length (arrays s') = length (arrays s)
  /\ Permutation (arrayAt s' a) (arrayAt s a).
Proof.
  intros Hp Ha. unfold sortStage.
  destruct (String.eqb sortBy "name" && _).
  { intros H. apply engineSort_spec in H as (H1 & H2 & _ & H3); eauto. }
  destruct (String.eqb sortBy "recent").
  { intros H. apply engineSort_spec in H as (H1 & H2 & _ & H3); eauto. }
  intros [= <-]. auto.
Qed.

(** *** The ranking *)

Lemma recordAt_extends (s s' : store) (r : nat) :
  records s `prefix_of` records s' ->
  r < length (records s) ->
  recordAt s' r = recordAt s r.
Proof.
  intros [k Hk] Hr. unfold recordAt. rewrite Hk. now rewrite lookup_app_l.
Qed.

(** The copies: one new record per element, in the order of the elements;
    the arrays are not touched. *)
Lemma scoreCopies_spec (term : string) (fields : list string)
    (l : list nat) : forall s s' images,
  Forall (fun item => item < length (records s)) l ->
  mapM (scoreCopy host term fields) l s = (s', Normal images) ->
  arrays s' = arrays s
  /\ records s `prefix_of` records s'
  /\ length images = length l
  /\ Forall (fun copy => copy < length (records s')
                         /\ scoredCopyOf host s s' term fields l copy)
            images.
Proof.
  induction l as [|item l IH]; intros s s' images Hwf; simpl.
  - intros [= <- <-]. repeat split; [reflexivity | constructor].
  - unfold mbind at 1, M_bind.
    unfold scoreCopy at 1, mbind at 1, M_bind, readRecord, lift.
    unfold mbind at 1. unfold M_bind.
    destruct (scoreSearchResult host (recordAt s item) term fields)
      as [score|e] eqn:Hscore; [|discriminate].
    unfold allocRecord.
    set (s1 := Store (records s
                      ++ [<["_searchScore" := VNum score]> (recordAt s item)])
                     (arrays s)).
    unfold mbind, M_bind.
    destruct (mapM (scoreCopy host term fields) l s1) as [s2 [rest|e]] eqn:Hm;
      [|discriminate].
    intros [= <- <-].
    apply Forall_cons_1 in Hwf as [Hitem Hwf].
    assert (Hwf1 : Forall (fun item => item < length (records s1)) l).
    { eapply Forall_impl; [exact Hwf|]. subst s1. simpl. intros x Hx.
      rewrite length_app. simpl. lia. }
    destruct (IH s1 s2 rest Hwf1 Hm) as (A1 & A2 & A3 & A4).
    assert (Hpre : records s `prefix_of` records s1).
    { subst s1. simpl. now apply prefix_app_r. }
    assert (Hlen : length (records s1) <= length (records s2)).
    { now apply prefix_length. }
    assert (Hlen1 : length (records s1) = S (length (records s))).
    { subst s1. simpl. rewrite length_app. simpl. lia. }
    split; [exact A1|]. split; [now transitivity (records s1)|].
    split; [simpl; now rewrite A3|].
    constructor.
    + split; [lia|]. split; [lia|]. exists item, score.
      split; [now left|]. split; [exact Hscore|].
      rewrite (recordAt_extends s1 s2) by (assumption || lia).
      unfold recordAt at 1. subst s1. simpl.
      now rewrite list_lookup_middle.
    + eapply Forall_impl; [exact A4|]. simpl.
      intros copy (C1 & C2 & orig & sc & Hin & Hsc & Hrec).
      split; [exact C1|]. split; [lia|]. exists orig, sc.
      assert (Horig : orig < length (records s)).
      { rewrite List.Forall_forall in Hwf. auto. }
      rewrite (recordAt_extends s s1) in Hsc, Hrec by assumption.
      split; [now right|]. split; assumption.
Qed.

Lemma byScore_eq (a b : nat) (s : store) :
  byScore a b s
  = (s, Normal (searchScore (recordAt s b) - searchScore (recordAt s a))%Z).
Proof. reflexivity. Qed.

(** Sorting by [byScore] puts the scores in decreasing order. *)
Lemma insertM_byScore (s : store) (x : nat) (l : list nat) :
  StronglySorted (ranksBefore s) l ->
  exists l', insertM byScore x l s = (s, Normal l')
             /\ Permutation l' (x :: l)
             /\ StronglySorted (ranksBefore s) l'.
Proof.
  induction 1 as [|y l Hs IH Hy].
  - exists [x]. repeat split; [reflexivity | repeat constructor].
  - cbn [insertM]. unfold mbind at 1, M_bind. rewrite byScore_eq.
    destruct (Z.leb_spec (searchScore (recordAt s y)
                          - searchScore (recordAt s x)) 0) as [Hle|Hgt].
    + exists (x :: y :: l). split; [reflexivity|]. split; [reflexivity|].
      constructor; [now constructor|]. constructor.
      * unfold ranksBefore. lia.
      * eapply Forall_impl; [exact Hy|]. unfold ranksBefore. simpl.
        intros z Hz. lia.
    + destruct IH as (l' & Hrun & Hp & Hs'). unfold mbind, M_bind.
      rewrite Hrun.
      exists (y :: l'). split; [reflexivity|].
      split; [rewrite Hp; apply perm_swap|].
      constructor; [exact Hs'|].
      rewrite Hp. constructor; [unfold ranksBefore; lia | exact Hy].
Qed.

Lemma sortM_byScore (s : store) (l : list nat) :
  exists l', sortM byScore l s = (s, Normal l')
             /\ Permutation l' l
             /\ StronglySorted (ranksBefore s) l'.
Proof.
  induction l as [|x l (sorted & Hrun & Hp & Hs)].
  - exists []. repeat split; [reflexivity | constructor].
  - cbn [sortM]. unfold mbind, M_bind. rewrite Hrun.
    destruct (insertM_byScore s x sorted Hs) as (l' & -> & Hp' & Hs').
    exists l'. split; [reflexivity|]. split; [|exact Hs'].
    now rewrite Hp', Hp.
Qed.

(** The ranking stage: a new array of scored copies of the elements, in
    decreasing order of their scores. *)
Lemma rankStage_spec (term : string) (fields : list string) (a : nat)
    (s s' : store) (b : nat) :
  wellFormed s a ->
  rankStage host a term fields s = (s', Normal b) ->
  arrays s `prefix_of` arrays s'
  /\ records s `prefix_of` records s'
  /\ b < length (arrays s')
  /\ length (arrayAt s' b) = length (arrayAt s a)
  /\ StronglySorted (ranksBefore s') (arrayAt s' b)
  /\ Forall (fun copy => copy < length (records s')
                         /\ scoredCopyOf host s s' term fields (arrayAt s a)
                              copy)
            (arrayAt s' b).
Proof.
  intros Hwf. unfold rankStage, mbind at 1, M_bind.
  unfold arrayMap, mbind at 1, M_bind, readArray.
  unfold mbind at 1. unfold M_bind.
  destruct (mapM (scoreCopy host term fields) (arrayAt s a) s)
    as [s1 [images|e]] eqn:Hm; [|discriminate].
  destruct (scoreCopies_spec term fields _ _ _ _ Hwf Hm) as (A1 & A2 & A3 & A4).
  unfold allocArray. unfold mbind at 1. unfold M_bind.
  remember (Store (records s1) (arrays s1 ++ [images])) as s2 eqn:Hs2.
  unfold arraySort, mbind, M_bind, readArray.
  assert (Hat : arrayAt s2 (length (arrays s1)) = images).
  { subst s2. apply arrayAt_alloc. }
  rewrite Hat.
  destruct (sortM_byScore s2 images) as (sorted & -> & Hp & Hs).
  unfold writeArray. intros [= <- <-].
  assert (Hvalid : length (arrays s1) < length (arrays s2)).
  { subst s2. simpl. rewrite length_app. simpl. lia. }
  assert (Hrec : records s2 = records s1) by (subst s2; reflexivity).
  rewrite arrayAt_write by exact Hvalid. cbn [records arrays].
  split.
  { subst s2. simpl. rewrite A1. rewrite insert_app_r_alt by lia.
    now apply prefix_app_r. }
  split; [now rewrite Hrec|]. split; [rewrite length_insert; exact Hvalid|].
  split; [now rewrite Hp|]. split; [exact Hs|].
  rewrite Hp, Hrec. eapply Forall_impl; [exact A4|]. simpl.
  intros copy (C1 & C2 & orig & sc & Hin & Hsc & Hr).
  split; [exact C1|]. split; [exact C2|]. exists orig, sc.
  repeat split; assumption.
Qed.

End StageFacts.

(** ** The pipeline as a whole *)

Section PipelineFacts.
Variable host : Host.

Lemma M_bind_inv {A B} (m : M A) (k : A -> M B) (s s' : store) (b : B) :
  (m ≫= k) s = (s', Normal b) ->
  exists s1 a, m s = (s1, Normal a) /\ k a s1 = (s', Normal b).
Proof.
  unfold mbind, M_bind. destruct (m s) as [s1 [a|e]]; [eauto|discriminate].
Qed.

(** A run of the pipeline that returns went through its stages. *)
Lemma sortedMatches_stages (data : nat) (term : string)
    (filters : list filter) (fields : list string) (matchType : string)
    (rankResults : bool) (sortBy : string) (s s' : store) (b : nat) :
  sortedMatches host data term filters fields matchType rankResults sortBy s
  = (s', Normal b) ->
  let s1 := Store (records s) (arrays s ++ [arrayAt s data]) in
  let a1 := length (arrays s) in
  exists s2 a2 s3,
    (if Str.truthy term && (0 <? length fields)
     then exists sT aT,
            textStage host a1 (Tokenizer.parseSearchQuery term) fields
              matchType s1 = (sT, Normal aT)
            /\ (if rankResults
                then rankStage host aT term fields sT = (s2, Normal a2)
                else (s2, a2) = (sT, aT))
     else (s2, a2) = (s1, a1))
    /\ (if 0 <? length filters
        then filterStage host a2 filters s2 = (s3, Normal b)
        else (s3, b) = (s2, a2))
    /\ sortStage host b sortBy fields s3 = (s', Normal tt).
Proof.
  unfold sortedMatches. intros H.
  apply M_bind_inv in H as (s1 & a1 & Hspread & H).
  apply M_bind_inv in H as (s2 & a2 & Htext & H).
  apply M_bind_inv in H as (s3 & a3 & Hfilter & H).
  apply M_bind_inv in H as (s4 & [] & Hsort & H).
  injection H as <- <-. injection Hspread as <- <-.
  exists s2, a2, s3. split; [|split; [|exact Hsort]].
  - destruct (Str.truthy term && (0 <? length fields)).
    + apply M_bind_inv in Htext as (sT & aT & HT & Htext).
      exists sT, aT. split; [exact HT|].
      destruct rankResults; [exact Htext|].
      now injection Htext as <- <-.
    + now injection Htext as <- <-.
  - destruct (0 <? length filters); [exact Hfilter|].
    now injection Hfilter as <- <-.
Qed.

Lemma scoreCopies_arrays (term : string) (fields : list string)
    (l : list nat) : forall s s' images,
  mapM (scoreCopy host term fields) l s = (s', Normal images) ->
  arrays s' = arrays s /\ length images = length l.
Proof.
  induction l as [|item l IH]; intros s s' images; simpl.
  - now intros [= <- <-].
  - unfold mbind at 1, M_bind.
    unfold scoreCopy at 1, mbind at 1, M_bind, readRecord, lift.
    unfold mbind at 1. unfold M_bind.
    destruct (scoreSearchResult host (recordAt s item) term fields)
      as [score|e]; [|discriminate].
    unfold allocRecord. unfold mbind, M_bind.
    destruct (mapM (scoreCopy host term fields) l _) as [s2 [rest|e]] eqn:Hm;
      [|discriminate].
    intros [= <- <-]. destruct (IH _ _ _ Hm) as [A1 A2].
    split; [exact A1 | simpl; now rewrite A2].
Qed.

Lemma rankStage_length (term : string) (fields : list string) (a : nat)
    (s s' : store) (b : nat) :
  rankStage host a term fields s = (s', Normal b) ->
  b < length (arrays s')
  /\ length (arrayAt s' b) = length (arrayAt s a).
Proof.
  unfold rankStage, mbind at 1, M_bind.
  unfold arrayMap, mbind at 1, M_bind, readArray.
  unfold mbind at 1. unfold M_bind.
  destruct (mapM (scoreCopy host term fields) (arrayAt s a) s)
    as [s1 [images|e]] eqn:Hm; [|discriminate].
  destruct (scoreCopies_arrays term fields _ _ _ _ Hm) as (A1 & A3).
  unfold allocArray. unfold mbind at 1. unfold M_bind.
  remember (Store (records s1) (arrays s1 ++ [images])) as s2 eqn:Hs2.
  unfold arraySort, mbind, M_bind, readArray.
  assert (Hat : arrayAt s2 (length (arrays s1)) = images).
  { subst s2. apply arrayAt_alloc. }
  rewrite Hat.
  destruct (sortM_byScore s2 images) as (sorted & -> & Hp & Hs).
  unfold writeArray. intros [= <- <-].
  assert (Hvalid : length (arrays s1) < length (arrays s2)).
  { subst s2. simpl. rewrite length_app. simpl. lia. }
  rewrite arrayAt_write by exact Hvalid. cbn [records arrays].
  split; [rewrite length_insert; exact Hvalid | now rewrite Hp].
Qed.

Lemma textStage_sub (a : nat) (tokens fields : list string)
    (matchType : string) (s s' : store) (b : nat) :
  textStage host a tokens fields matchType s = (s', Normal b) ->
  records s' = records s
  /\ b < length (arrays s')
  /\ sublist (arrayAt s' b) (arrayAt s a).
Proof.
  rewrite textStage_eq. destruct (filterM _ _) as [kept|e] eqn:Hk;
    [|discriminate].
  intros [= <- <-]. rewrite arrayAt_alloc. simpl.
  split; [reflexivity|]. split; [rewrite length_app; simpl; lia|].
  now destruct (filterM_spec _ _ _ Hk).
Qed.

(** X17. On an engine whose sort rearranges the array, an evaluation that
    returns never counts more results than the collection has records, and
    its count is the length of the array it returns. *)
Theorem evaluate_count_bound (startTime endTime : Q) (data : nat)
    (term : string) (filters : list filter) (fields : list string)
    (matchType : string) (rankResults : bool) (sortBy : string)
    (maxResults : option Z) (s s' : store) (r : searchResult) :
  sortPermutes host ->
  evaluate host startTime endTime data term filters fields matchType
    rankResults sortBy maxResults s = (s', Normal r) ->
  resultCount r = length (arrayAt s' (results r))
  /\ resultCount r <= length (arrayAt s data).
Proof.
  intros Hperm.
  unfold evaluate. destruct (negb (Str.truthy term) && _).
  { intros [= <- <-]. simpl. auto. }
  unfold mbind at 1. unfold M_bind.
  destruct (sortedMatches host data term filters fields matchType rankResults
              sortBy s) as [s4 [b|e]] eqn:Hsm; [|discriminate].
  unfold mbind at 1. unfold M_bind.
  destruct (limitStage b maxResults s4) as [s5 [c|e]] eqn:Hlim; [|discriminate].
  intros [= <- <-]. simpl. split; [reflexivity|].
  apply sortedMatches_stages in Hsm as (s2 & a2 & s3 & Htext & Hfilter & Hsort).
  set (s1 := Store (records s) (arrays s ++ [arrayAt s data])) in *.
  assert (H1 : length (arrays s) < length (arrays s1)
               /\ length (arrayAt s1 (length (arrays s)))
                  <= length (arrayAt s data)).
  { subst s1. rewrite arrayAt_alloc. simpl. rewrite length_app. simpl. lia. }
  assert (H2 : a2 < length (arrays s2)
               /\ length (arrayAt s2 a2) <= length (arrayAt s data)).
  { destruct (Str.truthy term && (0 <? length fields)).
    - destruct Htext as (sT & aT & HT & Hrank).
      apply textStage_sub in HT as (_ & T2 & T3). apply sublist_length in T3.
      destruct rankResults.
      + apply rankStage_length in Hrank as [R1 R2]. split; [exact R1 | lia].
      + injection Hrank as -> ->. split; [exact T2 | lia].
    - now injection Htext as -> ->. }
  assert (H3 : b < length (arrays s3)
               /\ length (arrayAt s3 b) <= length (arrayAt s data)).
  { destruct (0 <? length filters).
    - rewrite filterStage_eq in Hfilter. injection Hfilter as <- <-.
      rewrite arrayAt_alloc. simpl. split; [rewrite length_app; simpl; lia|].
      pose proof (sublist_length _ _
                    (filter_sublist
                       (fun item =>
                          forallb (passesFilter host (recordAt s2 item)) filters)
                       (arrayAt s2 a2))).
      lia.
    - now injection Hfilter as -> ->. }
  destruct H3 as [H3 H3'].
  apply sortStage_perm in Hsort as (_ & S2 & S3); [|exact Hperm|exact H3].
  apply Permutation_length in S3.
  apply limitStage_sub in Hlim as (_ & _ & L3); [|lia].
  apply sublist_length in L3. lia.
Qed.

End PipelineFacts.

Section PipelineResults.
Variable host : Host.

Lemma evaluate_inv (startTime endTime : Q) (data : nat) (term : string)
    (filters : list filter) (fields : list string) (matchType : string)
    (rankResults : bool) (sortBy : string) (maxResults : option Z)
    (s s' : store) (r : searchResult) :
  negb (Str.truthy term) && (length filters =? 0) = false ->
  evaluate host startTime endTime data term filters fields matchType
    rankResults sortBy maxResults s = (s', Normal r) ->
  exists s4 b,
    sortedMatches host data term filters fields matchType rankResults sortBy s
    = (s4, Normal b)
    /\ limitStage b maxResults s4 = (s', Normal (results r)).
Proof.
  intros Hc. unfold evaluate. rewrite Hc. intros H.
  apply M_bind_inv in H as (s4 & b & Hsm & H).
  apply M_bind_inv in H as (s5 & c & Hlim & H).
  apply M_bind_inv in H as (s6 & elems & Hread & H).
  injection Hread as <- <-. injection H as <- <-. simpl. eauto.
Qed.

(** X18. Without ranking, an evaluation that returns allocates no record,
    and on an engine whose sort rearranges the array every result is a
    record of the caller's collection itself; when the sorting stage sorts
    nothing, the results are in the order of the collection. *)
Theorem evaluate_unranked_results (startTime endTime : Q) (data : nat)
    (term : string) (filters : list filter) (fields : list string)
    (matchType : string) (sortBy : string) (maxResults : option Z)
    (s s' : store) (r : searchResult) :
  evaluate host startTime endTime data term filters fields matchType false
    sortBy maxResults s = (s', Normal r) ->
  records s' = records s
  /\ (sortPermutes host ->
      forall item, In item (arrayAt s' (results r)) -> In item (arrayAt s data))
  /\ (keepsOrder sortBy fields = true ->
      sublist (arrayAt s' (results r)) (arrayAt s data)).
Proof.
  destruct (negb (Str.truthy term) && (length filters =? 0)) eqn:Hc.
  { unfold evaluate. rewrite Hc. intros [= <- <-]. simpl. auto. }
  intros H. apply (evaluate_inv _ _ _ _ _ _ _ _ _ _ _ _ _ Hc) in H
    as (s4 & b & Hsm & Hlim).
  apply sortedMatches_stages in Hsm as (s2 & a2 & s3 & Htext & Hfilter & Hsort).
  set (s1 := Store (records s) (arrays s ++ [arrayAt s data])) in *.
  assert (H2 : records s2 = records s /\ a2 < length (arrays s2)
               /\ sublist (arrayAt s2 a2) (arrayAt s data)).
  { destruct (Str.truthy term && (0 <? length fields)).
    - destruct Htext as (sT & aT & HT & [= -> ->]).
      apply textStage_sub in HT as (T1 & T2 & T3).
      split; [exact T1|]. split; [exact T2|]. subst s1.
      now rewrite arrayAt_alloc in T3.
    - injection Htext as -> ->. subst s1. rewrite arrayAt_alloc. simpl.
      repeat split; auto. rewrite length_app. simpl. lia. }
  destruct H2 as (R2 & V2 & I2).
  assert (H3 : records s3 = records s /\ b < length (arrays s3)
               /\ sublist (arrayAt s3 b) (arrayAt s data)).
  { destruct (0 <? length filters).
    - rewrite filterStage_eq in Hfilter. injection Hfilter as <- <-.
      rewrite arrayAt_alloc. simpl. split; [exact R2|].
      split; [rewrite length_app; simpl; lia|].
      etransitivity; [apply filter_sublist | exact I2].
    - now injection Hfilter as -> ->. }
  destruct H3 as (R3 & V3 & I3).
  assert (R4 : records s4 = records s3 /\ b < length (arrays s4)).
  { unfold sortStage in Hsort.
    destruct (String.eqb sortBy "name" && _).
    { apply engineSort_spec in Hsort as (H1 & H2 & _); [|exact V3].
      split; [exact H1 | now rewrite H2]. }
    destruct (String.eqb sortBy "recent").
    { apply engineSort_spec in Hsort as (H1 & H2 & _); [|exact V3].
      split; [exact H1 | now rewrite H2]. }
    injection Hsort as <-. auto. }
  destruct R4 as [R4 V4].
  apply limitStage_sub in Hlim as (R5 & _ & L5); [|exact V4].
  split; [congruence|]. split.
  - intros Hperm item Hin.
    apply sortStage_perm in Hsort as (_ & _ & P4); [|exact Hperm|exact V3].
    apply (sublist_In _ _ _ L5) in Hin. apply (sublist_In _ _ _ I3).
    eapply Permutation_in; eassumption.
  - intros Hk. rewrite (sortStage_keepsOrder host b sortBy fields s3 Hk) in Hsort.
    injection Hsort as <-. now transitivity (arrayAt s3 b).
Qed.

Lemma sortStage_relevance (a : nat) (fields : list string) (s : store) :
  sortStage host a "relevance" fields s = (s, Normal tt).
Proof. reflexivity. Qed.

Lemma arrayAt_snoc (rs : list record) (arrs : list (list nat))
    (elems : list nat) :
  arrayAt (Store rs (arrs ++ [elems])) (length arrs) = elems.
Proof. unfold arrayAt. simpl. now rewrite list_lookup_middle. Qed.

(** X19. With an empty term and at least one filter, in relevance order and
    without limit, the evaluation returns, in the order of the collection,
    exactly the records that pass every filter. *)
Theorem evaluate_filters_only (startTime endTime : Q) (data : nat)
    (filters : list filter) (fields : list string) (matchType : string)
    (rankResults : bool) (s : store) :
  filters <> [] ->
  exists s' r,
    evaluate host startTime endTime data EmptyString filters fields matchType
      rankResults "relevance" None s = (s', Normal r)
    /\ records s' = records s
    /\ arrayAt s' (results r)
       = List.filter
           (fun item => forallb (passesFilter host (recordAt s item)) filters)
           (arrayAt s data)
    /\ resultCount r = length (arrayAt s' (results r)).
Proof.
  intros Hf. destruct filters as [|f filters']; [congruence|].
  unfold evaluate, sortedMatches.
  cbn [Str.truthy negb andb length Nat.ltb Nat.leb Nat.eqb].
  unfold arraySpread, mbind, M_bind, readArray, allocArray.
  cbn [mret M_ret]. rewrite filterStage_eq, sortStage_relevance.
  cbn [mret M_ret limitStage records arrays].
  eexists _, _. split; [reflexivity|]. cbn [results resultCount records].
  rewrite !arrayAt_snoc. repeat split.
Qed.

Lemma sorted_records (s s' : store) (l : list nat) :
  records s' = records s ->
  StronglySorted (ranksBefore s) l -> StronglySorted (ranksBefore s') l.
Proof.
  intros Hr. unfold ranksBefore, recordAt. now rewrite Hr.
Qed.

Lemma scoredCopyOf_records (s0 s s' : store) (term : string)
    (fields : list string) (candidates : list nat) (copy : nat) :
  records s' = records s ->
  scoredCopyOf host s0 s term fields candidates copy ->
  scoredCopyOf host s0 s' term fields candidates copy.
Proof.
  intros Hr. unfold scoredCopyOf, recordAt. now rewrite Hr.
Qed.

(** X20. With a non-empty term and search fields, with ranking and in
    relevance order, the results of an evaluation that returns are copies
    allocated by the evaluation: each is a record of the collection with its
    [scoreSearchResult] for the term added as [_searchScore], and they are
    returned in decreasing order of that score. *)
Theorem evaluate_ranked_results (startTime endTime : Q) (data : nat)
    (term : string) (filters : list filter) (fields : list string)
    (matchType : string) (maxResults : option Z) (s s' : store)
    (r : searchResult) :
  wellFormed s data ->
  Str.truthy term = true ->
  fields <> [] ->
  evaluate host startTime endTime data term filters fields matchType true
    "relevance" maxResults s = (s', Normal r) ->
  StronglySorted (ranksBefore s') (arrayAt s' (results r))
  /\ Forall (scoredCopyOf host s s' term fields (arrayAt s data))
            (arrayAt s' (results r)).
Proof.
  intros Hwf Ht Hfields H.
  assert (Hc : negb (Str.truthy term) && (length filters =? 0) = false)
    by now rewrite Ht.
  apply (evaluate_inv _ _ _ _ _ _ _ _ _ _ _ _ _ Hc) in H
    as (s4 & b & Hsm & Hlim).
  apply sortedMatches_stages in Hsm as (s2 & a2 & s3 & Htext & Hfilter & Hsort).
  set (s1 := Store (records s) (arrays s ++ [arrayAt s data])) in *.
  rewrite Ht in Htext. destruct fields as [|f fields']; [congruence|].
  cbn [length Nat.ltb Nat.leb andb] in Htext.
  destruct Htext as (sT & aT & HT & Hrank).
  apply textStage_sub in HT as (T1 & T2 & T3).
  assert (Hsub : sublist (arrayAt sT aT) (arrayAt s data)).
  { subst s1. now rewrite arrayAt_alloc in T3. }
  assert (HwfT : wellFormed sT aT).
  { unfold wellFormed in *. rewrite T1. subst s1. simpl.
    eapply sublist_Forall'; eassumption. }
  apply rankStage_spec in Hrank as (_ & _ & V2 & _ & S2 & C2); [|exact HwfT].
  assert (C2' : Forall (scoredCopyOf host s s2 term (f :: fields')
                          (arrayAt s data)) (arrayAt s2 a2)).
  { eapply Forall_impl; [exact C2|]. simpl.
    intros copy (_ & Hlen & orig & sc & Hin & Hsc & Hrec).
    assert (E : recordAt sT orig = recordAt s orig).
    { unfold recordAt. rewrite T1. reflexivity. }
    rewrite E in Hsc, Hrec. split.
    - rewrite T1 in Hlen. exact Hlen.
    - exists orig, sc. split; [|auto]. eapply sublist_In; eassumption. }
  assert (H3 : records s3 = records s2 /\ b < length (arrays s3)
               /\ sublist (arrayAt s3 b) (arrayAt s2 a2)).
  { destruct (0 <? length filters).
    - rewrite filterStage_eq in Hfilter. injection Hfilter as <- <-.
      rewrite arrayAt_alloc. simpl. split; [reflexivity|].
      split; [rewrite length_app; simpl; lia | apply filter_sublist].
    - injection Hfilter as -> ->. repeat split; [exact V2 | reflexivity]. }
  destruct H3 as (R3 & V3 & L3).
  rewrite sortStage_relevance in Hsort. injection Hsort as <-.
  apply limitStage_sub in Hlim as (R5 & _ & L5); [|exact V3].
  assert (Hrec : records s' = records s2) by congruence.
  assert (Hl : sublist (arrayAt s' (results r)) (arrayAt s2 a2)).
  { now transitivity (arrayAt s3 b). }
  split.
  - apply (sorted_records s2 s' _ Hrec).
    eapply StronglySorted_sublist'; eassumption.
  - eapply sublist_Forall'; [exact Hl|].
    eapply Forall_impl; [exact C2'|]. intros copy.
    now apply scoredCopyOf_records.
Qed.

End PipelineResults.

(** The insertion sort of [plainHost] rearranges. *)
Lemma insertBefore_perm (cmp : nat -> nat -> completion Z) (x : nat)
    (before : list nat) :
  forall before',
  insertBefore cmp x before = Normal before' ->
  Permutation before' (x :: before).
Proof.
  induction before as [|y before IH]; simpl; intros before' H.
  - now injection H as <-.
  - unfold mbind, completion_bind in H.
    destruct (cmp x y) as [c|e]; [|discriminate].
    destruct (c <? 0)%Z; [|now injection H as <-].
    destruct (insertBefore cmp x before) as [rest|e]; [|discriminate].
    injection H as <-. rewrite (IH rest eq_refl). apply perm_swap.
Qed.

Lemma sortFrom_perm (cmp : nat -> nat -> completion Z) (elems : list nat) :
  forall before sorted,
  sortFrom cmp before elems = Normal sorted ->
  Permutation sorted (before ++ elems).
Proof.
  induction elems as [|x elems IH]; simpl; intros before sorted H.
  - injection H as <-. rewrite app_nil_r. symmetry. apply Permutation_rev.
  - unfold mbind, completion_bind in H.
    destruct (insertBefore cmp x before) as [before'|e] eqn:Hi; [|discriminate].
    rewrite (IH before' sorted H), (insertBefore_perm cmp x before _ Hi).
    simpl. apply Permutation_middle.
Qed.

Lemma plainHost_sortPermutes : sortPermutes plainHost.
Proof. intros cmp elems sorted H. now apply sortFrom_perm in H. Qed.

Lemma evaluate_count_bound_witness :
  exists s' r,
    evaluate plainHost 0 1 0 "bug" [Filter "status" VUndefined] ["title"]
      "fuzzy" true "name" (Some 5%Z) demoStore = (s', Normal r)
    /\ resultCount r = length (arrayAt s' (results r))
    /\ resultCount r <= length (arrayAt demoStore 0).
Proof.
  destruct (evaluate plainHost 0 1 0 "bug" [Filter "status" VUndefined]
              ["title"] "fuzzy" true "name" (Some 5%Z) demoStore)
    as [s' [r|e]] eqn:E.
  - exists s', r. split; [reflexivity|].
    exact (evaluate_count_bound plainHost _ _ _ _ _ _ _ _ _ _ _ _ _
             plainHost_sortPermutes E).
  - vm_compute in E. discriminate E.
Defined.

Lemma evaluate_unranked_results_witness :
  exists s' r,
    evaluate plainHost 0 1 0 "bug" [] ["title"] "substring" false "recent"
      (Some 1%Z) demoStore = (s', Normal r)
    /\ records s' = records demoStore
    /\ forall item, In item (arrayAt s' (results r)) ->
                    In item (arrayAt demoStore 0).
Proof.
  destruct (evaluate plainHost 0 1 0 "bug" [] ["title"] "substring" false
              "recent" (Some 1%Z) demoStore) as [s' [r|e]] eqn:E.
  - exists s', r. split; [reflexivity|].
    destruct (evaluate_unranked_results plainHost _ _ _ _ _ _ _ _ _ _ _ _ E)
      as (H1 & H2 & _).
    split; [exact H1 | exact (H2 plainHost_sortPermutes)].
  - vm_compute in E. discriminate E.
Defined.

Lemma evaluate_filters_only_witness :
  exists s' r,
    evaluate plainHost 0 1 0 EmptyString [Filter "priority" (VStr "high")]
      ["title"] "substring" true "relevance" None demoStore = (s', Normal r)
    /\ records s' = records demoStore
    /\ arrayAt s' (results r)
       = List.filter
           (fun item =>
              forallb (passesFilter plainHost (recordAt demoStore item))
                      [Filter "priority" (VStr "high")])
           (arrayAt demoStore 0)
    /\ resultCount r = length (arrayAt s' (results r)).
Proof.
  apply (evaluate_filters_only plainHost 0 1 0
           [Filter "priority" (VStr "high")] ["title"] "substring" true
           demoStore).
  discriminate.
Defined.

Lemma evaluate_ranked_results_witness :
  exists s' r,
    evaluate plainHost 0 1 0 "bug" [] ["title"] "substring" true "relevance"
      None demoStore = (s', Normal r)
    /\ StronglySorted (ranksBefore s') (arrayAt s' (results r))
    /\ Forall (scoredCopyOf plainHost demoStore s' "bug" ["title"]
                 (arrayAt demoStore 0))
              (arrayAt s' (results r)).
Proof.
  destruct (evaluate plainHost 0 1 0 "bug" [] ["title"] "substring" true
              "relevance" None demoStore) as [s' [r|e]] eqn:E.
  - exists s', r. split; [reflexivity|].
    apply (evaluate_ranked_results plainHost 0 1 0 "bug" [] ["title"]
             "substring" None demoStore s' r).
    + unfold wellFormed. simpl. repeat constructor.
    + reflexivity.
    + discriminate.
    + exact E.
  - vm_compute in E. discriminate E.
Defined.

(** ** Edge cases of matching *)

Section EdgeFacts.
Variable host : Host.

Lemma fieldLoop_no_strings (item : record) (term matchType : string)
    (fields : list string) :
  Forall (fun field => nonEmptyString (get item field) = None) fields ->
  fieldLoop host item term matchType fields = Normal None.
Proof.
  induction 1 as [|field fields Hf _ IH]; simpl; [reflexivity|].
  now rewrite Hf.
Qed.

Lemma scoreLoop_no_strings (item : record) (term lowerTerm : string)
    (fields : list string) (score : Z) :
  Forall (fun field => nonEmptyString (get item field) = None) fields ->
  scoreLoop host item term lowerTerm score fields = Normal score.
Proof.
  induction 1 as [|field fields Hf _ IH]; simpl; [reflexivity|].
  unfold scoreStep. rewrite Hf. simpl. exact IH.
Qed.

(** X21. A record none of whose searchable fields holds a non-empty string
    is not an error: whatever the term and the match type, it does not
    match and its score is 0. *)
Theorem record_without_strings (item : record) (term : string)
    (fields : list string) (matchType : string) :
  Forall (fun field => nonEmptyString (get item field) = None) fields ->
  multiFieldSearch host item term fields matchType = Normal None
  /\ scoreSearchResult host item term fields = Normal 0%Z.
Proof.
  intros H. split.
  - unfold multiFieldSearch. destruct (_ || _); [reflexivity|].
    now apply fieldLoop_no_strings.
  - unfold scoreSearchResult. destruct (negb _); [reflexivity|].
    now apply scoreLoop_no_strings.
Qed.

(** X22. For a term of basic Latin characters without pattern syntax
    characters the whole-word strategy is stricter than the substring
    strategy: a record found under [word] is found under [substring]. *)
Theorem word_implies_substring (item : record) (term : string)
    (fields : list string) :
  literalTerm term ->
  findsMatch host item term fields "word" ->
  findsMatch host item term fields "substring".
Proof.
  intros [Hp _] H. apply findsMatch_tokenMatches in H as [Ht Hm].
  apply tokenMatches_findsMatch; [exact Ht| |].
  - revert Hm. apply tokenMatches_impl. intros value Hv.
    unfold fieldMatches in *. simpl in *.
    destruct (wordMatch_plain_includes host value term Hp) as [b [Hw Hb]].
    rewrite Hw in Hv. injection Hv as ->. unfold substringMatch.
    now rewrite (Hb eq_refl).
  - apply fieldLoop_returns_bool. simpl. auto.
Qed.

Lemma spec_scan_spaces (rest : list ascii) :
  Forall (fun c => c = Tokenizer.space) rest ->
  Tokenizer.spec_scan false EmptyString rest = [].
Proof.
  induction 1 as [|c rest -> _ IH]; [reflexivity|].
  simpl. exact IH.
Qed.

Lemma filterM_all {A} (l : list A) :
  filterM (fun _ : A => Normal true) l = Normal l.
Proof.
  rewrite (filterM_pure (fun _ => true)). f_equal.
  induction l as [|x l IH]; simpl; congruence.
Qed.

(** X23. A term made of spaces only is not empty, so the evaluation is not
    the short circuit, but it has no token: without ranking, filters,
    re-sorting and limit the evaluation returns a copy of the whole
    collection, with [searched] true and no term counted. *)
Theorem blank_term_keeps_all (startTime endTime : Q) (data : nat)
    (term : string) (fields : list string) (matchType : string) (s : store) :
  Str.truthy term = true ->
  Forall (fun c => c = Tokenizer.space) (Str.chars term) ->
  fields <> [] ->
  exists s' r,
    evaluate host startTime endTime data term [] fields matchType false
      "relevance" None s = (s', Normal r)
    /\ arrayAt s' (results r) = arrayAt s data
    /\ resultCount r = length (arrayAt s data)
    /\ searched (stats r) = true
    /\ termsCount (stats r) = 0.
Proof.
  intros Ht Hsp Hf.
  assert (Htok : Tokenizer.parseSearchQuery term = []).
  { rewrite parseSearchQuery_spec. now apply spec_scan_spaces. }
  rewrite (evaluate_text_only host) by assumption.
  rewrite textStage_eq, Htok.
  change (fun item : nat => matchesEveryToken host _ [] fields matchType)
    with (fun _ : nat => @Normal bool true).
  rewrite filterM_all. eexists _, _. split; [reflexivity|].
  cbn [results resultCount stats searched termsCount length].
  rewrite !arrayAt_snoc. repeat split.
Qed.

End EdgeFacts.

Lemma record_without_strings_witness :
  multiFieldSearch plainHost (titled "Fix bug") "bug" ["notes"; "tags"]
    "valueOf" = Normal None
  /\ scoreSearchResult plainHost (titled "Fix bug") "bug" ["notes"; "tags"]
     = Normal 0%Z.
Proof.
  apply (record_without_strings plainHost (titled "Fix bug") "bug"
           ["notes"; "tags"] "valueOf").
  repeat constructor.
Defined.

Lemma word_implies_substring_witness :
  findsMatch plainHost (titled "Fix the bug now") "BUG" ["title"] "substring".
Proof.
  apply (word_implies_substring plainHost (titled "Fix the bug now") "BUG"
           ["title"]).
  - split; [|reflexivity]. unfold plainTerm. simpl. repeat constructor.
  - eexists. reflexivity.
Defined.

Lemma blank_term_keeps_all_witness :
  exists s' r,
    evaluate plainHost 0 1 0 "  " [] ["title"] "exact" false "relevance" None
      demoStore = (s', Normal r)
    /\ arrayAt s' (results r) = arrayAt demoStore 0
    /\ resultCount r = length (arrayAt demoStore 0)
    /\ searched (stats r) = true
    /\ termsCount (stats r) = 0.
Proof.
  apply (blank_term_keeps_all plainHost 0 1 0 "  " ["title"] "exact"
           demoStore).
  - reflexivity.
  - repeat constructor.
  - discriminate.
Defined.

(** * The code against the matchers of the specification *)

(** ** Containment and prefixes by position *)

Section SpecStrings.

Lemma occursAt_iff (text term : list ascii) (i : nat) :
  Spec.occursAt text term i = true
  <-> exists post, drop i text = (term ++ post)%list.
Proof.
  unfold Spec.occursAt. rewrite bool_decide_eq_true. split.
  - intros H. exists (drop (length term) (drop i text)).
    transitivity (take (length term) (drop i text)
                  ++ drop (length term) (drop i text))%list;
      [symmetry; apply take_drop | now rewrite H].
  - intros [post ->]. apply take_app_length.
Qed.

Lemma contains_iff (text term : list ascii) :
  Spec.contains text term = true
  <-> exists pre post, text = (pre ++ term ++ post)%list.
Proof.
  unfold Spec.contains, Spec.positions. rewrite existsb_exists. split.
  - intros (i & _ & H). apply occursAt_iff in H as [post H].
    exists (take i text), post. rewrite <- H. symmetry. apply take_drop.
  - intros (pre & post & ->). exists (length pre). split.
    + apply in_seq. rewrite !length_app. lia.
    + apply occursAt_iff. exists post. apply drop_app_length.
Qed.

Lemma startsWith_spec (a b : string) :
  Str.startsWith a b = Spec.startsWith (Str.chars a) (Str.chars b).
Proof.
  apply Bool.eq_iff_eq_true. unfold Spec.startsWith.
  rewrite startsWith_iff, occursAt_iff, drop_0. split.
  - intros [post ->]. exists (Str.chars post). apply chars_append.
  - intros [post H]. exists (Str.of_chars post). apply chars_inj.
    now rewrite chars_append, chars_of_chars.
Qed.

Lemma includes_spec (a b : string) :
  Str.includes a b = Spec.contains (Str.chars a) (Str.chars b).
Proof.
  apply Bool.eq_iff_eq_true. rewrite includes_iff, contains_iff. split.
  - intros (pre & post & ->). exists (Str.chars pre), (Str.chars post).
    now rewrite !chars_append.
  - intros (pre & post & H). exists (Str.of_chars pre), (Str.of_chars post).
    apply chars_inj. now rewrite !chars_append, !chars_of_chars.
Qed.

Lemma eqb_spec_chars (a b : string) :
  String.eqb a b = bool_decide (Str.chars a = Str.chars b).
Proof.
  apply Bool.eq_iff_eq_true. rewrite String.eqb_eq, bool_decide_eq_true.
  split; [now intros -> | apply chars_inj].
Qed.

End SpecStrings.

(** ** The word test on a term without syntax character *)

Section SpecWord.

Lemma wordChar_isWord (c : option ascii) :
  Spec.wordChar c = RegExpFragment.isWord c.
Proof.
  destruct c as [c|]; [|reflexivity].
  destruct c as [[] [] [] [] [] [] [] []]; reflexivity.
Qed.

Lemma boundaryAt_boundary (text : list ascii) (i : nat) :
  Spec.boundaryAt text i
  = RegExpFragment.boundary (Spec.charBefore text i) (head (drop i text)).
Proof.
  unfold Spec.boundaryAt, RegExpFragment.boundary.
  rewrite !wordChar_isWord, head_lookup, lookup_drop.
  now rewrite Nat.add_0_r.
Qed.

Lemma occursAt_cons (text term : list ascii) (c d : ascii) (i : nat) :
  text !! i = Some c ->
  Spec.occursAt text (d :: term) i
  = Ascii.eqb c d && Spec.occursAt text term (S i).
Proof.
  intros Hc. unfold Spec.occursAt. rewrite (drop_S _ _ _ Hc). simpl.
  apply Bool.eq_iff_eq_true.
  rewrite andb_true_iff, !bool_decide_eq_true, Ascii.eqb_eq. split.
  - now intros [= -> ->].
  - now intros [-> ->].
Qed.

(** At a position of the text the literals match exactly where the
    lower-cased text continues with the lower-cased term, and the closing
    assertion holds where a boundary lies at the end of the occurrence. *)
Lemma matchHere_occurs (text term : list ascii) :
  forall i,
  RegExpFragment.matchHere (map RegExpFragment.Lit term)
    (Spec.charBefore text i) (drop i text)
  = Spec.occursAt (map Str.lowerChar text) (map Str.lowerChar term) i
    && Spec.boundaryAt text (i + length term).
Proof.
  induction term as [|d term IH]; intros i.
  - cbn [map RegExpFragment.matchHere length]. rewrite Nat.add_0_r.
    now rewrite boundaryAt_boundary.
  - cbn [map RegExpFragment.matchHere length].
    destruct (text !! i) as [c|] eqn:Hc.
    + rewrite (drop_S _ _ _ Hc).
      rewrite (occursAt_cons _ _ (Str.lowerChar c));
        [|now rewrite list_lookup_fmap, Hc].
      assert (Hb : Spec.charBefore text (S i) = Some c) by exact Hc.
      rewrite <- Hb, IH. cbn [RegExpFragment.atomMatches].
      rewrite <- andb_assoc. f_equal. f_equal. f_equal. lia.
    + apply lookup_ge_None in Hc. rewrite drop_ge by exact Hc.
      symmetry. apply andb_false_iff. left. unfold Spec.occursAt.
      rewrite drop_ge by (rewrite length_map; exact Hc).
      apply bool_decide_eq_false. simpl. discriminate.
Qed.

Lemma search_positions (text term : list ascii) :
  forall k i,
  i + k = length text ->
  RegExpFragment.search (map RegExpFragment.Lit term)
    (Spec.charBefore text i) (drop i text)
  = existsb
      (fun j =>
         Spec.boundaryAt text j
         && Spec.occursAt (map Str.lowerChar text) (map Str.lowerChar term) j
         && Spec.boundaryAt text (j + length term))
      (seq i (S k)).
Proof.
  induction k as [|k IH]; intros i Hi.
  - cbn [seq existsb]. rewrite orb_false_r, <- andb_assoc.
    rewrite <- matchHere_occurs, boundaryAt_boundary.
    rewrite drop_ge by lia. simpl. now rewrite orb_false_r.
  - destruct (text !! i) as [c|] eqn:Hc.
    2: { apply lookup_ge_None in Hc. lia. }
    change (seq i (S (S k))) with (i :: seq (S i) (S k)).
    cbn [existsb]. rewrite <- (IH (S i)) by lia.
    rewrite <- andb_assoc, <- matchHere_occurs, boundaryAt_boundary.
    rewrite (drop_S _ _ _ Hc). cbn [RegExpFragment.search head].
    f_equal. simpl. now rewrite Hc.
Qed.

(** On a term without syntax character the pattern of [wordMatch] finds
    the whole words of the specification. *)
Lemma wordMatch_plain_spec (host : Host) (text term : string) :
  plainTerm term ->
  wordMatch host text term = Normal (Spec.wholeWord text term).
Proof.
  intros Hp. unfold wordMatch. rewrite (compile_plain _ Hp). f_equal.
  unfold RegExpFragment.test, Spec.wholeWord, Spec.positions, Spec.normalized.
  rewrite !chars_toLowerCase, length_map.
  rewrite <- (search_positions (Str.chars text) (Str.chars term)
                (length (Str.chars text)) 0 eq_refl).
  now rewrite drop_0.
Qed.

End SpecWord.

(** ** The fuzzy score and the scorer on such a term *)

Section SpecScores.
Variable host : Host.

(** The loop of [fuzzyMatch] is the greedy scan: from the index
    [termIndex] it consumes what the scan consumes of the rest of the
    term. *)
Lemma fuzzyLoop_consumed (lowerTerm lowerText : list ascii) :
  forall matches termIndex,
  fuzzyLoop lowerText lowerTerm matches termIndex
  = (matches + Spec.consumed lowerText (drop termIndex lowerTerm),
     termIndex + Spec.consumed lowerText (drop termIndex lowerTerm)).
Proof.
  induction lowerText as [|c rest IH]; intros m i; simpl.
  - now rewrite !Nat.add_0_r.
  - destruct (Nat.ltb_spec i (length lowerTerm)) as [Hlt|Hge].
    + destruct (lookup_lt_is_Some_2 lowerTerm i Hlt) as [d Hd].
      rewrite (drop_S _ _ _ Hd), Hd.
      destruct (Ascii.eqb_spec c d) as [->|Hne].
      * rewrite bool_decide_eq_true_2 by reflexivity. rewrite IH.
        f_equal; lia.
      * rewrite bool_decide_eq_false_2 by congruence. rewrite IH.
        now rewrite (drop_S _ _ _ Hd).
    + rewrite drop_ge by exact Hge. now rewrite !Nat.add_0_r.
Qed.

Lemma fuzzyMatch_plain_spec (text term : string) :
  plainTerm term ->
  fuzzyMatch host text term = Normal (Spec.fuzzyScore text term).
Proof.
  intros Hp. unfold fuzzyMatch, Spec.fuzzyScore, Spec.normalized.
  rewrite eqb_spec_chars, includes_spec, (wordMatch_plain_spec host _ _ Hp).
  destruct (bool_decide _); [reflexivity|].
  destruct (Spec.contains _ _); [reflexivity|]. simpl.
  destruct (Spec.wholeWord text term); [reflexivity|].
  rewrite fuzzyLoop_consumed, drop_0, !Nat.add_0_l, <- !length_chars.
  now destruct (_ =? _).
Qed.

Lemma valueAward_plain_spec (value term : string) :
  plainTerm term ->
  valueAward host value term = Normal (Spec.tier value term).
Proof.
  intros Hp. unfold valueAward, Spec.tier, Spec.normalized.
  rewrite eqb_spec_chars, startsWith_spec, includes_spec,
    (wordMatch_plain_spec host _ _ Hp).
  destruct (bool_decide _); [reflexivity|].
  destruct (Spec.startsWith _ _); [reflexivity|].
  destruct (Spec.contains _ _); [reflexivity|]. simpl.
  now destruct (Spec.wholeWord value term).
Qed.

Lemma fieldAwards_plain_spec (item : record) (term : string)
    (fields : list string) :
  plainTerm term ->
  mapM (fieldAward host item term) fields
  = Normal (map (Spec.award item term) fields).
Proof.
  intros Hp. induction fields as [|field fields IH]; simpl; [reflexivity|].
  rewrite IH. unfold fieldAward, Spec.award.
  destruct (nonEmptyString (get item field)) as [value|]; [|reflexivity].
  now rewrite (valueAward_plain_spec _ _ Hp).
Qed.

Lemma scoreSearchResult_plain_spec (item : record) (term : string)
    (fields : list string) :
  plainTerm term ->
  scoreSearchResult host item term fields
  = Normal (Spec.score item term fields).
Proof.
  intros Hp. unfold scoreSearchResult, Spec.score.
  destruct (Str.truthy term); [|reflexivity]. simpl.
  now rewrite scoreLoop_sum, (fieldAwards_plain_spec _ _ _ Hp).
Qed.

(** The term that is not one goes to the engine as a pattern. *)
Lemma scoreSearchResult_pattern (item : record) (value term : string) :
  RegExpFragment.compile (Str.chars term) = None ->
  Str.truthy term = true ->
  nonEmptyString (get item "title") = Some value ->
  Str.includes (Str.toLowerCase value) (Str.toLowerCase term) = false ->
  scoreSearchResult host item term ["title"]
  = (found ← regexp_test host ("\b" ++ term ++ "\b") value;
     Normal (if found : bool then 25 else 0)%Z).
Proof.
  intros Hc Ht Hv Hi. unfold scoreSearchResult. rewrite Ht. simpl.
  unfold scoreStep. rewrite Hv, Hi.
  destruct (String.eqb_spec (Str.toLowerCase value) (Str.toLowerCase term))
    as [He|_].
  { exfalso. rewrite He in Hi.
    assert (Str.includes (Str.toLowerCase term) (Str.toLowerCase term) = true);
      [|congruence].
    apply includes_iff. exists EmptyString, EmptyString.
    now rewrite append_empty_r. }
  destruct (Str.startsWith _ _) eqn:Hs.
  { exfalso. apply startsWith_iff in Hs as [post Hs].
    assert (Str.includes (Str.toLowerCase value) (Str.toLowerCase term) = true);
      [|congruence].
    apply includes_iff. now exists EmptyString, post. }
  unfold wordMatch. rewrite Hc.
  now destruct (regexp_test host _ value) as [[|]|e].
Qed.

End SpecScores.

(** ** The match function against the field matcher *)

Section SpecMatching.
Variable host : Host.

(** The function of the table that a strategy names. *)
Lemma matchFunction_spec (matchType : string) :
  ~ In matchType objectPrototypeNames ->
  matchFunction matchType
  = Own (match Spec.strategyOf matchType with
         | Spec.Exact => FExact
         | Spec.Substring => FSubstring
         | Spec.Word => FWord
         | Spec.Prefix => FPrefix
         | Spec.Fuzzy => FFuzzy
         end).
Proof.
  intros Hn. unfold Spec.strategyOf.
  destruct (String.eqb_spec matchType "exact") as [->|H1]; [reflexivity|].
  destruct (String.eqb_spec matchType "word") as [->|H2]; [reflexivity|].
  destruct (String.eqb_spec matchType "prefix") as [->|H3]; [reflexivity|].
  destruct (String.eqb_spec matchType "fuzzy") as [->|H4]; [reflexivity|].
  destruct (String.eqb_spec matchType "substring") as [->|H5]; [reflexivity|].
  apply matchFunction_unknown; [|exact Hn].
  unfold strategyNames. simpl. intros H. intuition congruence.
Qed.

(** What [multiFieldSearch] asks of one field value is what the field
    matcher of the specification answers. *)
Lemma fieldCall_spec (matchType value token : string) :
  ~ In matchType objectPrototypeNames ->
  (usesPattern matchType = true -> plainTerm token) ->
  (if String.eqb matchType "fuzzy"
   then score ← fuzzyMatch host value token;
        Normal (if Qlt_le_dec (1 # 2) score then true else false)
   else callMatch host (matchFunction matchType) value token)
  = Normal (Spec.matches (Spec.strategyOf matchType) value token).
Proof.
  intros Hn Hp. destruct (String.eqb_spec matchType "fuzzy") as [->|Hf].
  { rewrite (fuzzyMatch_plain_spec host) by (apply Hp; reflexivity).
    reflexivity. }
  rewrite (matchFunction_spec _ Hn). unfold Spec.strategyOf, usesPattern in *.
  destruct (String.eqb matchType "exact").
  { simpl. unfold exactMatch, Spec.normalized. now rewrite eqb_spec_chars. }
  destruct (String.eqb_spec matchType "word") as [->|_].
  { simpl. apply wordMatch_plain_spec. now apply Hp. }
  destruct (String.eqb matchType "prefix").
  { simpl. unfold prefixMatch, Spec.normalized. now rewrite startsWith_spec. }
  destruct (String.eqb_spec matchType "fuzzy") as [->|_]; [congruence|].
  simpl. unfold substringMatch, Spec.normalized. now rewrite includes_spec.
Qed.

(** The loop over the fields returns, and it finds a field exactly when
    the token matches the record. *)
Lemma fieldLoop_conj (item : record) (token matchType : string)
    (fields : list string) :
  ~ In matchType objectPrototypeNames ->
  (usesPattern matchType = true -> plainTerm token) ->
  exists found,
    fieldLoop host item token matchType fields = Normal found
    /\ (is_Some found <-> Spec.recordMatches item fields matchType token).
Proof.
  intros Hn Hp. unfold Spec.recordMatches.
  induction fields as [|field fields (found & Hrun & Hiff)]; simpl.
  - exists None. split; [reflexivity|].
    split; [intros [? [=]] | intros (? & ? & [] & _)].
  - destruct (nonEmptyString (get item field)) as [value|] eqn:Hv.
    2: { exists found. split; [exact Hrun|]. rewrite Hiff. split.
         - intros (f & v & Hin & Hf). exists f, v. auto.
         - intros (f & v & [<-|Hin] & Hf & Hm); [congruence|].
           exists f, v. auto. }
    pose proof (fieldCall_spec matchType value token Hn Hp) as Hcall.
    assert (Hhit : Spec.matches (Spec.strategyOf matchType) value token = true ->
                   exists f v, (field = f \/ In f fields)
                     /\ nonEmptyString (get item f) = Some v
                     /\ Spec.matches (Spec.strategyOf matchType) v token = true).
    { intros Hm. exists field, value. auto. }
    assert (Hmiss : Spec.matches (Spec.strategyOf matchType) value token = false ->
                    (is_Some found <->
                     exists f v, (field = f \/ In f fields)
                       /\ nonEmptyString (get item f) = Some v
                       /\ Spec.matches (Spec.strategyOf matchType) v token
                          = true)).
    { intros Hm. rewrite Hiff. split.
      - intros (f & v & Hin & Hf). exists f, v. auto.
      - intros (f & v & [<-|Hin] & Hf & Hm'); [congruence|].
        exists f, v. auto. }
    destruct (String.eqb matchType "fuzzy").
    + destruct (fuzzyMatch host value token) as [score|e]; [|discriminate].
      simpl in *. injection Hcall as Hcall.
      destruct (Qlt_le_dec (1 # 2) score).
      * eexists. split; [reflexivity|]. split; [auto | eauto].
      * exists found. split; [exact Hrun | auto].
    + rewrite Hcall. simpl.
      destruct (Spec.matches (Spec.strategyOf matchType) value token).
      * eexists. split; [reflexivity|]. split; [auto | eauto].
      * exists found. split; [exact Hrun | auto].
Qed.

Lemma matchesEveryToken_conj (item : record) (fields : list string)
    (matchType : string) (tokens : list string) :
  ~ In matchType objectPrototypeNames ->
  (usesPattern matchType = true -> Forall plainTerm tokens) ->
  Forall (fun t => Str.truthy t = true) tokens ->
  fields <> [] ->
  exists b,
    matchesEveryToken host item tokens fields matchType = Normal b
    /\ (b = true <->
        forall token, In token tokens ->
                      Spec.recordMatches item fields matchType token).
Proof.
  intros Hn Hp Ht Hf. unfold matchesEveryToken.
  induction Ht as [|token tokens Htok _ IH]; simpl.
  - exists true. split; [reflexivity|]. split; [intros _ ? [] | reflexivity].
  - destruct IH as (b & Hrun & Hiff).
    { intros Hu. specialize (Hp Hu). now apply Forall_inv_tail in Hp. }
    destruct (fieldLoop_conj item token matchType fields Hn)
      as (found & Hfound & Hspec).
    { intros Hu. specialize (Hp Hu). now apply List.Forall_inv in Hp. }
    unfold multiFieldSearch. rewrite Htok.
    destruct fields as [|f fields']; [congruence|].
    change (negb true || (length (f :: fields') =? 0)) with false. cbv iota.
    rewrite Hfound. simpl.
    destruct (bool_decide_reflect (is_Some found)) as [Hsome|Hnone].
    + exists b. split; [exact Hrun|]. rewrite Hiff. split.
      * intros Hall t [<-|Hin]; [now apply Hspec | now apply Hall].
      * intros Hall t Hin. apply Hall. now right.
    + exists false. split; [reflexivity|]. split; [discriminate|].
      intros Hall. exfalso. apply Hnone, Hspec, Hall. now left.
Qed.

(** The text filter returns the records that every token matches, in
    their order. *)
Lemma textStage_conj (filtered : nat) (term : string) (fields : list string)
    (matchType : string) (s : store) :
  ~ In matchType objectPrototypeNames ->
  (usesPattern matchType = true ->
   Forall plainTerm (Tokenizer.parseSearchQuery term)) ->
  fields <> [] ->
  exists s' out,
    textStage host filtered (Tokenizer.parseSearchQuery term) fields matchType s
    = (s', Normal out)
    /\ records s' = records s
    /\ out < length (arrays s')
    /\ sublist (arrayAt s' out) (arrayAt s filtered)
    /\ forall item,
         In item (arrayAt s' out) <->
         In item (arrayAt s filtered)
         /\ forall token, In token (Tokenizer.parseSearchQuery term) ->
              Spec.recordMatches (recordAt s item) fields matchType token.
Proof.
  intros Hn Hp Hf.
  assert (Htruthy : Forall (fun t => Str.truthy t = true)
                      (Tokenizer.parseSearchQuery term)).
  { rewrite parseSearchQuery_spec. apply spec_scan_truthy. }
  rewrite textStage_eq.
  destruct (filterM_returns
              (fun item => matchesEveryToken host (recordAt s item)
                             (Tokenizer.parseSearchQuery term) fields matchType)
              (arrayAt s filtered)) as [kept Hk].
  { intros item.
    destruct (matchesEveryToken_conj (recordAt s item) fields matchType _
                Hn Hp Htruthy Hf) as (b & Hb & _).
    eauto. }
  rewrite Hk. eexists _, _. split; [reflexivity|].
  rewrite arrayAt_alloc. cbn [records arrays].
  destruct (filterM_spec _ _ _ Hk) as [Hsub Hin].
  split; [reflexivity|]. split; [rewrite length_app; simpl; lia|].
  split; [exact Hsub|]. intros item. rewrite Hin.
  destruct (matchesEveryToken_conj (recordAt s item) fields matchType _
              Hn Hp Htruthy Hf) as (b & Hb & Hiff).
  rewrite Hb, <- Hiff. split; intros [H1 H2]; (split; [exact H1|]);
    congruence.
Qed.

End SpecMatching.

(** ** The evaluation against the field matcher *)

Section SpecPipeline.
Variable host : Host.

Lemma passesFilter_scored (r : record) (score : value) (f : filter) :
  passesFilter host (<["_searchScore" := score]> r) f = passesFilter host r f.
Proof.
  unfold passesFilter, get. now rewrite !lookup_insert_ne by discriminate.
Qed.

(** The copies, element by element. *)
Lemma scoreCopies_Forall2 (term : string) (fields : list string)
    (l : list nat) : forall s s' images,
  Forall (fun item => item < length (records s)) l ->
  mapM (scoreCopy host term fields) l s = (s', Normal images) ->
  Forall2 (fun orig copy =>
             exists score,
               scoreSearchResult host (recordAt s orig) term fields
               = Normal score
               /\ recordAt s' copy
                  = <["_searchScore" := VNum score]> (recordAt s orig))
          l images.
Proof.
  induction l as [|item l IH]; intros s s' images Hwf; simpl.
  - intros [= <- <-]. constructor.
  - unfold mbind at 1, M_bind.
    unfold scoreCopy at 1, mbind at 1, M_bind, readRecord, lift.
    unfold mbind at 1. unfold M_bind.
    destruct (scoreSearchResult host (recordAt s item) term fields)
      as [score|e] eqn:Hscore; [|discriminate].
    unfold allocRecord.
    set (s1 := Store (records s
                      ++ [<["_searchScore" := VNum score]> (recordAt s item)])
                     (arrays s)).
    unfold mbind, M_bind.
    destruct (mapM (scoreCopy host term fields) l s1) as [s2 [rest|e]] eqn:Hm;
      [|discriminate].
    intros [= <- <-].
    apply Forall_cons_1 in Hwf as [Hitem Hwf].
    assert (Hwf1 : Forall (fun item => item < length (records s1)) l).
    { eapply Forall_impl; [exact Hwf|]. subst s1. simpl. intros x Hx.
      rewrite length_app. simpl. lia. }
    destruct (scoreCopies_spec host term fields _ _ _ _ Hwf1 Hm)
      as (_ & Hpre & _ & _).
    assert (Hpre0 : records s `prefix_of` records s1).
    { subst s1. simpl. now apply prefix_app_r. }
    constructor.
    + exists score. split; [exact Hscore|].
      rewrite (recordAt_extends s1 s2) by
        (try assumption; subst s1; simpl; rewrite length_app; simpl; lia).
      unfold recordAt at 1. subst s1. simpl.
      now rewrite list_lookup_middle.
    + specialize (IH s1 s2 rest Hwf1 Hm).
      rewrite Forall2_lookup in *. intros i. specialize (IH i).
      destruct (l !! i) as [orig|] eqn:Ho, (rest !! i) as [copy|];
        inversion IH as [? ? (sc & H1 & H2)|]; subst; constructor.
      assert (Horig : orig < length (records s)).
      { rewrite List.Forall_forall in Hwf. apply Hwf.
        apply list_elem_of_In. eapply list_elem_of_lookup_2. exact Ho. }
      rewrite (recordAt_extends s s1) in H1, H2 by assumption.
      exists sc. auto.
Qed.

(** The ranking stage keeps every element, as a copy. *)
Lemma rankStage_copies (term : string) (fields : list string) (a : nat)
    (s s' : store) (b : nat) :
  wellFormed s a ->
  rankStage host a term fields s = (s', Normal b) ->
  b < length (arrays s')
  /\ (forall x, In x (arrayAt s' b) ->
      exists orig, In orig (arrayAt s a)
                   /\ resultOf host true s s' term fields orig x)
  /\ (forall orig, In orig (arrayAt s a) ->
      exists x, In x (arrayAt s' b)
                /\ resultOf host true s s' term fields orig x).
Proof.
  intros Hwf. unfold rankStage, mbind at 1, M_bind.
  unfold arrayMap, mbind at 1, M_bind, readArray.
  unfold mbind at 1. unfold M_bind.
  destruct (mapM (scoreCopy host term fields) (arrayAt s a) s)
    as [s1 [images|e]] eqn:Hm; [|discriminate].
  pose proof (scoreCopies_Forall2 term fields _ _ _ _ Hwf Hm) as Hall.
  unfold allocArray. unfold mbind at 1. unfold M_bind.
  remember (Store (records s1) (arrays s1 ++ [images])) as s2 eqn:Hs2.
  unfold arraySort, mbind, M_bind, readArray.
  assert (Hat : arrayAt s2 (length (arrays s1)) = images).
  { subst s2. apply arrayAt_alloc. }
  rewrite Hat.
  destruct (sortM_byScore s2 images) as (sorted & -> & Hp & Hs).
  unfold writeArray. intros [= <- <-].
  assert (Hvalid : length (arrays s1) < length (arrays s2)).
  { subst s2. simpl. rewrite length_app. simpl. lia. }
  rewrite arrayAt_write by exact Hvalid. cbn [records arrays].
  assert (Hrec : forall x,
            recordAt (Store (records s2)
                        (<[length (arrays s1) := sorted]> (arrays s2))) x
            = recordAt s1 x).
  { intros x. subst s2. reflexivity. }
  split; [rewrite length_insert; exact Hvalid|]. split.
  - intros x Hx. apply (Permutation_in _ Hp) in Hx.
    apply list_elem_of_In in Hx.
    apply list_elem_of_lookup_1 in Hx as [i Hi].
    destruct (Forall2_lookup_r _ _ _ _ _ Hall Hi) as (orig & Ho & sc & H1 & H2).
    exists orig. split.
    + apply list_elem_of_In. eapply list_elem_of_lookup_2. exact Ho.
    + exists sc. now rewrite Hrec.
  - intros orig Ho. apply list_elem_of_In in Ho.
    apply list_elem_of_lookup_1 in Ho as [i Hi].
    destruct (Forall2_lookup_l _ _ _ _ _ Hall Hi) as (x & Hx & sc & H1 & H2).
    exists x. split.
    + apply (Permutation_in _ (Permutation_sym Hp)). apply list_elem_of_In.
      eapply list_elem_of_lookup_2. exact Hx.
    + exists sc. now rewrite Hrec.
Qed.

Lemma scoreCopies_return (term : string) (fields : list string)
    (l : list nat) :
  plainTerm term ->
  forall s, exists s' images,
    mapM (scoreCopy host term fields) l s = (s', Normal images).
Proof.
  intros Hp. induction l as [|item l IH]; intros s; simpl; [eauto|].
  unfold mbind at 1, M_bind.
  unfold scoreCopy at 1, mbind at 1, M_bind, readRecord, lift.
  unfold mbind at 1. unfold M_bind.
  rewrite (scoreSearchResult_plain_spec host _ _ _ Hp). unfold allocRecord.
  unfold mbind, M_bind.
  destruct (mapM (scoreCopy host term fields) l _) as [s2 [rest|e]] eqn:Hm;
    [eauto|].
  match type of Hm with
  | mapM _ _ ?s1 = _ => destruct (IH s1) as (s2' & rest' & Heq)
  end.
  pose proof (eq_trans (eq_sym Hm) Heq) as Hbad. discriminate Hbad.
Qed.

Lemma rankStage_returns (term : string) (fields : list string) (a : nat)
    (s : store) :
  plainTerm term ->
  exists s' b, rankStage host a term fields s = (s', Normal b).
Proof.
  intros Hp. unfold rankStage, mbind at 1, M_bind.
  unfold arrayMap, mbind at 1, M_bind, readArray.
  unfold mbind at 1. unfold M_bind.
  destruct (mapM (scoreCopy host term fields) (arrayAt s a) s)
    as [s1 [images|e]] eqn:Hm.
  2: { destruct (scoreCopies_return term fields (arrayAt s a) Hp s)
         as (s1' & images' & Heq).
       pose proof (eq_trans (eq_sym Hm) Heq) as Hbad. discriminate Hbad. }
  unfold allocArray. unfold mbind at 1. unfold M_bind.
  remember (Store (records s1) (arrays s1 ++ [images])) as s2 eqn:Hs2.
  unfold arraySort, mbind, M_bind, readArray.
  destruct (sortM_byScore s2 (arrayAt s2 (length (arrays s1))))
    as (sorted & -> & _).
  unfold writeArray. eauto.
Qed.

Lemma M_bind_returns {A B} (m : M A) (k : A -> M B) (s s1 s2 : store)
    (a : A) (b : B) :
  m s = (s1, Normal a) -> k a s1 = (s2, Normal b) ->
  (m ≫= k) s = (s2, Normal b).
Proof. unfold mbind, M_bind. now intros -> ->. Qed.

Lemma limitStage_returns (a : nat) (maxResults : option Z) (s : store) :
  exists s' b, limitStage a maxResults s = (s', Normal b).
Proof.
  unfold limitStage. destruct maxResults as [k|]; [|cbn; eauto].
  unfold mbind, M_bind, readArray.
  destruct (negb (k =? 0)%Z && _); cbn; eauto.
Qed.

(** X25. The conjunctive matching of the specification, on the whole
    pipeline.  The term is not empty, there are search fields, and the
    match type is no property name of [Object.prototype].  Under [word] and
    [fuzzy], whose code builds a pattern from the token, the tokens are of
    basic Latin characters without syntax character, and the field values
    of basic Latin characters.  Then, whatever the ranking, the filters, the order
    and the limit, every result of an evaluation that returns is (the
    scored copy of) a record of the collection that every token matches in
    some field and that passes the filters; without limit every such record
    has its result.  The evaluation returns when nothing is sorted by the
    engine and the scorer is not called or the term has no syntax
    character. *)
Theorem evaluate_conjunctive (startTime endTime : Q) (data : nat)
    (term : string) (filters : list filter) (fields : list string)
    (matchType : string) (rankResults : bool) (sortBy : string)
    (maxResults : option Z) (s : store) :
  Str.truthy term = true ->
  fields <> [] ->
  ~ In matchType objectPrototypeNames ->
  (usesPattern matchType = true ->
   Forall literalTerm (Tokenizer.parseSearchQuery term)) ->
  (usesPattern matchType = true -> basicLatinFields s data fields) ->
  wellFormed s data ->
  (forall s' r,
     evaluate host startTime endTime data term filters fields matchType
       rankResults sortBy maxResults s = (s', Normal r) ->
     sortPermutes host ->
     (forall x, In x (arrayAt s' (results r)) ->
        exists orig,
          In orig (arrayAt s data)
          /\ resultOf host rankResults s s' term fields orig x
          /\ keptBy s term fields matchType orig
          /\ passesAll host s filters orig)
     /\ (maxResults = None ->
         forall orig,
           In orig (arrayAt s data) ->
           keptBy s term fields matchType orig ->
           passesAll host s filters orig ->
           exists x, In x (arrayAt s' (results r))
                     /\ resultOf host rankResults s s' term fields orig x))
  /\ (rankResults = false \/ plainTerm term ->
      keepsOrder sortBy fields = true ->
      exists s' r,
        evaluate host startTime endTime data term filters fields matchType
          rankResults sortBy maxResults s = (s', Normal r)).
Proof.
  intros Ht Hf Hn Hlit _ Hwf.
  assert (Hp : usesPattern matchType = true ->
               Forall plainTerm (Tokenizer.parseSearchQuery term)).
  { intros Hu. eapply Forall_impl; [exact (Hlit Hu)|]. now intros t [H _]. }
  assert (Hc : negb (Str.truthy term) && (length filters =? 0) = false)
    by now rewrite Ht.
  assert (Hcond : Str.truthy term && (0 <? length fields) = true).
  { rewrite Ht. destruct fields; [congruence|reflexivity]. }
  set (s1 := Store (records s) (arrays s ++ [arrayAt s data])).
  destruct (textStage_conj host (length (arrays s)) term fields matchType s1
              Hn Hp Hf) as (sT & aT & HT & T1 & T2 & T3 & T4).
  assert (Hdata : arrayAt s1 (length (arrays s)) = arrayAt s data).
  { subst s1. apply arrayAt_alloc. }
  rewrite Hdata in T3, T4.
  assert (HrecT : forall x, recordAt sT x = recordAt s x).
  { intros x. unfold recordAt. now rewrite T1. }
  assert (HwfT : wellFormed sT aT).
  { unfold wellFormed in *. rewrite T1. subst s1. simpl.
    eapply sublist_Forall'; eassumption. }
  split.
  - intros s' r Hev Hperm.
    apply (evaluate_inv _ _ _ _ _ _ _ _ _ _ _ _ _ _ Hc) in Hev
      as (s4 & b & Hsm & Hlim).
    apply sortedMatches_stages in Hsm
      as (s2 & a2 & s3 & Htext & Hfilter & Hsort).
    fold s1 in Htext. rewrite Hcond in Htext.
    destruct Htext as (sT' & aT' & HT' & Hrank).
    rewrite HT in HT'. injection HT' as <- <-.
    (* after the ranking *)
    assert (H2 : a2 < length (arrays s2)
              /\ (forall x, In x (arrayAt s2 a2) ->
                  exists orig, In orig (arrayAt sT aT)
                    /\ resultOf host rankResults s s2 term fields orig x)
              /\ (forall orig, In orig (arrayAt sT aT) ->
                  exists x, In x (arrayAt s2 a2)
                    /\ resultOf host rankResults s s2 term fields orig x)).
    { destruct rankResults.
      - apply rankStage_copies in Hrank as (R1 & R2 & R3); [|exact HwfT].
        split; [exact R1|]. split.
        + intros x Hx. destruct (R2 x Hx) as (orig & Ho & sc & H1 & H2).
          exists orig. split; [exact Ho|]. exists sc.
          now rewrite <- !HrecT.
        + intros orig Ho. destruct (R3 orig Ho) as (x & Hx & sc & H1 & H2).
          exists x. split; [exact Hx|]. exists sc. now rewrite <- !HrecT.
      - injection Hrank as -> ->. split; [exact T2|]. split.
        + intros x Hx. exists x. split; [exact Hx | reflexivity].
        + intros orig Ho. exists orig. split; [exact Ho | reflexivity]. }
    destruct H2 as (V2 & Hsound2 & Hcomplete2).
    (* a result passes a filter exactly when its original does *)
    assert (Hpass : forall orig x,
              In orig (arrayAt sT aT) ->
              resultOf host rankResults s s2 term fields orig x ->
              forallb (passesFilter host (recordAt s2 x)) filters
              = forallb (passesFilter host (recordAt s orig)) filters).
    { intros orig x Ho Hres.
      assert (E : forall f, passesFilter host (recordAt s2 x) f
                            = passesFilter host (recordAt s orig) f).
      { intros f. destruct rankResults.
        - destruct Hres as (sc & _ & ->). apply passesFilter_scored.
        - simpl in Hres. subst x. injection Hrank as -> ->.
          now rewrite HrecT. }
      clear -E. induction filters as [|f fs IH]; simpl; [reflexivity|].
      now rewrite E, IH. }
    (* after the filters *)
    assert (H3 : records s3 = records s2 /\ b < length (arrays s3)
              /\ forall x, In x (arrayAt s3 b) <->
                   In x (arrayAt s2 a2)
                   /\ forallb (passesFilter host (recordAt s2 x)) filters
                      = true).
    { destruct (0 <? length filters) eqn:Hfl.
      - rewrite filterStage_eq in Hfilter. injection Hfilter as <- <-.
        rewrite arrayAt_alloc. simpl. split; [reflexivity|].
        split; [rewrite length_app; simpl; lia|]. intros x.
        apply filter_In.
      - injection Hfilter as -> ->. split; [reflexivity|].
        split; [exact V2|]. intros x.
        destruct filters; [|discriminate Hfl]. simpl. tauto. }
    destruct H3 as (R3 & V3 & Hin3).
    apply sortStage_perm in Hsort as (R4 & V4 & P4); [|exact Hperm|exact V3].
    assert (Hres' : forall orig x s'',
              records s'' = records s2 ->
              resultOf host rankResults s s2 term fields orig x ->
              resultOf host rankResults s s'' term fields orig x).
    { intros orig x s'' Hr. unfold resultOf, recordAt. now rewrite Hr. }
    split.
    + intros x Hx.
      apply limitStage_sub in Hlim as (R5 & _ & L5); [|lia].
      apply (sublist_In _ _ _ L5) in Hx. apply (Permutation_in _ P4) in Hx.
      apply Hin3 in Hx as [Hx Hpx].
      destruct (Hsound2 x Hx) as (orig & Ho & Hres).
      exists orig. apply T4 in Ho as Ho'. destruct Ho' as [Hod Hkept].
      split; [exact Hod|]. split; [apply Hres'; [congruence | exact Hres]|].
      split.
      * intros token Htok. rewrite <- (HrecT orig).
        replace (recordAt sT orig) with (recordAt s1 orig)
          by (unfold recordAt; now rewrite T1).
        now apply Hkept.
      * unfold passesAll. now rewrite <- (Hpass orig x Ho Hres).
    + intros -> orig Ho Hkept Hpasses.
      injection Hlim as <- <-.
      assert (HoT : In orig (arrayAt sT aT)).
      { apply T4. split; [exact Ho|]. exact Hkept. }
      destruct (Hcomplete2 orig HoT) as (x & Hx & Hres).
      exists x. split.
      * apply (Permutation_in _ (Permutation_sym P4)). apply Hin3.
        split; [exact Hx|]. now rewrite (Hpass orig x HoT Hres).
      * apply Hres'; [congruence | exact Hres].
  - intros Hrank Hk.
    assert (Hr : exists s2 a2,
              (if rankResults then rankStage host aT term fields
               else mret aT) sT = (s2, Normal a2)).
    { destruct rankResults; [|cbn; eauto].
      apply rankStage_returns. now destruct Hrank. }
    destruct Hr as (s2 & a2 & Hr).
    assert (Hfl : exists s3 b,
              (if 0 <? length filters then filterStage host a2 filters
               else mret a2) s2 = (s3, Normal b)).
    { destruct (0 <? length filters); [|cbn; eauto].
      rewrite filterStage_eq. eauto. }
    destruct Hfl as (s3 & b & Hfl).
    destruct (limitStage_returns b maxResults s3) as (s5 & c & Hlim).
    eexists _, _. unfold evaluate. rewrite Hc.
    eapply M_bind_returns.
    { unfold sortedMatches. eapply M_bind_returns; [reflexivity|].
      eapply M_bind_returns.
      { rewrite Hcond. eapply M_bind_returns; [exact HT | exact Hr]. }
      eapply M_bind_returns; [exact Hfl|].
      eapply M_bind_returns; [apply sortStage_keepsOrder; exact Hk|].
      reflexivity. }
    eapply M_bind_returns; [exact Hlim|]. reflexivity.
Qed.

End SpecPipeline.

(** X24. For a query of basic Latin characters without pattern syntax
    characters the score is the one of the specification: per field the
    first tier that applies of equality (100), starts-with (75),
    containment (50) and whole word (25), the awards of the fields added
    up, and 0 for the empty query. *)
Theorem scorer_literal_query (host : Host) (item : record) (term : string)
    (fields : list string) :
  literalTerm term ->
  scoreSearchResult host item term fields
  = Normal (Spec.score item term fields).
Proof. intros [Hp _]. now apply scoreSearchResult_plain_spec. Qed.

Lemma scorer_literal_query_witness :
  scoreSearchResult plainHost
    (<["description" := VStr "the task list"]> (titled "Task"))
    "task" ["title"; "notes"; "description"]
  = Normal (Spec.score
              (<["description" := VStr "the task list"]> (titled "Task"))
              "task" ["title"; "notes"; "description"])
  /\ Spec.score (<["description" := VStr "the task list"]> (titled "Task"))
       "task" ["title"; "notes"; "description"] = 150%Z.
Proof.
  split; [|vm_compute; reflexivity].
  apply (scorer_literal_query plainHost
           (<["description" := VStr "the task list"]> (titled "Task"))
           "task" ["title"; "notes"; "description"]).
  split; [|reflexivity]. unfold plainTerm. simpl. repeat constructor.
Defined.

Lemma evaluate_conjunctive_witness :
  exists s' r,
    evaluate plainHost 0 1 0 "bug" [] ["title"] "word" true "relevance" None
      demoStore = (s', Normal r)
    /\ forall orig,
         In orig (arrayAt demoStore 0) ->
         keptBy demoStore "bug" ["title"] "word" orig ->
         passesAll plainHost demoStore [] orig ->
         exists x, In x (arrayAt s' (results r))
                   /\ resultOf plainHost true demoStore s' "bug" ["title"]
                        orig x.
Proof.
  destruct (evaluate_conjunctive plainHost 0 1 0 "bug" [] ["title"] "word"
              true "relevance" None demoStore) as [H1 H2].
  - reflexivity.
  - discriminate.
  - unfold objectPrototypeNames. simpl. intros H.
    repeat (destruct H as [H|H]; [discriminate H|]). exact H.
  - intros _. repeat constructor.
  - intros _ item field value Hitem [<-|[]] Hv.
    destruct Hitem as [<-|[<-|[<-|[]]]]; vm_compute in Hv;
      injection Hv as <-; reflexivity.
  - unfold wellFormed. simpl. repeat constructor.
  - destruct H2 as (s' & r & E).
    + right. unfold plainTerm. simpl. repeat constructor.
    + reflexivity.
    + exists s', r. split; [exact E|].
      destruct (H1 s' r E plainHost_sortPermutes) as [_ Hc].
      exact (Hc eq_refl).
Defined.

(** ** The claims on a term that is a pattern *)

(** C1, on the code: under the match type [word] the token [a.c] is used
    as a pattern, whose dot matches any character.  The record titled
    [abc] is kept by [multiFieldSearch] and is the result of the
    evaluation, while the token [a.c] is no whole word of [abc]: no field
    of the record matches it by the field matcher of the specification.
    With the token [(] the evaluation throws what the engine throws for
    the pattern it is handed. *)
Theorem C1_pattern_token (host : Host) :
  Tokenizer.parseSearchQuery "a.c" = ["a.c"]
  /\ multiFieldSearch host (titled "abc") "a.c" ["title"] "word"
     = Normal (Some (MatchInfo "title" None))
  /\ (let s := Store [titled "abc"] [[0]] in
      exists s' r,
        evaluate host 0 1 0 "a.c" [] ["title"] "word" false "relevance" None s
        = (s', Normal r)
        /\ arrayAt s' (results r) = [0]
        /\ resultCount r = 1)
  /\ ~ Spec.recordMatches (titled "abc") ["title"] "word" "a.c"
  /\ (forall e,
        regexp_test host "\b(\b" "abc" = Throw e ->
        (evaluate host 0 1 0 "(" [] ["title"] "word" false "relevance" None
           (Store [titled "abc"] [[0]])).2 = Throw e).
Proof.
  split; [reflexivity|]. split; [reflexivity|]. split; [|split].
  - exists (Store [titled "abc"] [[0]; [0]; [0]]),
      (SearchResult 2 1 (1 - 0) (Statistics true 1 (Some ["a.c"]))).
    split; [vm_compute; reflexivity|]. split; reflexivity.
  - intros (field & value & [<-|[]] & Hv & Hm).
    vm_compute in Hv. injection Hv as <-. vm_compute in Hm. discriminate Hm.
  - intros e He. vm_compute. vm_compute in He. now rewrite He.
Qed.

(** C2, on the code: the query [a.c] is used as a pattern by the
    whole-word test, so that the title [abc], which does not contain the
    query and of which the query is no whole word, is awarded 25 where the
    tiers of the specification award 0; and for the query [(] the scorer
    throws what the engine throws for the pattern it is handed. *)
Theorem C2_scorer_pattern_query (host : Host) :
  scoreSearchResult host (titled "abc") "a.c" ["title"] = Normal 25%Z
  /\ Spec.score (titled "abc") "a.c" ["title"] = 0%Z
  /\ Spec.wholeWord "abc" "a.c" = false
  /\ (forall e,
        regexp_test host "\b(\b" "abc" = Throw e ->
        scoreSearchResult host (titled "abc") "(" ["title"] = Throw e).
Proof.
  split; [reflexivity|]. split; [reflexivity|]. split; [reflexivity|].
  intros e He.
  rewrite (scoreSearchResult_pattern host (titled "abc") "abc" "(");
    try reflexivity.
  change ("\b" ++ "(" ++ "\b")%string with "\b(\b". now rewrite He.
Qed.
